(** * Fleet execution and scheduling engine: a shallow embedding

  The development follows the Python sources of the backend:

  - [app/services/nornir/commands.py]       (module [Commands])
  - [app/services/nornir/timeouts.py]       (module [Timeouts])
  - [app/services/nornir/results.py]        (module [Results])
  - [app/services/nornir/inventory_ops.py],
    [app/services/nornir/device_ops.py]     (module [DeviceOps])
  - [app/services/config_backup_scheduler.py] (module [Scheduler])
  - [app/services/task_runner.py]           (module [TaskRunner])

  Python dictionaries whose iteration order is observed are association
  lists; dictionaries used only through their keys and lookups are
  [gmap]s.  Code that raises or mutates is written in a small
  state-and-exception monad. *)

From stdpp Require Import gmap strings list pretty sorting.
From Stdlib Require Import ZArith Ascii String.

Set Warnings "-register-all,-abstract-large-number".

Local Open Scope string_scope.
Local Open Scope Z_scope.
Local Open Scope list_scope.

(** ** Python strings

  A [str] is modelled by a Rocq [string] holding the UTF-8 bytes of the
  text.  Line boundaries and white space are the ASCII ones; the
  separators that Python also recognises outside ASCII (U+0085, U+00A0,
  U+2028, ...) are ordinary characters here. *)
Module PyStr.

(** The boundaries of [str.splitlines] below 128:
    LF, VT, FF, CR, FS, GS, RS. *)
Definition is_linebreak (c : ascii) : bool :=
  let n := nat_of_ascii c in
  ((10 <=? n) && (n <=? 13) || (28 <=? n) && (n <=? 30))%nat.

(** White space of [str.strip] below 128: TAB..CR, FS..US and space. *)
Definition is_space (c : ascii) : bool :=
  let n := nat_of_ascii c in
  ((9 <=? n) && (n <=? 13) || (28 <=? n) && (n <=? 32))%nat.

Definition is_cr (c : ascii) : bool := (nat_of_ascii c =? 13)%nat.
Definition is_lf (c : ascii) : bool := (nat_of_ascii c =? 10)%nat.

(** [splitlines_from cur after_cr s]: [cur] is the line being read and
    [after_cr] tells that the previous character was a CR, so that a LF
    now only completes the CR LF boundary. *)
Fixpoint splitlines_from (cur : string) (after_cr : bool) (s : string)
  : list string :=
  match s with
  | EmptyString => if String.eqb cur "" then [] else [cur]
  | String c s' =>
      if after_cr && is_lf c then splitlines_from "" false s'
      else if is_linebreak c then cur :: splitlines_from "" (is_cr c) s'
      else splitlines_from (cur +:+ String c "") false s'
  end.

Definition splitlines (s : string) : list string :=
  splitlines_from "" false s.

Fixpoint lstrip (s : string) : string :=
  match s with
  | EmptyString => ""
  | String c s' => if is_space c then lstrip s' else s
  end.

Definition rstrip (s : string) : string :=
  String.rev (lstrip (String.rev s)).

Definition strip (s : string) : string := rstrip (lstrip s).

(** [needle in hay] *)
Fixpoint contains (needle hay : string) : bool :=
  String.prefix needle hay ||
  match hay with
  | EmptyString => false
  | String _ hay' => contains needle hay'
  end.

Definition startswith (s p : string) : bool := String.prefix p s.

Fixpoint endswith_char (s : string) (c : ascii) : bool :=
  match s with
  | EmptyString => false
  | String d EmptyString => Ascii.eqb d c
  | String _ s' => endswith_char s' c
  end.

(** [s[:-1]] *)
Fixpoint drop_last (s : string) : string :=
  match s with
  | EmptyString => ""
  | String _ EmptyString => ""
  | String c s' => String c (drop_last s')
  end.

(** [str.lower] on the ASCII letters. *)
Definition lower_char (c : ascii) : ascii :=
  let n := nat_of_ascii c in
  if ((65 <=? n) && (n <=? 90))%nat then ascii_of_nat (n + 32) else c.

Fixpoint lower (s : string) : string :=
  match s with
  | EmptyString => ""
  | String c s' => String (lower_char c) (lower s')
  end.

(** A character of the text starts at each byte that is no continuation
    byte of UTF-8 (10xxxxxx). *)
Definition is_continuation (c : ascii) : bool :=
  let n := nat_of_ascii c in
  ((128 <=? n) && (n <? 192))%nat.

(** [len(s)]: the number of characters. *)
Fixpoint len (s : string) : nat :=
  match s with
  | EmptyString => 0%nat
  | String c s' => if is_continuation c then len s' else S (len s')
  end.

(** [s[:n]]: the first [n] characters, each with all of its bytes. *)
Fixpoint take (n : nat) (s : string) : string :=
  match s with
  | EmptyString => ""
  | String c s' =>
      if is_continuation c then String c (take n s')
      else
        match n with
        | O => ""
        | S n' => String c (take n' s')
        end
  end.

End PyStr.

(** ** commands.py *)
Module Commands.

(** [split_commands]: the stripped, non-empty lines of the text. *)
Definition split_commands (command : string) : list string :=
  List.filter (fun c => negb (String.eqb c ""))
              (List.map PyStr.strip (PyStr.splitlines command)).

End Commands.

(** ** timeouts.py *)
Module Timeouts.

(** A [command_timeouts] dictionary: pattern to seconds, in insertion
    order.  The seconds are JSON integers, on which [float] is exact. *)
Definition rules : Type := list (string * Z).

Fixpoint dict_get (k : string) (d : rules) : option Z :=
  match d with
  | [] => None
  | (k', v) :: d' => if String.eqb k k' then Some v else dict_get k d'
  end.

(** [d[k] = v]: an existing key keeps its position, a new key goes last. *)
Fixpoint dict_set (k : string) (v : Z) (d : rules) : rules :=
  match d with
  | [] => [(k, v)]
  | (k', v') :: d' =>
      if String.eqb k k' then (k, v) :: d' else (k', v') :: dict_set k v d'
  end.

(** [d.update(other)] *)
Definition dict_update (d other : rules) : rules :=
  fold_left (fun acc kv => dict_set (fst kv) (snd kv) acc) other d.

(** The [data] attribute of a defaults, group or host object: either not
    a dictionary at all, or a dictionary whose [command_timeouts] entry
    may be missing. *)
Inductive DataField : Type :=
| NotADict
| Dict (command_timeouts : option rules).

Record Host : Type := mkHost {
  defaults : option DataField;       (* [None]: no defaults object *)
  extended_groups : list DataField;  (* in the order the groups are walked *)
  data : DataField
}.

(** [data.get("command_timeouts", {}) or {}], guarded by
    [isinstance(data, dict)]. *)
Definition layer_rules (d : DataField) : rules :=
  match d with
  | Dict (Some r) => r
  | _ => []
  end.

Definition merged_rules (host : Host) : rules :=
  let merged := [] in
  let merged :=
    match defaults host with
    | Some d => dict_update merged (layer_rules d)
    | None => merged
    end in
  let merged :=
    fold_left (fun m g => dict_update m (layer_rules g))
              (extended_groups host) merged in
  dict_update merged (layer_rules (data host)).

Definition wildcard_match (pattern command : string) : bool :=
  PyStr.endswith_char pattern "*" &&
  PyStr.startswith command (PyStr.drop_last pattern).

(** The [for pattern, value in merged.items()] loop. *)
Fixpoint first_wildcard (command : string) (d : rules) : option Z :=
  match d with
  | [] => None
  | (pattern, value) :: d' =>
      if wildcard_match pattern command then Some value
      else first_wildcard command d'
  end.

Definition resolve_timeout_ops_for_command (host : Host) (command : string)
  : option Z :=
  let merged := merged_rules host in
  match merged with
  | [] => None
  | _ =>
      match dict_get command merged with
      | Some v => Some v
      | None => first_wildcard command merged
      end
  end.

End Timeouts.

(** ** Python values

  What a task may hand back as [Result.result], and what is stored in
  the JSON columns: JSON data, a nested [MultiResult], or some other
  object. *)
Module PyVal.

Inductive json : Type :=
| JNull
| JBool (b : bool)
| JNum (n : Z)
| JStr (s : string)
| JList (items : list json)
| JDict (fields : list (string * json)).

Inductive pyobj : Type :=
| Json (j : json)    (* dict, list, str, int, float, bool or None *)
| NestedMulti        (* a MultiResult used as a result *)
| Opaque.            (* any other object *)

(** [bool(x)] *)
Definition truthy (j : json) : bool :=
  match j with
  | JNull => false
  | JBool b => b
  | JNum n => negb (n =? 0)
  | JStr s => negb (String.eqb s "")
  | JList l => match l with [] => false | _ => true end
  | JDict l => match l with [] => false | _ => true end
  end.

(** [d.get(k)], with [None] for a missing key. *)
Fixpoint dict_get (k : string) (d : list (string * json)) : json :=
  match d with
  | [] => JNull
  | (k', v) :: d' => if String.eqb k k' then v else dict_get k d'
  end.

End PyVal.

(** ** results.py *)
Module Results.
Import PyVal.

(** A nornir [Result]; [exception] holds [str(e)] of the exception
    object, which is always truthy. *)
Record Result : Type := mkResult {
  result : pyobj;
  failed : bool;
  exception : option string;
  diff : string;
  changed : bool
}.

(** What [nornir.run] stores for one host. *)
Inductive HostResult : Type :=
| Multi (rs : list Result)
| Single (r : Result).

(** [MultiResult.failed]: some member failed. *)
Definition multi_failed (rs : list Result) : bool := existsb failed rs.

(** The canonical envelope. *)
Record Envelope : Type := mkEnvelope {
  e_status : string;
  e_result : pyobj;
  e_failed : bool;
  e_exception : option string;
  e_diff : string;
  e_changed : bool
}.

Definition trace_marker : string := "Traceback".

Definition has_trace_text (r : Result) : bool :=
  match result r with
  | Json (JStr s) => PyStr.contains trace_marker s
  | _ => false
  end.

Definition has_exception (r : Result) : bool :=
  match exception r with Some _ => true | None => false end.

(** The [for r in reversed(host_result)] loop: the scan stops at the
    first sub-step, from the end, that carries an exception or whose
    text holds the marker. *)
Fixpoint scan_candidate (reversed : list Result) : option Result :=
  match reversed with
  | [] => None
  | r :: rest =>
      if has_exception r then Some r
      else if has_trace_text r then Some r
      else scan_candidate rest
  end.

Definition exception_candidate (host_result : list Result) : option Result :=
  scan_candidate (rev host_result).

Definition is_plain_value (v : pyobj) : bool :=
  match v with Json _ => true | _ => false end.

Definition primary_of (host_result : list Result) : option Result :=
  let leaf := last host_result in
  match exception_candidate host_result with
  | Some c => Some c
  | None =>
      match head host_result with
      | Some parent =>
          if is_plain_value (result parent) then Some parent else leaf
      | None => leaf
      end
  end.

(** [lines[-1]] of the stripped, non-empty lines. *)
Definition last_nonempty_line (text : string) : option string :=
  last (List.filter (fun ln => negb (String.eqb ln ""))
                    (List.map PyStr.strip (PyStr.splitlines text))).

Definition str_truthy (o : option string) : bool :=
  match o with
  | Some s => negb (String.eqb s "")
  | None => false
  end.

Definition exception_of (primary : option Result) : option string :=
  let exception :=
    match primary with
    | Some p => exception p
    | None => None
    end in
  if str_truthy exception then exception
  else
    match primary with
    | Some p =>
        match result p with
        | Json (JStr text) =>
            if PyStr.contains trace_marker text then
              match last_nonempty_line text with
              | Some ln => Some ln
              | None => exception
              end
            else exception
        | _ => exception
        end
    | None => exception
    end.

Definition join_diffs (rs : list Result) : string :=
  let diffs := List.filter (fun d => negb (String.eqb d "")) (List.map diff rs) in
  String.concat (String "010" "") diffs.

Definition status_of (failed : bool) : string :=
  if failed then "failed" else "success".

Definition format_host (host_result : HostResult) : Envelope :=
  match host_result with
  | Multi rs =>
      let primary := primary_of rs in
      {| e_status := status_of (multi_failed rs);
         e_result := match primary with
                     | Some p => result p
                     | None => Json JNull
                     end;
         e_failed := multi_failed rs;
         e_exception := exception_of primary;
         e_diff := join_diffs rs;
         e_changed := existsb changed rs |}
  | Single r =>
      {| e_status := status_of (failed r);
         e_result := result r;
         e_failed := failed r;
         e_exception := exception r;
         e_diff := diff r;
         e_changed := changed r |}
  end.

Definition format_results (results : gmap string HostResult)
  : gmap string Envelope :=
  format_host <$> results.

(** The envelope synthesised for a host without a result. *)
Definition missing_envelope : Envelope :=
  {| e_status := "failed";
     e_result := Json JNull;
     e_failed := true;
     e_exception := Some "未返回结果（可能是过滤/热重载导致的空结果）";
     e_diff := "";
     e_changed := false |}.

(** [d.setdefault(k, v)] *)
Definition setdefault {V} (k : string) (v : V) (d : gmap string V)
  : gmap string V :=
  match d !! k with
  | Some _ => d
  | None => <[k := v]> d
  end.

Definition has_all (formatted : gmap string Envelope) (hosts : list string)
  : bool :=
  forallb (fun h => bool_decide (is_Some (formatted !! h))) hosts.

Definition ensure_host_results (formatted : gmap string Envelope)
    (requested_hosts : list string) : gmap string Envelope :=
  match requested_hosts with
  | [] => formatted
  | _ =>
      if negb (bool_decide (formatted = ∅)) && has_all formatted requested_hosts
      then formatted
      else
        fold_left (fun merged host => setdefault host missing_envelope merged)
                  requested_hosts formatted
  end.

End Results.

(** ** Exceptions and the execution monad *)
Module Exec.

(** The exceptions the modelled code raises or receives.  All of them are
    subclasses of [Exception]. *)
Inductive exn : Type :=
| ValueError (msg : string)
| RuntimeError (msg : string)
| OtherError (cls msg : string).

(** [str(e)] *)
Definition exn_str (e : exn) : string :=
  match e with
  | ValueError msg => msg
  | RuntimeError msg => msg
  | OtherError _ msg => msg
  end.

Inductive outcome (A : Type) : Type :=
| Ret (a : A)
| Raise (e : exn).
Arguments Ret {A} a.
Arguments Raise {A} e.

(** A computation over a world [W]: it returns or raises, and the world
    it leaves behind is kept in both cases. *)
Definition M (W A : Type) : Type := W -> outcome A * W.

Definition ret {W A} (a : A) : M W A := fun w => (Ret a, w).

Definition raise {W A} (e : exn) : M W A := fun w => (Raise e, w).

Definition bind {W A B} (c : M W A) (k : A -> M W B) : M W B :=
  fun w =>
    match c w with
    | (Ret a, w') => k a w'
    | (Raise e, w') => (Raise e, w')
    end.

(** [try: body / except Exception as e: handler(e)] *)
Definition try_except {W A} (body : M W A) (handler : exn -> M W A) : M W A :=
  fun w =>
    match body w with
    | (Ret a, w') => (Ret a, w')
    | (Raise e, w') => handler e w'
    end.

(** [try: body / finally: final]; an exception of [final] replaces the
    outcome of [body]. *)
Definition try_finally {W A} (body : M W A) (final : M W unit) : M W A :=
  fun w =>
    match body w with
    | (r, w') =>
        match final w' with
        | (Ret _, w'') => (r, w'')
        | (Raise e, w'') => (Raise e, w'')
        end
    end.

Definition get {W} : M W W := fun w => (Ret w, w).

Definition modify {W} (f : W -> W) : M W unit := fun w => (Ret tt, f w).

(** [for x in xs: body(x)] *)
Fixpoint for_each {W A} (xs : list A) (body : A -> M W unit) : M W unit :=
  match xs with
  | [] => ret tt
  | x :: xs' => bind (body x) (fun _ => for_each xs' body)
  end.

End Exec.

Declare Scope exec_scope.
Delimit Scope exec_scope with exec.
Notation "x <- c ;; k" := (Exec.bind c (fun x => k))
  (at level 100, c at next level, right associativity) : exec_scope.
Notation "c ;;; k" := (Exec.bind c (fun _ => k))
  (at level 100, right associativity) : exec_scope.

(** ** [repr] of a list of strings, as used in error messages *)
Module PyRepr.

Definition dquote : ascii := "034"%char.
Definition squote : ascii := "'"%char.
Definition backslash : ascii := "\"%char.

Fixpoint has_char (c : ascii) (s : string) : bool :=
  match s with
  | EmptyString => false
  | String d s' => Ascii.eqb c d || has_char c s'
  end.

Definition hex_digit (n : nat) : ascii :=
  nth n (list_ascii_of_string "0123456789abcdef") "0"%char.

(** One character of [repr(s)]; bytes above 127 belong to printable text
    and are kept. *)
Definition repr_char (quote c : ascii) : string :=
  let n := nat_of_ascii c in
  if Ascii.eqb c quote || Ascii.eqb c backslash then String backslash (String c "")
  else if (n =? 9)%nat then "\t"
  else if (n =? 10)%nat then "\n"
  else if (n =? 13)%nat then "\r"
  else if ((n <? 32) || (n =? 127))%nat then
    "\x" +:+ String (hex_digit (n / 16)) (String (hex_digit (n mod 16)) "")
  else String c "".

Fixpoint repr_body (quote : ascii) (s : string) : string :=
  match s with
  | EmptyString => ""
  | String c s' => repr_char quote c +:+ repr_body quote s'
  end.

Definition repr_str (s : string) : string :=
  let quote := if has_char squote s && negb (has_char dquote s)
               then dquote else squote in
  String quote (repr_body quote s) +:+ String quote "".

Definition repr_list (l : list string) : string :=
  "[" +:+ String.concat ", " (List.map repr_str l) +:+ "]".

End PyRepr.

(** ** inventory_ops.py and device_ops.py *)
Module DeviceOps.
Import Exec Results.

(** A host of the inventory, as far as the dispatcher reads it. *)
Record HostObj : Type := mkHostObj {
  platform : option string;
  timeouts : Timeouts.Host
}.

(** [nr.inventory.hosts]: host objects under their names. *)
Abbreviation Inventory := (gmap string HostObj).

(** The per-host closures handed to [nornir.run]. *)
Inductive PerHostTask : Type :=
| SendCommandTask (commands : list string) (timeout : option Z)
| SendConfigTask (commands : list string) (dry_run : bool) (timeout : option Z)
| FactsTask
| InterfacesTask
| ConnectivityTask
| RunningConfigTask (command : option string) (timeout : option Z).

(** The framework: [run(task, on_failed=True)] on a filtered inventory
    gives one result per host it ran on, and acts on the fleet. *)
Class Framework : Type := {
  Fleet : Type;
  nornir_run : Inventory -> PerHostTask -> Fleet ->
               outcome (gmap string HostResult) * Fleet
}.

Section Dispatch.
Context {fw : Framework}.

(** The fleet, and the log of the framework runs made so far. *)
Record World : Type := mkWorld {
  fleet : Fleet;
  run_log : list (Inventory * PerHostTask)
}.

Definition missing_hosts (nr : Inventory) (hosts : list string) : list string :=
  List.filter (fun h => match nr !! h with None => true | Some _ => false end)
              hosts.

Definition hosts_not_found (missing : list string) : exn :=
  ValueError ("主机不存在: " +:+ PyRepr.repr_list missing).

Definition validate_hosts_exist (nr : Inventory) (hosts : list string)
  : M World unit :=
  match missing_hosts nr hosts with
  | [] => ret tt
  | missing => raise (hosts_not_found missing)
  end.

(** [nr.filter(filter_func=lambda h: h.name in host_set)] *)
Definition filter_nornir_by_hosts (nr : Inventory) (hosts : list string)
  : Inventory :=
  filter (fun kv => kv.1 ∈ hosts) nr.

(** [filtered_nornir.run(task=..., on_failed=True)] *)
Definition run (filtered : Inventory) (task : PerHostTask)
  : M World (gmap string HostResult) :=
  fun w =>
    let '(r, f) := nornir_run filtered task (fleet w) in
    (r, {| fleet := f; run_log := run_log w ++ [(filtered, task)] |}).

(** The lines shared by the six operations: validation, filtering, the
    run and the collation.  The calls to the logger change no result and
    are left out. *)
Definition run_and_collect (nr : Inventory) (hosts : list string)
    (task : PerHostTask) : M World (gmap string Envelope) :=
  (validate_hosts_exist nr hosts ;;;
   let filtered_nornir := filter_nornir_by_hosts nr hosts in
   result <- run filtered_nornir task ;;
   let formatted := format_results result in
   ret (ensure_host_results formatted hosts))%exec.

Definition run_send_command (nr : Inventory) (hosts : list string)
    (command : string) (timeout : option Z) : M World (gmap string Envelope) :=
  let commands := Commands.split_commands command in
  match commands with
  | [] => raise (ValueError "命令不能为空")
  | _ => run_and_collect nr hosts (SendCommandTask commands timeout)
  end.

Definition run_send_config (nr : Inventory) (hosts : list string)
    (commands : list string) (dry_run : bool) (timeout : option Z)
  : M World (gmap string Envelope) :=
  run_and_collect nr hosts (SendConfigTask commands dry_run timeout).

Definition run_get_facts (nr : Inventory) (hosts : list string)
  : M World (gmap string Envelope) :=
  run_and_collect nr hosts FactsTask.

Definition run_get_interfaces (nr : Inventory) (hosts : list string)
  : M World (gmap string Envelope) :=
  run_and_collect nr hosts InterfacesTask.

Definition run_test_connectivity (nr : Inventory) (hosts : list string)
  : M World (gmap string Envelope) :=
  run_and_collect nr hosts ConnectivityTask.

Definition run_get_running_config (nr : Inventory) (hosts : list string)
    (command : option string) (timeout : option Z)
  : M World (gmap string Envelope) :=
  run_and_collect nr hosts (RunningConfigTask command timeout).

(** A call of one of the six operations. *)
Inductive Call : Type :=
| CallSendCommand (command : string) (timeout : option Z)
| CallSendConfig (commands : list string) (dry_run : bool) (timeout : option Z)
| CallGetFacts
| CallGetInterfaces
| CallTestConnectivity
| CallGetRunningConfig (command : option string) (timeout : option Z).

Definition dispatch (nr : Inventory) (hosts : list string) (call : Call)
  : M World (gmap string Envelope) :=
  match call with
  | CallSendCommand command timeout => run_send_command nr hosts command timeout
  | CallSendConfig commands dry_run timeout =>
      run_send_config nr hosts commands dry_run timeout
  | CallGetFacts => run_get_facts nr hosts
  | CallGetInterfaces => run_get_interfaces nr hosts
  | CallTestConnectivity => run_test_connectivity nr hosts
  | CallGetRunningConfig command timeout =>
      run_get_running_config nr hosts command timeout
  end.

End Dispatch.

(** *** The per-host task of [run_send_command] *)

(** [NornirSubTaskError]: [e.result] when the attribute is there, and
    [str(e)]. *)
Record SubTaskError : Type := mkSubTaskError {
  err_result : option HostResult;
  err_str : string
}.

(** [task.run(task=send_command, ...)] returns the result of the
    sub-task, or raises [NornirSubTaskError] when the sub-task failed. *)
Inductive SubOutcome : Type :=
| SubOk (r : HostResult)
| SubFailed (e : SubTaskError).

(** The session of one host with its device. *)
Class Transport : Type := {
  Session : Type;
  send_command : string -> option Z -> Session -> SubOutcome * Session;
  reset_and_close_connections : Session -> Session;
  close_all_connections : Session -> Session
}.

(** An entry of the ["commands"] list. *)
Record Item : Type := mkItem {
  command : string;
  item_failed : bool;
  item_result : option PyVal.pyobj;    (* the "result" key, when present *)
  item_exception : option string       (* the "exception" key, when present *)
}.

(** [Result(host, result={"commands": items}, failed=..., exception=...)] *)
Record SequenceResult : Type := mkSequenceResult {
  commands : list Item;
  seq_failed : bool;
  seq_exception : option exn
}.

(** What the per-host task returns: the result of its only sub-task, or
    the result built from a command sequence. *)
Inductive TaskReturn : Type :=
| SubTaskResult (r : HostResult)
| Sequence (r : SequenceResult).

Section PerHostTask.
Context {tr : Transport}.

(** [r[-1].result if isinstance(r, MultiResult) and len(r) else None] *)
Definition last_result (r : HostResult) : PyVal.pyobj :=
  match r with
  | Multi rs =>
      match last rs with
      | Some leaf => result leaf
      | None => PyVal.Json PyVal.JNull
      end
  | Single _ => PyVal.Json PyVal.JNull
  end.

(** The text kept for a failed command: the exception of the failed
    result when it has one, [str(e)] otherwise. *)
Definition error_text (e : SubTaskError) : string :=
  let err :=
    match err_result e with
    | Some (Multi rs) =>
        match last rs with
        | Some leaf => exception leaf
        | None => None
        end
    | Some (Single r) => exception r
    | None => None
    end in
  if str_truthy err then default "" err else err_str e.

Definition effective_timeout (host : HostObj) (timeout : option Z)
    (cmd : string) : option Z :=
  match timeout with
  | Some t => Some t
  | None => Timeouts.resolve_timeout_ops_for_command (timeouts host) cmd
  end.

(** The [for cmd in commands] loop, with its three variables. *)
Fixpoint run_commands (host : HostObj) (timeout : option Z)
    (cmds : list string) (items : list Item) (failed_count : nat)
    (s : Session) : list Item * nat * Session :=
  match cmds with
  | [] => (items, failed_count, s)
  | cmd :: rest =>
      match send_command cmd (effective_timeout host timeout cmd) s with
      | (SubOk r, s') =>
          let out := last_result r in
          run_commands host timeout rest
            (items ++ [mkItem cmd false (Some out) None]) failed_count s'
      | (SubFailed e, s') =>
          run_commands host timeout rest
            (items ++ [mkItem cmd true None (Some (error_text e))])
            (S failed_count) s'
      end
  end.

Definition failure_message (failed_count : nat) : string :=
  pretty failed_count +:+ " 个命令执行失败".

Definition per_host_task (host : HostObj) (commands : list string)
    (timeout : option Z) (s : Session) : (SubTaskError + TaskReturn) * Session :=
  let s := reset_and_close_connections s in
  let '(r, s) :=
    match commands with
    | [cmd] =>
        match send_command cmd (effective_timeout host timeout cmd) s with
        | (SubOk r, s') => (inr (SubTaskResult r), s')
        | (SubFailed e, s') => (inl e, s')
        end
    | _ =>
        let '(items, failed_count, s') :=
          run_commands host timeout commands [] 0%nat s in
        (inr (Sequence
                {| commands := items;
                   seq_failed := (0 <? failed_count)%nat;
                   seq_exception :=
                     if (failed_count =? 0)%nat then None
                     else Some (RuntimeError (failure_message failed_count)) |}),
         s')
    end in
  (r, close_all_connections s).

End PerHostTask.

End DeviceOps.

(** ** config_backup_scheduler.py *)
Module Scheduler.
Import Exec PyVal.

(** A [datetime] is the number of microseconds since the epoch. *)
Definition minutes (m : Z) : Z := m * 60000000.

(** A row of [config_backup_schedules]. *)
Record Schedule : Type := mkSchedule {
  id : Z;
  name : string;
  enabled : bool;
  devices : list string;
  interval_minutes : Z;
  command : option string;
  timeout : option Z;
  last_run_at : option Z;
  next_run_at : option Z;
  last_status : option string;
  last_error : option string;
  created_by : option string
}.

(** A row of [config_backup_runs]. *)
Record Run : Type := mkRun {
  run_schedule_id : Z;
  run_status : string;
  run_results : list (string * json);
  run_error_message : option string;
  run_completed_at : option Z
}.

(** The statements sent to the database. *)
Inductive DbOp : Type :=
| TryAdvisoryLock (key : Z)
| AdvisoryUnlock (key : Z)
| SelectDue
| GetSchedule (schedule_id : Z)
| Commit.

(** What the scheduler did, in order. *)
Inductive Event : Type :=
| Db (op : DbOp)
| Snapshot (schedule_id : Z).

(** The collaborators.  [Ext] is everything outside the two tables of
    the scheduler: the clock, the other database sessions, the devices
    and the snapshot table.  A statement may fail ([db_step] gives the
    exception), and [lock_free] tells whether no other session holds
    the advisory lock. *)
Class Env : Type := {
  Ext : Type;
  utc_now : Ext -> Z;
  lock_free : Ext -> bool;
  db_step : DbOp -> Ext -> option exn * Ext;
  save_running_config_snapshots :
    list string -> option string -> option Z -> string -> Ext ->
    outcome (list (string * json)) * Ext
}.

Section WithEnv.
Context {env : Env}.

Record World : Type := mkWorld {
  schedules : gmap Z Schedule;
  runs : list Run;
  lock_count : nat;          (* how often this session holds the lock *)
  ext : Ext;
  events : list Event
}.

Definition set_schedules (f : gmap Z Schedule -> gmap Z Schedule) (w : World)
  : World :=
  mkWorld (f (schedules w)) (runs w) (lock_count w) (ext w) (events w).

Definition set_runs (f : list Run -> list Run) (w : World) : World :=
  mkWorld (schedules w) (f (runs w)) (lock_count w) (ext w) (events w).

Definition set_lock_count (n : nat) (w : World) : World :=
  mkWorld (schedules w) (runs w) n (ext w) (events w).

Definition set_ext (x : Ext) (w : World) : World :=
  mkWorld (schedules w) (runs w) (lock_count w) x (events w).

Definition add_event (e : Event) (w : World) : World :=
  mkWorld (schedules w) (runs w) (lock_count w) (ext w) (events w ++ [e]).

(** [datetime.now(timezone.utc)] *)
Definition now : M World Z := fun w => (Ret (utc_now (ext w)), w).

(** Sending a statement: it is recorded, and it fails when the database
    says so. *)
Definition db_exec (op : DbOp) : M World unit :=
  fun w =>
    let w := add_event (Db op) w in
    match db_step op (ext w) with
    | (Some e, x) => (Raise e, set_ext x w)
    | (None, x) => (Ret tt, set_ext x w)
    end.

Definition lock_key : Z := 86402021.

(** [SELECT pg_try_advisory_lock(86402021)] *)
Definition try_advisory_lock : M World bool :=
  (db_exec (TryAdvisoryLock lock_key) ;;;
   fun w =>
     if lock_free (ext w)
     then (Ret true, set_lock_count (S (lock_count w)) w)
     else (Ret false, w))%exec.

(** [SELECT pg_advisory_unlock(86402021)] *)
Definition advisory_unlock : M World unit :=
  (db_exec (AdvisoryUnlock lock_key) ;;;
   modify (fun w => set_lock_count (pred (lock_count w)) w))%exec.

Definition commit : M World unit := db_exec Commit.

(** [session.get(ConfigBackupSchedule, schedule_id)] *)
Definition get_schedule (schedule_id : Z) : M World (option Schedule) :=
  (db_exec (GetSchedule schedule_id) ;;;
   fun w => (Ret (schedules w !! schedule_id), w))%exec.

Definition is_due (t : Z) (s : Schedule) : bool :=
  enabled s &&
  match next_run_at s with
  | Some at_ => at_ <=? t
  | None => false
  end.

(** [ORDER BY next_run_at ASC, id ASC] *)
Definition due_before (a b : Schedule) : Prop :=
  let ka := default 0 (next_run_at a) in
  let kb := default 0 (next_run_at b) in
  ka < kb \/ (ka = kb /\ id a <= id b).

#[local] Instance due_before_dec a b : Decision (due_before a b).
Proof. unfold due_before. apply _. Defined.

(** The query for the due schedules, at most ten of them. *)
Definition select_due (t : Z) : M World (list Schedule) :=
  (db_exec SelectDue ;;;
   fun w =>
     let rows := List.filter (is_due t) (snd <$> map_to_list (schedules w)) in
     (Ret (take 10 (merge_sort due_before rows)), w))%exec.

Definition update_schedule (schedule_id : Z) (f : Schedule -> Schedule)
  : M World unit :=
  modify (set_schedules (fun m => alter f schedule_id m)).

(** [session.add(run)]; the position of the row stands for the object. *)
Definition add_run (r : Run) : M World nat :=
  fun w => (Ret (List.length (runs w)), set_runs (fun l => (l ++ [r])%list) w).

Definition update_run (idx : nat) (f : Run -> Run) : M World unit :=
  modify (set_runs (fun l => alter f idx l)).

(** The snapshot capability, called for a schedule. *)
Definition snapshots (schedule_id : Z) (device_names : list string)
    (command : option string) (timeout : option Z) (created_by : string)
  : M World (list (string * json)) :=
  fun w =>
    let w := add_event (Snapshot schedule_id) w in
    let '(r, x) :=
      save_running_config_snapshots device_names command timeout created_by
                                    (ext w) in
    (r, set_ext x w).

(** [isinstance(r, dict) and r.get("failed") is False] *)
Definition reports_ok (r : json) : bool :=
  match r with
  | JDict d =>
      match dict_get "failed" d with
      | JBool false => true
      | _ => false
      end
  | _ => false
  end.

Definition count_failed (results : list (string * json)) : nat :=
  List.length (List.filter (fun kv => negb (reports_ok (snd kv))) results).

Definition or_default (o : option string) (d : string) : string :=
  match o with
  | Some s => if String.eqb s "" then d else s
  | None => d
  end.

Definition finish_run (status : string) (results : list (string * json))
    (error : option string) (t : Z) (r : Run) : Run :=
  mkRun (run_schedule_id r) status results error (Some t).

(** The four assignments to the schedule after a run. *)
Definition reschedule (t : Z) (status : string) (error : option string)
    (s : Schedule) : Schedule :=
  mkSchedule (id s) (name s) (enabled s) (devices s) (interval_minutes s)
             (command s) (timeout s)
             (Some t) (Some (t + minutes (interval_minutes s)))
             (Some status) error (created_by s).

Definition _run_one (schedule_id : Z) : M World unit :=
  (schedule <- get_schedule schedule_id ;;
   match schedule with
   | None => ret tt
   | Some schedule =>
       if negb (enabled schedule) then ret tt
       else
         t <- now ;;
         run <- add_run (mkRun (id schedule) "running" [] None None) ;;
         commit ;;;
         try_except
           (results <- snapshots (id schedule) (devices schedule)
                         (command schedule) (timeout schedule)
                         (or_default (created_by schedule) "scheduler") ;;
            let failed := count_failed results in
            let status := if (failed =? 0)%nat then "completed" else "failed" in
            update_run run (fun r => mkRun (run_schedule_id r) status results
                                           (run_error_message r) (Some t)) ;;;
            update_schedule (id schedule) (reschedule t status None) ;;;
            commit)
           (fun e =>
              update_run run (fun r => mkRun (run_schedule_id r) "failed"
                                             (run_results r)
                                             (Some (exn_str e)) (Some t)) ;;;
              update_schedule (id schedule)
                              (reschedule t "failed" (Some (exn_str e))) ;;;
              commit)
   end)%exec.

Definition _tick : M World unit :=
  (t <- now ;;
   locked <- try_advisory_lock ;;
   if negb locked then ret tt
   else
     try_finally
       (due <- select_due t ;;
        match due with
        | [] => ret tt
        | _ => for_each due (fun schedule => _run_one (id schedule))
        end)
       advisory_unlock)%exec.

End WithEnv.

End Scheduler.

(** ** task_runner.py *)
Module TaskRunner.
Import Exec PyVal.

(** [repr] of JSON data, which is [str] of it except on strings. *)
Fixpoint json_repr (j : json) : string :=
  match j with
  | JNull => "None"
  | JBool true => "True"
  | JBool false => "False"
  | JNum n => pretty n
  | JStr s => PyRepr.repr_str s
  | JList l => "[" +:+ String.concat ", " (List.map json_repr l) +:+ "]"
  | JDict d =>
      "{" +:+
      String.concat ", "
        (List.map (fun kv => match kv with
                             | (k, v) => PyRepr.repr_str k +:+ ": " +:+ json_repr v
                             end) d)
      +:+ "}"
  end.

(** [str(x)] *)
Definition json_str (j : json) : string :=
  match j with
  | JStr s => s
  | _ => json_repr j
  end.

(** A row of [tasks]. *)
Record Task : Type := mkTask {
  id : Z;
  task_type : option string;
  status : option string;
  targets : list string;
  command : option string;
  config : option string;
  parameters : option (list (string * json));
  results : option (list (string * json));
  error_message : option string;
  started_at : option Z;
  completed_at : option Z;
  created_by : option string
}.

(** A row of [task_logs]. *)
Record TaskLog : Type := mkTaskLog {
  log_task_id : Z;
  log_device_name : string;
  log_status : string;
  log_result : list (string * json);
  log_raw_output : option string;
  log_error_message : option string
}.

Inductive DbOp : Type :=
| GetTask (task_id : Z)
| DeleteTaskLogs (task_id : Z)
| Commit.

(** The calls a job makes to the fleet. *)
Inductive Dispatch : Type :=
| SendCommand (hosts : list string) (command : string) (timeout : json)
| SendConfig (hosts : list string) (commands : json) (dry_run : bool)
             (timeout : json)
| TestConnectivity (hosts : list string)
| RunScrapliTask (hosts : list string) (task_name : string)
                 (params : list (string * json))
| SaveRunningConfigSnapshots (device_names : list string) (command timeout : json)
                             (created_by : option string).

Inductive Event : Type :=
| Db (op : DbOp)
| Fleet (task_id : Z) (call : Dispatch).

(** The collaborators: the clock, the database and the manager, all
    acting on [Ext], the world outside the two tables of the runner. *)
Class Env : Type := {
  Ext : Type;
  utc_now : Ext -> Z;
  db_step : DbOp -> Ext -> option exn * Ext;
  manager : Dispatch -> Ext -> outcome (list (string * json)) * Ext
}.

Section WithEnv.
Context {env : Env}.

Record World : Type := mkWorld {
  tasks : gmap Z Task;
  task_logs : list TaskLog;
  ext : Ext;
  events : list Event
}.

Definition set_tasks (f : gmap Z Task -> gmap Z Task) (w : World) : World :=
  mkWorld (f (tasks w)) (task_logs w) (ext w) (events w).

Definition set_task_logs (f : list TaskLog -> list TaskLog) (w : World)
  : World :=
  mkWorld (tasks w) (f (task_logs w)) (ext w) (events w).

Definition set_ext (x : Ext) (w : World) : World :=
  mkWorld (tasks w) (task_logs w) x (events w).

Definition add_event (e : Event) (w : World) : World :=
  mkWorld (tasks w) (task_logs w) (ext w) (events w ++ [e]).

(** [_utc_now()] *)
Definition _utc_now : M World Z := fun w => (Ret (utc_now (ext w)), w).

(** [_truncate_text]; the length and the slice count characters, not
    bytes. *)
Definition _truncate_text (value : string) (limit : nat) : string :=
  if (PyStr.len value <=? limit)%nat then value
  else PyStr.take limit value +:+ String "010" "...<truncated>...".

Definition db_exec (op : DbOp) : M World unit :=
  fun w =>
    let w := add_event (Db op) w in
    match db_step op (ext w) with
    | (Some e, x) => (Raise e, set_ext x w)
    | (None, x) => (Ret tt, set_ext x w)
    end.

Definition commit : M World unit := db_exec Commit.

(** [session.get(Task, task_id)] *)
Definition get_task (task_id : Z) : M World (option Task) :=
  (db_exec (GetTask task_id) ;;;
   fun w => (Ret (tasks w !! task_id), w))%exec.

(** [delete(TaskLog).where(TaskLog.task_id == task.id)] *)
Definition delete_task_logs (task_id : Z) : M World unit :=
  (db_exec (DeleteTaskLogs task_id) ;;;
   modify (set_task_logs
             (List.filter (fun l => negb (log_task_id l =? task_id)))))%exec.

Definition update_task (task_id : Z) (f : Task -> Task) : M World unit :=
  modify (set_tasks (fun m => alter f task_id m)).

(** A call of the manager on behalf of a job. *)
Definition call_manager (task_id : Z) (call : Dispatch)
  : M World (list (string * json)) :=
  fun w =>
    let w := add_event (Fleet task_id call) w in
    let '(r, x) := manager call (ext w) in
    (r, set_ext x w).

Definition params_get (k : string) (params : list (string * json)) : json :=
  dict_get k params.

Definition _run_payload (task : Task) : M World (list (string * json)) :=
  let kind := PyStr.lower (default "" (task_type task)) in
  let hosts := targets task in
  let params := default [] (parameters task) in
  if String.eqb kind "command" then
    let timeout := params_get "timeout" params in
    call_manager (id task)
      (SendCommand hosts (default "" (command task)) timeout)
  else if String.eqb kind "config" then
    let timeout := params_get "timeout" params in
    let dry_run := truthy (params_get "dry_run" params) in
    let configs := params_get "configs" params in
    if truthy configs then
      call_manager (id task) (SendConfig hosts configs dry_run timeout)
    else
      let cfg := PyStr.strip (default "" (config task)) in
      if String.eqb cfg "" then raise (ValueError "config 不能为空")
      else
        let configs :=
          List.filter (fun ln => negb (String.eqb (PyStr.strip ln) ""))
                      (PyStr.splitlines cfg) in
        call_manager (id task)
          (SendConfig hosts (JList (List.map JStr configs)) dry_run timeout)
  else if String.eqb kind "connectivity" then
    call_manager (id task) (TestConnectivity hosts)
  else if String.eqb kind "scrapli" then
    match params_get "task" params with
    | JStr task_name =>
        if String.eqb (PyStr.strip task_name) "" then
          raise (ValueError "scrapli 任务需要 parameters.task")
        else
          let inner := params_get "params" params in
          let inner_params := if truthy inner then inner else JDict [] in
          match inner_params with
          | JDict d => call_manager (id task) (RunScrapliTask hosts task_name d)
          | _ => raise (ValueError "scrapli 任务需要 parameters.params(dict)")
          end
    | _ => raise (ValueError "scrapli 任务需要 parameters.task")
    end
  else if String.eqb kind "running_config"
          || String.eqb kind "running-config"
          || String.eqb kind "running_config_snapshot" then
    call_manager (id task)
      (SaveRunningConfigSnapshots hosts (params_get "command" params)
                                  (params_get "timeout" params)
                                  (created_by task))
  else
    raise (ValueError ("不支持的 task_type: " +:+
                       default "None" (task_type task))).

(** One [TaskLog] row of [_persist_task_logs]. *)
Definition task_log_of (task_id : Z) (device_name : string)
    (r : list (string * json)) : TaskLog :=
  let failed := truthy (dict_get "failed" r) in
  let status := if failed then "failed" else "success" in
  let exception := dict_get "exception" r in
  let raw_text :=
    match dict_get "result" r with
    | JStr raw => Some (_truncate_text raw 20000)
    | _ => None
    end in
  {| log_task_id := task_id;
     log_device_name := device_name;
     log_status := status;
     log_result :=
       List.filter (fun kv => negb (String.eqb (fst kv) "result")) r;
     log_raw_output := raw_text;
     log_error_message :=
       if truthy exception then Some (json_str exception) else None |}.

Definition _persist_task_logs (task_id : Z) (results : list (string * json))
  : M World unit :=
  for_each results
    (fun kv =>
       match snd kv with
       | JDict r =>
           modify (set_task_logs
                     (fun l => (l ++ [task_log_of task_id (fst kv) r])%list))
       | _ => ret tt
       end).

(** [any(bool((r or {}).get("failed")) for r in results.values()
        if isinstance(r, dict))] *)
Definition any_failed (results : list (string * json)) : bool :=
  existsb (fun kv => match snd kv with
                     | JDict r => truthy (dict_get "failed" r)
                     | _ => false
                     end) results.

Definition start_task (t : Z) (task : Task) : Task :=
  mkTask (id task) (task_type task) (Some "running") (targets task)
         (command task) (config task) (parameters task)
         (Some []) None (Some t) None (created_by task).

Definition set_results (results : list (string * json)) (task : Task) : Task :=
  mkTask (id task) (task_type task) (status task) (targets task)
         (command task) (config task) (parameters task)
         (Some results) (error_message task) (started_at task)
         (completed_at task) (created_by task).

Definition finish_task (status : string) (t : Z) (task : Task) : Task :=
  mkTask (id task) (task_type task) (Some status) (targets task)
         (command task) (config task) (parameters task)
         (results task) (error_message task) (started_at task)
         (Some t) (created_by task).

Definition fail_task (error : string) (t : Z) (task : Task) : Task :=
  mkTask (id task) (task_type task) (Some "failed") (targets task)
         (command task) (config task) (parameters task)
         (results task) (Some error) (started_at task)
         (Some t) (created_by task).

Definition is_pending (task : Task) : bool :=
  match status task with
  | Some s => String.eqb s "pending"
  | None => false
  end.

Definition _execute_task (task_id : Z) : M World unit :=
  (task <- get_task task_id ;;
   match task with
   | None => ret tt
   | Some task =>
       if negb (is_pending task) then ret tt
       else
         delete_task_logs (id task) ;;;
         t <- _utc_now ;;
         update_task (id task) (start_task t) ;;;
         commit ;;;
         try_except
           (results <- _run_payload task ;;
            update_task (id task) (set_results results) ;;;
            let failed := any_failed results in
            t <- _utc_now ;;
            update_task (id task)
              (finish_task (if failed then "failed" else "completed") t) ;;;
            commit ;;;
            _persist_task_logs (id task) results ;;;
            commit)
           (fun e =>
              t <- _utc_now ;;
              update_task (id task) (fail_task (exn_str e) t) ;;;
              commit ;;;
              raise e)
   end)%exec.

End WithEnv.

End TaskRunner.

(** ** Snapshots of the running configuration

  [save_running_config_snapshots] of [config_snapshot_service.py], the
  capability that the scheduler and the job runner call.  The device table
  is read, the fleet is asked once, and the new rows reach the snapshot
  table at the commit. *)
Module SnapshotService.
Import Exec PyVal.

(** A dictionary with text keys, in insertion order. *)
Abbreviation dict V := (list (string * V)).

(** [d[k] = v] *)
Fixpoint setitem {V} (k : string) (v : V) (d : dict V) : dict V :=
  match d with
  | [] => [(k, v)]
  | (k', v') :: d' =>
      if String.eqb k k' then (k, v) :: d' else (k', v') :: setitem k v d'
  end.

(** [d.get(k)] *)
Fixpoint getitem {V} (k : string) (d : dict V) : option V :=
  match d with
  | [] => None
  | (k', v) :: d' => if String.eqb k k' then Some v else getitem k d'
  end.

(** A new row of [config_snapshots]; its id and [collected_at] are given
    by the database. *)
Record ConfigSnapshot : Type := mkConfigSnapshot {
  device_id : Z;
  config_type : string;
  content : string;
  content_sha256 : string;
  created_by : option string
}.

Inductive DbOp : Type :=
| SelectDevices (device_names : list string)
| Commit.

Inductive Event : Type :=
| Db (op : DbOp)
| GetRunningConfig (hosts : list string) (command : option string)
                   (timeout : option Z).

(** The collaborators: the hash function, the database session, whose
    statements may fail, the manager of the fleet, and what the database
    gave the row at a position of the snapshot table: its id and the ISO
    text of its [collected_at], if it has one. *)
Class Env : Type := {
  Ext : Type;
  sha256_hexdigest : string -> string;
  db_step : DbOp -> Ext -> option exn * Ext;
  get_running_config :
    list string -> option string -> option Z -> Ext ->
    outcome (dict json) * Ext;
  stored_as : nat -> Ext -> Z * option string
}.

Section WithEnv.
Context {env : Env}.

(** The device table as far as it is read (id and name), the snapshot
    table, the rows added to the session and not yet committed, and the
    outside. *)
Record World : Type := mkWorld {
  devices : list (Z * string);
  config_snapshots : list ConfigSnapshot;
  session_new : list ConfigSnapshot;
  ext : Ext;
  events : list Event
}.

Definition set_ext (x : Ext) (w : World) : World :=
  mkWorld (devices w) (config_snapshots w) (session_new w) x (events w).

Definition add_event (e : Event) (w : World) : World :=
  mkWorld (devices w) (config_snapshots w) (session_new w) (ext w)
          (events w ++ [e]).

Definition db_exec (op : DbOp) : M World unit :=
  fun w =>
    let w := add_event (Db op) w in
    match db_step op (ext w) with
    | (Some e, x) => (Raise e, set_ext x w)
    | (None, x) => (Ret tt, set_ext x w)
    end.

(** [select(Device.id, Device.name).where(Device.name.in_(device_names))] *)
Definition select_devices (device_names : list string)
  : M World (list (Z * string)) :=
  (db_exec (SelectDevices device_names) ;;;
   fun w =>
     (Ret (List.filter (fun row => existsb (String.eqb (snd row)) device_names)
                       (devices w)), w))%exec.

(** [db.add_all(snapshots)]; the answer is the position that the first of
    them gets in the table. *)
Definition add_all (snapshots : list ConfigSnapshot) : M World nat :=
  fun w =>
    (Ret (List.length (config_snapshots w) + List.length (session_new w))%nat,
     mkWorld (devices w) (config_snapshots w) (session_new w ++ snapshots)
             (ext w) (events w)).

(** [db.commit()]: when the statement works, the rows of the session are
    in the table. *)
Definition commit : M World unit :=
  (db_exec Commit ;;;
   modify (fun w => mkWorld (devices w) (config_snapshots w ++ session_new w)
                            [] (ext w) (events w)))%exec.

(** [nornir_manager.get_running_config(...)] *)
Definition fetch (hosts : list string) (command : option string)
    (timeout : option Z) : M World (dict json) :=
  fun w =>
    let w := add_event (GetRunningConfig hosts command timeout) w in
    let '(r, x) := get_running_config hosts command timeout (ext w) in
    (r, set_ext x w).

(** [{name: device_id for device_id, name in rows}] *)
Definition by_name_of (rows : list (Z * string)) : gmap string Z :=
  foldl (fun m row => <[snd row := fst row]> m) ∅ rows.

(** [{device_id: name for device_id, name in rows}] *)
Definition by_id_of (rows : list (Z * string)) : gmap Z string :=
  foldl (fun m row => <[fst row := snd row]> m) ∅ rows.

Definition known (by_name : gmap string Z) (n : string) : bool :=
  match by_name !! n with Some _ => true | None => false end.

Definition failed_entry (exception : json) : dict json :=
  [("status", JStr "failed"); ("failed", JBool true); ("exception", exception)].

Definition type_name (j : json) : string :=
  match j with
  | JNull => "NoneType"
  | JBool _ => "bool"
  | JNum _ => "int"
  | JStr _ => "str"
  | JList _ => "list"
  | JDict _ => "dict"
  end.

(** [r = fetch_results.get(name) or {}], and what [r.get] needs of it. *)
Definition envelope_of (v : json) : exn + dict json :=
  if truthy v then
    match v with
    | JDict d => inr d
    | _ => inl (OtherError "AttributeError"
                  ("'" +:+ type_name v +:+ "' object has no attribute 'get'"))
    end
  else inr [].

(** [x or d] *)
Definition or_else (x d : json) : json := if truthy x then x else d.

(** The loop over the names of the devices that exist. *)
Fixpoint collect (by_name : gmap string Z) (author : option string)
    (fetch_results : dict json) (names : list string)
    (results : dict (dict json)) (snapshots : list ConfigSnapshot)
  : exn + (dict (dict json) * list ConfigSnapshot) :=
  match names with
  | [] => inr (results, snapshots)
  | name :: rest =>
      match envelope_of (dict_get name fetch_results) with
      | inl e => inl e
      | inr r =>
          if truthy (dict_get "failed" r) then
            collect by_name author fetch_results rest
              (setitem name
                 (failed_entry (or_else (dict_get "exception" r)
                                        (JStr "采集失败")))
                 results)
              snapshots
          else
            let empty_output :=
              collect by_name author fetch_results rest
                (setitem name
                   (failed_entry (JStr "未获取到 running-config（空输出）"))
                   results)
                snapshots in
            match dict_get "result" r with
            | JStr text =>
                if String.eqb (PyStr.strip text) "" then empty_output
                else
                  let sha256 := sha256_hexdigest text in
                  match by_name !! name with
                  | None =>
                      inl (OtherError "KeyError" (PyRepr.repr_str name))
                  | Some id =>
                      collect by_name author fetch_results rest
                        (setitem name
                           [("status", JStr "success");
                            ("failed", JBool false);
                            ("bytes", JNum (Z.of_nat (String.length text)));
                            ("sha256", JStr sha256)]
                           results)
                        (snapshots ++
                         [mkConfigSnapshot id "running" text sha256 author])
                  end
            | _ => empty_output
            end
      end
  end.

Definition is_success (entry : dict json) : bool :=
  match dict_get "status" entry with
  | JStr s => String.eqb s "success"
  | _ => false
  end.

(** The loop after the commit: the id and the time of a stored row are
    written into the entry of its device. *)
Fixpoint backfill (by_id : gmap Z string) (x : Ext) (position : nat)
    (snapshots : list ConfigSnapshot) (results : dict (dict json))
  : dict (dict json) :=
  match snapshots with
  | [] => results
  | snap :: rest =>
      let results :=
        match by_id !! device_id snap with
        | Some device_name =>
            if String.eqb device_name "" then results
            else
              match getitem device_name results with
              | Some entry =>
                  match entry with
                  | [] => results
                  | _ =>
                      if is_success entry then
                        let '(id, collected_at) := stored_as position x in
                        setitem device_name
                          (setitem "collected_at"
                             (match collected_at with
                              | Some iso => JStr iso
                              | None => JNull
                              end)
                             (setitem "snapshot_id" (JNum id) entry))
                          results
                      else results
                  end
              | None => results
              end
        | None => results
        end in
      backfill by_id x (S position) rest results
  end.

Definition as_json (results : dict (dict json)) : dict json :=
  List.map (fun kv => (fst kv, JDict (snd kv))) results.

Definition save_running_config_snapshots (device_names : list string)
    (command : option string) (timeout : option Z) (author : option string)
  : M World (dict json) :=
  match device_names with
  | [] => raise (ValueError "devices 不能为空")
  | _ =>
      (rows <- select_devices device_names ;;
       let by_name := by_name_of rows in
       let by_id := by_id_of rows in
       let missing :=
         List.filter (fun n => negb (known by_name n)) device_names in
       let results :=
         foldl (fun results n =>
                  setitem n (failed_entry (JStr "设备不存在（DB）")) results)
               [] missing in
       let existing_names := List.filter (known by_name) device_names in
       match existing_names with
       | [] => ret (as_json results)
       | _ =>
           fetch_results <- fetch existing_names command timeout ;;
           match collect by_name author fetch_results existing_names
                         results [] with
           | inl e => raise e
           | inr (results, snapshots) =>
               match snapshots with
               | [] => ret (as_json results)
               | _ =>
                   position <- add_all snapshots ;;
                   commit ;;;
                   fun w =>
                     (Ret (as_json (backfill by_id (ext w) position
                                             snapshots results)), w)
               end
           end
       end)%exec
  end.

End WithEnv.

End SnapshotService.

(** ** The worker of the job runner

  [TaskRunner._worker] takes the ids of the submitted jobs from the queue
  one after the other; an exception of an execution is logged, and the
  loop goes on with the next id.  [_worker queue] is the loop for the ids
  that it takes, in their order. *)
Module Worker.
Import Exec TaskRunner.

Section WithEnv.
Context {env : Env}.

(** One round of the loop:
    [try: await self._execute_task(task_id)
     except Exception as e: logger.error(...)] *)
Definition serve (task_id : Z) : M World unit :=
  try_except (_execute_task task_id) (fun _ => ret tt).

Definition _worker (queue : list Z) : M World unit := for_each queue serve.

End WithEnv.

End Worker.

(** ** The job endpoints

  [cancel_task] of [api/tasks.py], on the job table of the runner.  An
  endpoint answers, or refuses with an [HTTPException]; an exception of
  the database is raised as it is. *)
Module TasksApi.
Import Exec PyVal TaskRunner.

Inductive Response (A : Type) : Type :=
| Ok (body : A)
| HTTPException (status_code : Z) (detail : string).
Arguments Ok {A} body.
Arguments HTTPException {A} status_code detail.

Section WithEnv.
Context {env : Env}.

(** The three assignments of [cancel_task]. *)
Definition cancel (t : Z) (task : Task) : Task :=
  mkTask (id task) (task_type task) (Some "canceled") (targets task)
         (command task) (config task) (parameters task) (results task)
         (Some "canceled") (started_at task) (Some t) (created_by task).

Definition cancel_task (task_id : Z) : M World (Response (list (string * json))) :=
  (task <- get_task task_id ;;
   match task with
   | None => ret (HTTPException 404 "任务不存在")
   | Some task =>
       if negb (is_pending task) then
         ret (HTTPException 400
                "仅 pending 任务可取消（running 无法强制中断）")
       else
         t <- _utc_now ;;
         update_task (id task) (cancel t) ;;;
         commit ;;;
         ret (Ok [("message", JStr "已取消")])
   end)%exec.

End WithEnv.

End TasksApi.

(** ** The schedule endpoints

  [update_schedule] and [run_schedule_now] of [api/configs.py], on the
  schedule table of the scheduler. *)
Module SchedulesApi.
Import Exec PyVal Scheduler TasksApi.

(** [BackupScheduleUpdate] *)
Record BackupScheduleUpdate : Type := mkBackupScheduleUpdate {
  new_name : option string;
  new_devices : option (list string);
  new_interval_minutes : option Z;
  new_enabled : option bool;
  run_immediately : option bool;
  new_command : option string;
  new_timeout : option Z
}.

(** [if new is not None: old = new] *)
Definition assigned {A} (new : option A) (old : A) : A :=
  match new with
  | Some v => v
  | None => old
  end.

(** The assignments of [update_schedule] to the loaded row, at the time
    [t]. *)
Definition updated (payload : BackupScheduleUpdate) (t : Z) (s : Schedule)
  : Schedule :=
  let name := assigned (new_name payload) (name s) in
  let devices := assigned (new_devices payload) (devices s) in
  let interval_minutes :=
    assigned (new_interval_minutes payload) (interval_minutes s) in
  let command :=
    match new_command payload with Some c => Some c | None => command s end in
  let timeout :=
    match new_timeout payload with Some n => Some n | None => timeout s end in
  let enabled := assigned (new_enabled payload) (enabled s) in
  let next_run_at :=
    if enabled then
      match run_immediately payload with
      | Some true => Some t
      | _ =>
          match next_run_at s with
          | None => Some (t + minutes interval_minutes)
          | Some at_ => Some at_
          end
      end
    else None in
  mkSchedule (id s) name enabled devices interval_minutes command timeout
             (last_run_at s) next_run_at (last_status s) (last_error s)
             (created_by s).

Section WithEnv.
Context {env : Env}.

(** [db.refresh(schedule)] *)
Definition refresh (schedule_id : Z) : M World Schedule :=
  (row <- get_schedule schedule_id ;;
   match row with
   | Some row => ret row
   | None => raise (OtherError "InvalidRequestError" "Could not refresh instance")
   end)%exec.

Definition update_schedule (schedule_id : Z) (payload : BackupScheduleUpdate)
  : M World (Response Schedule) :=
  (schedule <- get_schedule schedule_id ;;
   match schedule with
   | None => ret (HTTPException 404 "计划不存在")
   | Some schedule =>
       t <- now ;;
       Scheduler.update_schedule (id schedule) (updated payload t) ;;;
       commit ;;;
       row <- refresh (id schedule) ;;
       ret (Ok row)
   end)%exec.

(** The assignment of [run_schedule_now]. *)
Definition triggered (t : Z) (s : Schedule) : Schedule :=
  mkSchedule (id s) (name s) (enabled s) (devices s) (interval_minutes s)
             (command s) (timeout s) (last_run_at s) (Some t)
             (last_status s) (last_error s) (created_by s).

Definition run_schedule_now (schedule_id : Z)
  : M World (Response (list (string * json))) :=
  (schedule <- get_schedule schedule_id ;;
   match schedule with
   | None => ret (HTTPException 404 "计划不存在")
   | Some schedule =>
       if negb (enabled schedule) then ret (HTTPException 400 "计划未启用")
       else
         t <- now ;;
         Scheduler.update_schedule (id schedule) (triggered t) ;;;
         commit ;;;
         ret (Ok [("message", JStr "已触发，调度器将尽快执行")])
   end)%exec.

End WithEnv.

End SchedulesApi.

(** ** The registry of scrapli tasks

  [resolve_scrapli_task] of [scrapli_registry.py]: the allow-list, and
  the tasks that read a file, which are turned into their plain
  counterparts on the lines of the given text. *)
Module ScrapliRegistry.
Import Exec PyVal.

(** A task of [nornir_scrapli.tasks], known by its name. *)
Definition ScrapliTask : Type := string.

(** [SCRAPLI_TASK_ALLOWLIST]: each key stands for the task of its name. *)
Definition SCRAPLI_TASK_ALLOWLIST : list (string * ScrapliTask) :=
  List.map (fun name => (name, name))
    ["send_command"; "send_commands"; "send_commands_from_file";
     "send_config"; "send_configs"; "send_configs_from_file";
     "send_interactive"; "get_prompt";
     "cfg_get_config"; "cfg_load_config"; "cfg_commit_config";
     "cfg_abort_config"; "cfg_diff_config"; "cfg_get_version";
     "netconf_get_config"; "netconf_edit_config"; "netconf_commit";
     "netconf_discard"; "netconf_delete_config"; "netconf_lock";
     "netconf_unlock"; "netconf_validate"; "netconf_get"; "netconf_rpc";
     "netconf_capabilities"].

(** [SCRAPLI_MUTATING_TASKS] *)
Definition SCRAPLI_MUTATING_TASKS : list string :=
  ["send_config"; "send_configs"; "send_configs_from_file";
   "cfg_load_config"; "cfg_commit_config"; "cfg_abort_config";
   "netconf_edit_config"; "netconf_commit"; "netconf_discard";
   "netconf_delete_config"; "netconf_lock"; "netconf_unlock"].

(** [SCRAPLI_TASK_ALLOWLIST.get(name)] *)
Fixpoint allowed (name : string) (d : list (string * ScrapliTask))
  : option ScrapliTask :=
  match d with
  | [] => None
  | (k, task) :: d' => if String.eqb name k then Some task else allowed name d'
  end.

(** [d.pop(k, None)]: the value, and the dictionary without the key. *)
Definition dict_pop (k : string) (d : list (string * json))
  : json * list (string * json) :=
  (dict_get k d, List.filter (fun kv => negb (String.eqb (fst kv) k)) d).

(** [d[k] = v] *)
Fixpoint dict_set (k : string) (v : json) (d : list (string * json))
  : list (string * json) :=
  match d with
  | [] => [(k, v)]
  | (k', v') :: d' =>
      if String.eqb k k' then (k, v) :: d' else (k', v') :: dict_set k v d'
  end.

(** The lines of the text that are sent: stripped, and neither empty nor
    a comment. *)
Definition file_lines (content : json) : list string :=
  let lines :=
    List.map PyStr.strip (PyStr.splitlines (TaskRunner.json_str content)) in
  List.filter (fun ln => negb (String.eqb ln "") &&
                         negb (PyStr.startswith ln "#")) lines.

Definition key_error (name : string) : exn :=
  OtherError "KeyError" (PyRepr.repr_str name).

Definition resolve_scrapli_task (task_name : string)
    (params : list (string * json))
  : exn + (ScrapliTask * list (string * json) * string) :=
  match allowed task_name SCRAPLI_TASK_ALLOWLIST with
  | None => inl (ValueError ("不支持的 task: " +:+ task_name))
  | Some internal_task =>
      let normalized := params in
      if String.eqb task_name "send_commands_from_file" ||
         String.eqb task_name "send_configs_from_file" then
        let '(content, normalized) := dict_pop "content" normalized in
        match content with
        | JNull =>
            inl (ValueError
                   "from_file 类 task 需要传入 params.content（文件内容文本）")
        | _ =>
            let lines := file_lines content in
            if String.eqb task_name "send_commands_from_file" then
              match allowed "send_commands" SCRAPLI_TASK_ALLOWLIST with
              | None => inl (key_error "send_commands")
              | Some internal_task =>
                  let normalized := snd (dict_pop "file" normalized) in
                  inr (internal_task,
                       dict_set "commands" (JList (List.map JStr lines))
                                normalized,
                       "send_commands")
              end
            else
              match allowed "send_configs" SCRAPLI_TASK_ALLOWLIST with
              | None => inl (key_error "send_configs")
              | Some internal_task =>
                  let normalized := snd (dict_pop "file" normalized) in
                  inr (internal_task,
                       dict_set "configs" (JList (List.map JStr lines))
                                normalized,
                       "send_configs")
              end
        end
      else inr (internal_task, normalized, task_name)
  end.

End ScrapliRegistry.

(** * Properties *)

(** ** The string helpers on small inputs *)
Module PyFacts.

Definition lf : string := String "010" "".
Definition cr : string := String "013" "".

Example splitlines_crlf :
  PyStr.splitlines ("a" +:+ cr +:+ lf +:+ "b" +:+ lf) = ["a"; "b"].
Proof. reflexivity. Qed.

Example splitlines_blank_lines :
  PyStr.splitlines (cr +:+ cr +:+ lf +:+ lf) = [""; ""; ""].
Proof. reflexivity. Qed.

Example splitlines_empty : PyStr.splitlines "" = [].
Proof. reflexivity. Qed.

Example strip_both_sides : PyStr.strip ("  show ip route " +:+ lf) = "show ip route".
Proof. reflexivity. Qed.

Example split_commands_skips_blank_lines :
  Commands.split_commands
    ("show version" +:+ lf +:+ "   " +:+ cr +:+ lf +:+ " show ip route  ")
  = ["show version"; "show ip route"].
Proof. reflexivity. Qed.

Example split_commands_nothing : Commands.split_commands ("  " +:+ lf) = [].
Proof. reflexivity. Qed.

Example repr_list_of_names :
  PyRepr.repr_list ["r1"; "core-2"] = "['r1', 'core-2']".
Proof. reflexivity. Qed.

Example lower_ascii : PyStr.lower "Running-Config" = "running-config".
Proof. reflexivity. Qed.

End PyFacts.

(** ** Timeout resolution *)
Module TimeoutFacts.
Import Timeouts.

(** The layers of the documented example: defaults, one group, and a
    host without rules of its own. *)
Definition example_host : Host :=
  mkHost (Some (Dict (Some [("show ip*", 60)])))
         [Dict (Some [("show ip route", 90)])]
         (Dict (Some [])).

(** Two wildcard rules, the shorter one inserted first. *)
Definition nested_wildcards : Host :=
  mkHost (Some (Dict (Some [("show*", 10); ("show ip*", 20)]))) [] (Dict None).

Lemma first_wildcard_no_match command d :
  Forall (fun kv => wildcard_match kv.1 command = false) d ->
  first_wildcard command d = None.
Proof.
  induction 1 as [|[p v] d Hp _ IH]; simpl in *; [reflexivity|].
  rewrite Hp. exact IH.
Qed.

Lemma first_wildcard_first command pre p v post :
  Forall (fun kv => wildcard_match kv.1 command = false) pre ->
  wildcard_match p command = true ->
  first_wildcard command (pre ++ (p, v) :: post) = Some v.
Proof.
  intros Hpre Hp. induction Hpre as [|[q u] pre Hq _ IH]; simpl in *.
  - rewrite Hp. reflexivity.
  - rewrite Hq. exact IH.
Qed.

(** C8: on the documented layers, the exact rule wins for "show ip route",
    the wildcard rule answers for "show ip arp", and "show version" has no
    timeout. *)
Theorem layered_example_resolution :
  merged_rules example_host = [("show ip*", 60); ("show ip route", 90)] /\
  resolve_timeout_ops_for_command example_host "show ip route" = Some 90 /\
  resolve_timeout_ops_for_command example_host "show ip arp" = Some 60 /\
  resolve_timeout_ops_for_command example_host "show version" = None.
Proof. repeat split; vm_compute; reflexivity. Qed.

(** C6, as stated, fails: with the rules "show*" and "show ip*" the
    command "show ip arp" has no exact rule, "show ip*" is its longest
    matching wildcard rule, and the resolution answers with the value of
    "show*". *)
Lemma longest_wildcard_not_returned :
  ~ (forall host command p v,
       let merged := merged_rules host in
       dict_get command merged = None ->
       In (p, v) merged ->
       wildcard_match p command = true ->
       (forall q u, In (q, u) merged -> wildcard_match q command = true ->
                    (String.length q <= String.length p)%nat) ->
       resolve_timeout_ops_for_command host command = Some v).
Proof.
  intros H.
  specialize (H nested_wildcards "show ip arp" "show ip*" 20).
  assert (Hres : resolve_timeout_ops_for_command nested_wildcards "show ip arp"
                 = Some 20).
  { apply H.
    - reflexivity.
    - vm_compute. right. left. reflexivity.
    - reflexivity.
    - intros q u Hin _. vm_compute in Hin.
      destruct Hin as [Heq|[Heq|[]]]; inversion Heq; subst; simpl; lia. }
  vm_compute in Hres. discriminate Hres.
Qed.

(** C6, amended: an exact rule answers first; without one, the answer is
    the value of the first rule, in the order of the merged map, that
    ends in the wildcard marker and whose prefix starts the command; and
    there is no timeout when no rule matches either way. *)
Theorem resolve_exact_then_first_wildcard host command :
  let merged := merged_rules host in
  (forall v, dict_get command merged = Some v ->
             resolve_timeout_ops_for_command host command = Some v) /\
  (forall pre p v post,
      dict_get command merged = None ->
      merged = pre ++ (p, v) :: post ->
      Forall (fun kv => wildcard_match kv.1 command = false) pre ->
      wildcard_match p command = true ->
      resolve_timeout_ops_for_command host command = Some v) /\
  (dict_get command merged = None ->
   Forall (fun kv => wildcard_match kv.1 command = false) merged ->
   resolve_timeout_ops_for_command host command = None).
Proof.
  intros merged. unfold resolve_timeout_ops_for_command. fold merged.
  repeat split.
  - intros v Hv. destruct merged; [discriminate Hv|]. rewrite Hv. reflexivity.
  - intros pre p v post Hnone Heq Hpre Hp.
    rewrite Hnone, Heq.
    rewrite (first_wildcard_first command pre p v post Hpre Hp).
    destruct pre; reflexivity.
  - intros Hnone Hall. rewrite Hnone.
    rewrite (first_wildcard_no_match command merged Hall).
    destruct merged; reflexivity.
Qed.

Lemma resolve_exact_then_first_wildcard_witness :
  resolve_timeout_ops_for_command nested_wildcards "show ip arp" = Some 10 /\
  resolve_timeout_ops_for_command example_host "show ip route" = Some 90 /\
  resolve_timeout_ops_for_command example_host "show version" = None.
Proof.
  split; [|split].
  - apply (proj1 (proj2 (resolve_exact_then_first_wildcard
                           nested_wildcards "show ip arp"))
             [] "show*" 10 [("show ip*", 20)]).
    + reflexivity.
    + reflexivity.
    + constructor.
    + reflexivity.
  - apply (proj1 (resolve_exact_then_first_wildcard
                    example_host "show ip route")).
    reflexivity.
  - apply (proj2 (proj2 (resolve_exact_then_first_wildcard
                           example_host "show version"))).
    + reflexivity.
    + repeat constructor.
Defined.

End TimeoutFacts.

(** ** Result collation *)
Module ResultFacts.
Import PyVal Results.

(** A sub-step at which the scan of [format_results] stops. *)
Definition marked (r : Result) : bool := has_exception r || has_trace_text r.

Lemma scan_candidate_marked r rest :
  marked r = true -> scan_candidate (r :: rest) = Some r.
Proof.
  unfold marked. simpl. intros H.
  destruct (has_exception r); [reflexivity|].
  simpl in H. rewrite H. reflexivity.
Qed.

Lemma scan_candidate_skip r rest :
  marked r = false -> scan_candidate (r :: rest) = scan_candidate rest.
Proof.
  unfold marked. simpl. intros H.
  apply orb_false_iff in H as [-> ->]. reflexivity.
Qed.

Lemma scan_candidate_first skipped r rest :
  Forall (fun x => marked x = false) skipped ->
  marked r = true ->
  scan_candidate (skipped ++ r :: rest) = Some r.
Proof.
  intros Hs Hr. induction Hs as [|x skipped Hx _ IH]; simpl app.
  - apply scan_candidate_marked, Hr.
  - rewrite scan_candidate_skip by exact Hx. exact IH.
Qed.

Lemma scan_candidate_none rs :
  Forall (fun x => marked x = false) rs -> scan_candidate rs = None.
Proof.
  induction 1 as [|x rs Hx _ IH]; [reflexivity|].
  rewrite scan_candidate_skip by exact Hx. exact IH.
Qed.

Lemma exception_candidate_last_marked pre r post :
  marked r = true ->
  Forall (fun x => marked x = false) post ->
  exception_candidate (pre ++ r :: post) = Some r.
Proof.
  intros Hr Hpost. unfold exception_candidate.
  rewrite rev_app_distr. simpl rev. rewrite <- app_assoc. simpl app.
  apply scan_candidate_first; [|exact Hr].
  apply List.Forall_rev, Hpost.
Qed.

Lemma exception_candidate_none rs :
  Forall (fun x => marked x = false) rs -> exception_candidate rs = None.
Proof.
  intros H. unfold exception_candidate. apply scan_candidate_none.
  apply List.Forall_rev, H.
Qed.

(** A chain whose first sub-step carries an error and whose second one
    only holds the text of a stack trace. *)
Definition step_with_error : Result :=
  mkResult (Json JNull) true (Some "boom") "" false.

Definition step_with_trace : Result :=
  mkResult
    (Json (JStr ("Traceback (most recent call last):" +:+ String "010"
                 "ValueError: bad value" +:+ String "010" "")))
    true None "" false.

(** C7, as stated, fails: in the chain above the last sub-step carrying an
    explicit error is the first one, and the primary is the second one,
    whose text gives the exception of the envelope. *)
Lemma last_error_step_not_primary :
  ~ (forall rs pre r post,
       rs = pre ++ r :: post ->
       has_exception r = true ->
       Forall (fun x => has_exception x = false) post ->
       primary_of rs = Some r).
Proof.
  intros H.
  assert (Hp : primary_of [step_with_error; step_with_trace]
               = Some step_with_error).
  { apply (H _ [] step_with_error [step_with_trace] eq_refl eq_refl).
    repeat constructor. }
  vm_compute in Hp. discriminate Hp.
Qed.

(** C7, amended: the primary is the last sub-step that carries an error or
    whose text holds the trace marker; without such a sub-step it is the
    first sub-step when its result is plain data, and the last one
    otherwise.  The exception of the envelope is the error of the primary
    and, without one, the last non-empty line of its text when the text
    holds the marker. *)
Theorem primary_and_exception_of_chain (rs : list Result) :
  (forall pre r post,
      rs = pre ++ r :: post ->
      marked r = true ->
      Forall (fun x => marked x = false) post ->
      primary_of rs = Some r) /\
  (forall parent rest,
      rs = parent :: rest ->
      Forall (fun x => marked x = false) rs ->
      primary_of rs =
        if is_plain_value (result parent) then Some parent else last rs) /\
  (forall p,
      primary_of rs = Some p ->
      e_result (format_host (Multi rs)) = result p /\
      (forall s, exception p = Some s -> s <> "" ->
                 e_exception (format_host (Multi rs)) = Some s) /\
      (forall text ln,
          str_truthy (exception p) = false ->
          result p = Json (JStr text) ->
          PyStr.contains trace_marker text = true ->
          last_nonempty_line text = Some ln ->
          e_exception (format_host (Multi rs)) = Some ln)).
Proof.
  repeat split.
  - intros pre r post -> Hr Hpost. unfold primary_of.
    rewrite (exception_candidate_last_marked pre r post Hr Hpost).
    reflexivity.
  - intros parent rest -> Hall. unfold primary_of.
    rewrite (exception_candidate_none _ Hall). reflexivity.
  - simpl. rewrite H. reflexivity.
  - intros s Hs Hne. simpl. rewrite H. unfold exception_of. rewrite Hs.
    simpl. destruct (String.eqb_spec s ""); [contradiction|reflexivity].
  - intros text ln Hno Hres Htrace Hline. simpl. rewrite H.
    unfold exception_of. rewrite Hno, Hres, Htrace, Hline. reflexivity.
Qed.

Lemma primary_and_exception_of_chain_witness :
  primary_of [step_with_error; step_with_trace] = Some step_with_trace /\
  e_exception (format_host (Multi [step_with_error; step_with_trace]))
  = Some "ValueError: bad value".
Proof.
  pose proof (primary_and_exception_of_chain
                [step_with_error; step_with_trace]) as (Hlast & _ & Hexc).
  assert (Hp : primary_of [step_with_error; step_with_trace]
               = Some step_with_trace).
  { apply (Hlast [step_with_error] step_with_trace []).
    - reflexivity.
    - reflexivity.
    - constructor. }
  split; [exact Hp|].
  destruct (Hexc step_with_trace Hp) as (_ & _ & Htext).
  eapply Htext; reflexivity.
Defined.

End ResultFacts.

(** ** Dispatch *)
Module DispatchFacts.
Import Exec PyVal Results DeviceOps.

Lemma setdefault_lookup {V} (k h : string) (v : V) (d : gmap string V) :
  setdefault k v d !! h =
    match d !! h with
    | Some x => Some x
    | None => if decide (k = h) then Some v else None
    end.
Proof.
  unfold setdefault. destruct (d !! k) eqn:Hk.
  - destruct (d !! h) eqn:Hh; [reflexivity|].
    destruct (decide (k = h)) as [->|]; [congruence|reflexivity].
  - rewrite lookup_insert. destruct (decide (k = h)) as [->|].
    + rewrite Hk. reflexivity.
    + destruct (d !! h); reflexivity.
Qed.

Lemma fill_lookup (hosts : list string) (formatted : gmap string Envelope) h :
  fold_left (fun merged host => setdefault host missing_envelope merged)
            hosts formatted !! h =
    match formatted !! h with
    | Some x => Some x
    | None => if decide (h ∈ hosts) then Some missing_envelope else None
    end.
Proof.
  revert formatted. induction hosts as [|k hosts IH]; intros formatted; simpl.
  - destruct (formatted !! h); [reflexivity|].
    destruct (decide (h ∈ [])) as [Hin|]; [inversion Hin|reflexivity].
  - rewrite IH, setdefault_lookup.
    destruct (formatted !! h); [reflexivity|].
    destruct (decide (k = h)) as [->|Hne].
    + destruct (decide (h ∈ h :: hosts)) as [|Hn]; [reflexivity|].
      exfalso. apply Hn. left.
    + destruct (decide (h ∈ hosts)) as [Hin|Hn];
        destruct (decide (h ∈ k :: hosts)) as [Hin'|Hn']; try reflexivity.
      * exfalso. apply Hn'. right. exact Hin.
      * exfalso. apply elem_of_cons in Hin' as [->|Hin']; [apply Hne|apply Hn];
          auto.
Qed.

Lemma has_all_spec (formatted : gmap string Envelope) hosts :
  has_all formatted hosts = true ->
  forall h, h ∈ hosts -> is_Some (formatted !! h).
Proof.
  unfold has_all. rewrite forallb_forall. intros H h Hin.
  apply list_elem_of_In in Hin. apply H in Hin.
  apply bool_decide_eq_true in Hin. exact Hin.
Qed.

(** Every requested host has an entry: its own when there is one, the
    synthesised one otherwise. *)
Lemma ensure_host_results_lookup formatted hosts h :
  h ∈ hosts ->
  ensure_host_results formatted hosts !! h
  = Some (default missing_envelope (formatted !! h)).
Proof.
  intros Hin. unfold ensure_host_results.
  destruct hosts as [|k hosts]; [inversion Hin|].
  destruct (negb (bool_decide (formatted = ∅)) && has_all formatted (k :: hosts))
    eqn:Hfast.
  - apply andb_true_iff in Hfast as [_ Hall].
    destruct (has_all_spec _ _ Hall h Hin) as [x Hx]. rewrite Hx. reflexivity.
  - rewrite fill_lookup. destruct (formatted !! h); [reflexivity|].
    destruct (decide (h ∈ k :: hosts)); [reflexivity|contradiction].
Qed.

(** Nothing is added for a host that was not requested. *)
Lemma ensure_host_results_other formatted hosts h :
  h ∉ hosts ->
  ensure_host_results formatted hosts !! h = formatted !! h.
Proof.
  intros Hnin. unfold ensure_host_results.
  destruct hosts as [|k hosts]; [reflexivity|].
  destruct (negb (bool_decide (formatted = ∅)) && has_all formatted (k :: hosts));
    [reflexivity|].
  rewrite fill_lookup. destruct (formatted !! h); [reflexivity|].
  destruct (decide (h ∈ k :: hosts)); [contradiction|reflexivity].
Qed.

Lemma ensure_host_results_dom formatted hosts :
  dom formatted ⊆ list_to_set hosts ->
  dom (ensure_host_results formatted hosts) = list_to_set hosts.
Proof.
  intros Hsub. apply set_eq. intros h.
  rewrite elem_of_dom, elem_of_list_to_set. split.
  - intros Hsome. destruct (decide (h ∈ hosts)) as [|Hn]; [assumption|].
    rewrite ensure_host_results_other in Hsome by exact Hn.
    apply elem_of_dom in Hsome. apply Hsub in Hsome.
    apply elem_of_list_to_set in Hsome. exact Hsome.
  - intros Hin. rewrite ensure_host_results_lookup by exact Hin. eauto.
Qed.

Lemma filter_nornir_by_hosts_dom (nr : Inventory) hosts :
  dom (filter_nornir_by_hosts nr hosts) ⊆ list_to_set hosts.
Proof.
  intros h Hh. apply elem_of_dom in Hh as [x Hx].
  unfold filter_nornir_by_hosts in Hx.
  apply map_lookup_filter_Some in Hx as [_ Hin]. simpl in Hin.
  apply elem_of_list_to_set. exact Hin.
Qed.

Lemma validate_hosts_exist_ok `{Framework} (nr : Inventory) hosts w :
  Forall (fun h => is_Some (nr !! h)) hosts ->
  validate_hosts_exist nr hosts w = (Ret tt, w).
Proof.
  intros Hall. unfold validate_hosts_exist.
  assert (Hm : missing_hosts nr hosts = []).
  { unfold missing_hosts. induction Hall as [|h hosts [x Hx] _ IH]; simpl.
    - reflexivity.
    - rewrite Hx. exact IH. }
  rewrite Hm. reflexivity.
Qed.

(** The per-host closure a call hands to the framework; there is none
    when the text of a command holds no command. *)
Definition task_of_call (call : Call) : option PerHostTask :=
  match call with
  | CallSendCommand command timeout =>
      match Commands.split_commands command with
      | [] => None
      | commands => Some (SendCommandTask commands timeout)
      end
  | CallSendConfig commands dry_run timeout =>
      Some (SendConfigTask commands dry_run timeout)
  | CallGetFacts => Some FactsTask
  | CallGetInterfaces => Some InterfacesTask
  | CallTestConnectivity => Some ConnectivityTask
  | CallGetRunningConfig command timeout =>
      Some (RunningConfigTask command timeout)
  end.

Lemma dispatch_run_and_collect `{Framework} nr hosts call task :
  task_of_call call = Some task ->
  dispatch nr hosts call = run_and_collect nr hosts task.
Proof.
  destruct call as [text t| | | | |]; simpl; try (intros [= <-]; reflexivity).
  unfold run_send_command.
  destruct (Commands.split_commands text); [discriminate|].
  intros [= <-]. reflexivity.
Qed.


(** A framework on a fleet of two routers that answers for the first
    one only. *)
Definition one_answer : Result :=
  mkResult (Json (JStr "up")) false None "" false.

#[local] Instance partial_framework : Framework :=
  {| Fleet := unit;
     nornir_run := fun _ _ f => (Ret {[ "r1" := Single one_answer ]}, f) |}.

Definition router : HostObj :=
  mkHostObj (Some "cisco_iosxe") (Timeouts.mkHost None [] Timeouts.NotADict).

Definition two_routers : Inventory := {[ "r1" := router; "r2" := router ]}.

Definition idle : World := mkWorld tt [].

(** C1: when every requested host is known and the framework answers for
    hosts of the filtered inventory only, the operation returns a map
    whose keys are exactly the requested hosts; a host has the envelope of
    its own result, and the synthesised failed envelope when the
    framework gave none for it. *)
Theorem dispatch_key_set `{fw : Framework} (nr : Inventory)
    (hosts : list string) (call : Call) (task : PerHostTask) (w : World)
    (raw : gmap string HostResult) (f' : Fleet) :
  Forall (fun h => is_Some (nr !! h)) hosts ->
  task_of_call call = Some task ->
  nornir_run (filter_nornir_by_hosts nr hosts) task (fleet w) = (Ret raw, f') ->
  dom raw ⊆ dom (filter_nornir_by_hosts nr hosts) ->
  exists res w',
    dispatch nr hosts call w = (Ret res, w') /\
    dom res =@{gset string} list_to_set hosts /\
    (forall h, h ∈ hosts ->
       res !! h = Some (from_option format_host missing_envelope (raw !! h))) /\
    e_failed missing_envelope = true /\
    is_Some (e_exception missing_envelope).
Proof.
  intros Hknown Htask Hrun Hsub.
  rewrite (dispatch_run_and_collect _ _ _ _ Htask).
  unfold run_and_collect, bind.
  rewrite (validate_hosts_exist_ok _ _ _ Hknown).
  unfold run. rewrite Hrun. unfold ret.
  eexists _, _. split; [reflexivity|]. split; [|split; [|split]].
  - apply ensure_host_results_dom. unfold format_results.
    rewrite dom_fmap_L. etransitivity; [exact Hsub|].
    apply filter_nornir_by_hosts_dom.
  - intros h Hin. rewrite ensure_host_results_lookup by exact Hin.
    unfold format_results. rewrite lookup_fmap.
    destruct (raw !! h); reflexivity.
  - reflexivity.
  - eexists. reflexivity.
Qed.

Lemma dispatch_key_set_witness :
  exists res w',
    dispatch (fw := partial_framework) two_routers ["r1"; "r2"]
             (CallSendCommand "show version" None) idle = (Ret res, w') /\
    dom res =@{gset string} list_to_set ["r1"; "r2"] /\
    (forall h, h ∈ ["r1"; "r2"] ->
       res !! h = Some (from_option format_host missing_envelope
                          (({[ "r1" := Single one_answer ]}
                              : gmap string HostResult) !! h))) /\
    e_failed missing_envelope = true /\
    is_Some (e_exception missing_envelope).
Proof.
  apply (dispatch_key_set (fw := partial_framework) two_routers ["r1"; "r2"]
           (CallSendCommand "show version" None)
           (SendCommandTask ["show version"] None) idle
           {[ "r1" := Single one_answer ]} tt).
  - repeat constructor; eexists; reflexivity.
  - reflexivity.
  - reflexivity.
  - refine (bool_decide_unpack _ _). vm_compute. exact I.
Defined.




End DispatchFacts.

(** ** Command sequences on one host *)
Module SequenceFacts.
Import Exec PyVal Results DeviceOps.

Section WithTransport.
Context {tr : Transport}.

(** What the device answers to the commands sent one after the other,
    starting in session [s]. *)
Fixpoint outcomes (host : HostObj) (timeout : option Z) (cmds : list string)
    (s : Session) : list SubOutcome :=
  match cmds with
  | [] => []
  | cmd :: rest =>
      let '(o, s') := send_command cmd (effective_timeout host timeout cmd) s in
      o :: outcomes host timeout rest s'
  end.

Fixpoint final_session (host : HostObj) (timeout : option Z)
    (cmds : list string) (s : Session) : Session :=
  match cmds with
  | [] => s
  | cmd :: rest =>
      final_session host timeout rest
        (send_command cmd (effective_timeout host timeout cmd) s).2
  end.

Definition is_failure (o : SubOutcome) : bool :=
  match o with
  | SubOk _ => false
  | SubFailed _ => true
  end.

(** The entry kept for a command and its outcome. *)
Definition item_of (cmd : string) (o : SubOutcome) : Item :=
  match o with
  | SubOk r => mkItem cmd false (Some (last_result r)) None
  | SubFailed e => mkItem cmd true None (Some (error_text e))
  end.

Definition failures (os : list SubOutcome) : nat :=
  List.length (List.filter is_failure os).

Lemma run_commands_spec host timeout cmds items failed_count s :
  run_commands host timeout cmds items failed_count s
  = (items ++ zip_with item_of cmds (outcomes host timeout cmds s),
     (failed_count + failures (outcomes host timeout cmds s))%nat,
     final_session host timeout cmds s).
Proof.
  revert items failed_count s.
  induction cmds as [|cmd rest IH]; intros items failed_count s; simpl.
  - rewrite app_nil_r. unfold failures. simpl. rewrite Nat.add_0_r.
    reflexivity.
  - destruct (send_command cmd (effective_timeout host timeout cmd) s)
      as [[r|e] s'] eqn:Hsend; simpl; rewrite IH, <- app_assoc; simpl;
      unfold failures; simpl; repeat f_equal; lia.
Qed.

Lemma zip_with_item_of_commands cmds os :
  List.length os = List.length cmds ->
  List.map command (zip_with item_of cmds os) = cmds.
Proof.
  revert os. induction cmds as [|cmd rest IH]; intros [|o os] Hlen;
    simpl in *; try discriminate; [reflexivity|].
  f_equal; [destruct o; reflexivity|]. apply IH. lia.
Qed.

Lemma zip_with_item_of_failed cmds os :
  List.length os = List.length cmds ->
  List.map item_failed (zip_with item_of cmds os) = List.map is_failure os.
Proof.
  revert os. induction cmds as [|cmd rest IH]; intros [|o os] Hlen;
    simpl in *; try discriminate; [reflexivity|].
  f_equal; [destruct o; reflexivity|]. apply IH. lia.
Qed.

Lemma outcomes_length host timeout cmds s :
  List.length (outcomes host timeout cmds s) = List.length cmds.
Proof.
  revert s. induction cmds as [|cmd rest IH]; intros s; simpl; [reflexivity|].
  destruct (send_command cmd (effective_timeout host timeout cmd) s).
  simpl. rewrite IH. reflexivity.
Qed.

Lemma failures_positive os :
  (0 <? failures os)%nat = existsb is_failure os.
Proof.
  unfold failures. induction os as [|[r|e] os IH]; simpl; auto.
Qed.

Lemma zip_with_item_of_count cmds os :
  List.length os = List.length cmds ->
  List.length (List.filter item_failed (zip_with item_of cmds os))
  = failures os.
Proof.
  unfold failures. revert os.
  induction cmds as [|cmd rest IH]; intros [|o os] Hlen;
    simpl in *; try discriminate; [reflexivity|].
  injection Hlen as Hlen.
  destruct o; simpl; rewrite (IH _ Hlen); reflexivity.
Qed.

Lemma zip_with_item_of_exists cmds os :
  List.length os = List.length cmds ->
  existsb item_failed (zip_with item_of cmds os) = existsb is_failure os.
Proof.
  revert os.
  induction cmds as [|cmd rest IH]; intros [|o os] Hlen;
    simpl in *; try discriminate; [reflexivity|].
  injection Hlen as Hlen.
  destruct o; simpl; rewrite ?(IH _ Hlen); reflexivity.
Qed.

Lemma failures_zero os :
  (failures os =? 0)%nat = negb (existsb is_failure os).
Proof.
  rewrite <- failures_positive. destruct (failures os); reflexivity.
Qed.

(** X29: with two commands or more, the per-host task returns the
    sequence result whatever the outcomes are (what [format_results] then
    keeps of it is another matter).  Its "commands" list has one entry per
    command, in order, each built from the outcome of that command; the
    result is failed exactly when some command failed, and its exception
    then is the message that starts with the number of failed commands. *)
Theorem command_sequence_runs_every_command (host : HostObj)
    (cmds : list string) (timeout : option Z) (s : Session) :
  (2 <= List.length cmds)%nat ->
  let s0 := reset_and_close_connections s in
  let os := outcomes host timeout cmds s0 in
  exists seq,
    per_host_task host cmds timeout s
    = (inr (Sequence seq),
       close_all_connections (final_session host timeout cmds s0)) /\
    commands seq = zip_with item_of cmds os /\
    List.length (commands seq) = List.length cmds /\
    List.map command (commands seq) = cmds /\
    List.map item_failed (commands seq) = List.map is_failure os /\
    seq_failed seq = existsb item_failed (commands seq) /\
    seq_exception seq =
      (if seq_failed seq
       then Some (RuntimeError
                    (pretty (List.length (List.filter item_failed (commands seq)))
                     +:+ " 个命令执行失败"))
       else None).
Proof.
  intros Hlen s0 os.
  assert (Hos : List.length os = List.length cmds)
    by apply outcomes_length.
  assert (Hflags : List.map item_failed (zip_with item_of cmds os)
                   = List.map is_failure os)
    by (apply zip_with_item_of_failed, Hos).
  assert (Hcount : List.length (List.filter item_failed (zip_with item_of cmds os))
                   = failures os).
    by (apply zip_with_item_of_count, Hos).
  exists {| commands := zip_with item_of cmds os;
            seq_failed := (0 <? failures os)%nat;
            seq_exception :=
              if (failures os =? 0)%nat then None
              else Some (RuntimeError (failure_message (failures os))) |}.
  split; [|split; [|split; [|split; [|split; [|split]]]]]; simpl.
  - unfold per_host_task. fold s0.
    destruct cmds as [|c1 [|c2 rest]]; simpl in Hlen; try lia.
    rewrite run_commands_spec. reflexivity.
  - reflexivity.
  - rewrite <- (length_map command), zip_with_item_of_commands by exact Hos.
    reflexivity.
  - apply zip_with_item_of_commands, Hos.
  - exact Hflags.
  - rewrite failures_positive. symmetry.
    apply zip_with_item_of_exists, Hos.
  - rewrite Hcount, failures_zero, failures_positive.
    destruct (existsb is_failure os); reflexivity.
Qed.

End WithTransport.

(** A device that refuses the command "bad" and answers the others. *)
#[local] Instance picky_device : Transport :=
  {| Session := nat;
     send_command := fun cmd _ n =>
       if String.eqb cmd "bad"
       then (SubFailed (mkSubTaskError None "rejected"), S n)
       else (SubOk (Multi [mkResult (Json (JStr "ok")) false None "" false]), S n);
     reset_and_close_connections := fun n => n;
     close_all_connections := fun n => n |}.

Definition some_host : HostObj :=
  mkHostObj None (Timeouts.mkHost None [] Timeouts.NotADict).

Lemma command_sequence_runs_every_command_witness :
  exists seq session,
    per_host_task (tr := picky_device) some_host
                  ["show version"; "bad"; "show clock"] None 0%nat
    = (inr (Sequence seq), session) /\
    List.map command (commands seq) = ["show version"; "bad"; "show clock"] /\
    List.map item_failed (commands seq) = [false; true; false] /\
    seq_failed seq = true.
Proof.
  destruct (command_sequence_runs_every_command (tr := picky_device) some_host
              ["show version"; "bad"; "show clock"] None 0%nat)
    as (seq & Hrun & Hitems & _ & Hcmds & Hflags & Hfailed & _).
  - simpl. lia.
  - exists seq, 3%nat. split; [exact Hrun|]. split; [exact Hcmds|].
    split; [exact Hflags|]. rewrite Hfailed, Hitems. reflexivity.
Defined.

Example picky_device_sequence :
  per_host_task (tr := picky_device) some_host
                ["show version"; "bad"; "show clock"] None 0%nat
  = (inr (Sequence
            {| commands :=
                 [mkItem "show version" false (Some (Json (JStr "ok"))) None;
                  mkItem "bad" true None (Some "rejected");
                  mkItem "show clock" false (Some (Json (JStr "ok"))) None];
               seq_failed := true;
               seq_exception := Some (RuntimeError "1 个命令执行失败") |}),
     3%nat).
Proof. vm_compute. reflexivity. Qed.

End SequenceFacts.

(** ** What the caller gets of a command sequence *)
Module SequenceEnvelopeFacts.
Import Exec PyVal Results DeviceOps ResultFacts SequenceFacts.

(** An entry of the "commands" list as JSON data, when its result is. *)
Definition item_json (i : Item) : option json :=
  let head := [("command", JStr (command i)); ("failed", JBool (item_failed i))] in
  match item_result i, item_exception i with
  | Some (Json out), _ => Some (JDict (head ++ [("result", out)]))
  | Some _, _ => None
  | None, Some err => Some (JDict (head ++ [("exception", JStr err)]))
  | None, None => Some (JDict head)
  end.

Fixpoint items_json (items : list Item) : option (list json) :=
  match items with
  | [] => Some []
  | i :: rest =>
      match item_json i, items_json rest with
      | Some j, Some js => Some (j :: js)
      | _, _ => None
      end
  end.

(** [Result(host, result={"commands": items}, failed=..., exception=...)],
    the object that the per-host task builds from a sequence. *)
Definition result_of (seq : SequenceResult) : option Result :=
  match items_json (commands seq) with
  | Some js =>
      Some (mkResult (Json (JDict [("commands", JList js)])) (seq_failed seq)
                     (option_map exn_str (seq_exception seq)) "" false)
  | None => None
  end.

(** The results that the framework has put into the chain of the host
    for a sub-task: those of the sub-task, also when it failed. *)
Definition chained (o : SubOutcome) : list Result :=
  match o with
  | SubOk (Multi rs) => rs
  | SubOk (Single r) => [r]
  | SubFailed e =>
      match err_result e with
      | Some (Multi rs) => rs
      | Some (Single r) => [r]
      | None => []
      end
  end.

(** In a chain that starts with the result of the task itself, a sub-step
    with an exception that no marked sub-step follows is the primary one,
    whatever the first result holds. *)
Lemma failed_step_is_primary parent before step after :
  has_exception step = true ->
  Forall (fun r => marked r = false) after ->
  primary_of (parent :: before ++ step :: after) = Some step.
Proof.
  intros Hstep Hafter. unfold primary_of. rewrite app_comm_cons.
  rewrite (exception_candidate_last_marked (parent :: before) step after);
    [reflexivity| |exact Hafter].
  unfold marked. rewrite Hstep. reflexivity.
Qed.

Lemma failed_step_replaces_report parent before step after text :
  exception step = Some text -> text <> "" ->
  Forall (fun r => marked r = false) after ->
  let envelope := format_host (Multi (parent :: before ++ step :: after)) in
  e_result envelope = result step /\
  e_exception envelope = Some text.
Proof.
  intros Hexc Hne Hafter. cbv zeta. unfold format_host.
  rewrite (failed_step_is_primary parent before step after); [|
    unfold has_exception; rewrite Hexc; reflexivity|exact Hafter].
  cbn [e_result e_exception]. split; [reflexivity|].
  unfold exception_of. rewrite Hexc. simpl.
  destruct (String.eqb_spec text ""); [contradiction|reflexivity].
Qed.

(** The result that the framework keeps for a sub-task that raised: the
    exception, and the text of the stack trace as result. *)
Definition rejected_step : Result :=
  mkResult
    (Json (JStr ("Traceback (most recent call last):" +:+ String "010" ""
                 +:+ "ScrapliTimeout: rejected")))
    true (Some "rejected") "" false.

Definition answered_step : Result :=
  mkResult (Json (JStr "ok")) false None "" false.

(** A device that refuses the command "bad" and answers the others; the
    error of the refused sub-task carries its result. *)
#[local] Instance strict_device : Transport :=
  {| Session := nat;
     send_command := fun cmd _ n =>
       if String.eqb cmd "bad"
       then (SubFailed (mkSubTaskError (Some (Multi [rejected_step]))
                                       "Subtask: send_command (failed)"), S n)
       else (SubOk (Multi [answered_step]), S n);
     reset_and_close_connections := fun n => n;
     close_all_connections := fun n => n |}.

Definition three_commands : list string := ["show version"; "bad"; "show clock"].

(** The chain of the host after the task: the result of the task, then
    the results of its sub-tasks. *)
Definition chain_of (parent : Result) : list Result :=
  parent :: flat_map chained
              (outcomes (tr := strict_device) some_host None three_commands 0%nat).

(** C2: the second of three commands is refused.  The per-host task
    returns the sequence result with its three entries and the message
    that counts one failure, but the envelope that [format_results] makes
    of the chain of the host shows the refused sub-step instead: its
    exception and the text of its stack trace.  The "commands" list and
    the count of the failures do not reach the caller. *)
Lemma sequence_report_lost_in_envelope :
  exists seq session parent,
    per_host_task (tr := strict_device) some_host three_commands None 0%nat
    = (inr (Sequence seq), session) /\
    List.map command (commands seq) = three_commands /\
    List.map item_failed (commands seq) = [false; true; false] /\
    seq_exception seq = Some (RuntimeError "1 个命令执行失败") /\
    result_of seq = Some parent /\
    exception parent = Some "1 个命令执行失败" /\
    let envelope := format_host (Multi (chain_of parent)) in
    e_failed envelope = true /\
    e_exception envelope = Some "rejected" /\
    e_result envelope = result rejected_step /\
    e_result envelope <> result parent.
Proof.
  eexists _, _, _. split; [vm_compute; reflexivity|].
  split; [reflexivity|]. split; [reflexivity|]. split; [reflexivity|].
  split; [vm_compute; reflexivity|]. split; [reflexivity|].
  cbv zeta. split; [reflexivity|]. split; [reflexivity|].
  split; [reflexivity|]. discriminate.
Qed.

End SequenceEnvelopeFacts.

(** ** The interval scheduler *)
Module SchedulerFacts.
Import Exec PyVal Scheduler.

Section WithEnv.
Context {env : Env}.

(** The database answers every statement. *)
Definition no_fault : Prop := forall op x, (db_step op x).1 = None.

Lemma db_exec_ok op w :
  no_fault ->
  db_exec op w = (Ret tt, set_ext (db_step op (ext w)).2 (add_event (Db op) w)).
Proof.
  intros Hok. unfold db_exec. simpl.
  specialize (Hok op (ext w)).
  destruct (db_step op (ext w)) as [[e|] x]; simpl in *;
    [discriminate|reflexivity].
Qed.

(** C4: when the database works, running an enabled schedule returns, and
    afterwards the schedule has [last_run_at] at the time read at the
    start of the run, [next_run_at] that time plus the interval, and its
    [enabled] flag as before.  When the snapshot call returned, the status
    is that of the run and the error is empty; when it raised, the status
    is "failed" and the error is the text of the exception. *)
Theorem run_one_always_reschedules (schedule_id : Z) (schedule : Schedule)
    (w : World) :
  no_fault ->
  schedules w !! schedule_id = Some schedule ->
  id schedule = schedule_id ->
  enabled schedule = true ->
  let x0 := (db_step (GetSchedule schedule_id) (ext w)).2 in
  let t := utc_now x0 in
  let snap :=
    save_running_config_snapshots
      (devices schedule) (command schedule) (timeout schedule)
      (or_default (created_by schedule) "scheduler")
      (db_step Commit x0).2 in
  exists w' schedule',
    _run_one schedule_id w = (Ret tt, w') /\
    schedules w' !! schedule_id = Some schedule' /\
    last_run_at schedule' = Some t /\
    next_run_at schedule' = Some (t + minutes (interval_minutes schedule)) /\
    enabled schedule' = true /\
    interval_minutes schedule' = interval_minutes schedule /\
    devices schedule' = devices schedule /\
    match snap.1 with
    | Ret results =>
        last_status schedule'
        = Some (if (count_failed results =? 0)%nat then "completed" else "failed")
        /\ last_error schedule' = None
    | Raise e =>
        last_status schedule' = Some "failed" /\
        last_error schedule' = Some (exn_str e)
    end.
Proof.
  intros Hok Hrow Hid Hen x0 t snap.
  unfold _run_one, bind, get_schedule, bind.
  rewrite (db_exec_ok _ _ Hok). simpl. rewrite Hrow, Hen. simpl.
  unfold commit. rewrite (db_exec_ok _ _ Hok). simpl.
  unfold try_except, bind, snapshots. simpl.
  fold x0. fold t. rewrite Hid. subst snap.
  destruct (save_running_config_snapshots (devices schedule) (command schedule)
              (timeout schedule) (or_default (created_by schedule) "scheduler")
              (db_step Commit x0).2) as [[results|e] x2] eqn:Hsnap;
    simpl; rewrite (db_exec_ok _ _ Hok); simpl;
    eexists _, _; (split; [reflexivity|]); simpl;
    rewrite lookup_alter_eq, Hrow; simpl;
    (split; [reflexivity|]); simpl; rewrite Hen; repeat split.
Qed.

(** *** The advisory lock around a tick *)

Definition lock_statement (e : Event) : bool :=
  match e with
  | Db (TryAdvisoryLock _) => true
  | Db (AdvisoryUnlock _) => true
  | _ => false
  end.

(** From [w] to [w'] only events that are no lock statements were added,
    and the lock is held as often as before. *)
Definition lock_untouched (w w' : World) : Prop :=
  exists mid,
    events w' = events w ++ mid /\
    Forall (fun e => lock_statement e = false) mid /\
    lock_count w' = lock_count w.

(** A computation that leaves the lock alone, whatever it returns. *)
Definition quiet {A} (c : M World A) : Prop :=
  forall w, lock_untouched w (c w).2.

Lemma lock_untouched_refl w : lock_untouched w w.
Proof. exists []. rewrite app_nil_r. repeat split. constructor. Qed.

Lemma lock_untouched_trans w1 w2 w3 :
  lock_untouched w1 w2 -> lock_untouched w2 w3 -> lock_untouched w1 w3.
Proof.
  intros (m1 & E1 & F1 & L1) (m2 & E2 & F2 & L2).
  exists (m1 ++ m2). rewrite E2, E1, app_assoc. repeat split.
  - apply Forall_app; split; assumption.
  - congruence.
Qed.

Lemma quiet_ret {A} (a : A) : quiet (ret a).
Proof. intros w. apply lock_untouched_refl. Qed.

Lemma quiet_raise {A} e : quiet (raise (A := A) e).
Proof. intros w. apply lock_untouched_refl. Qed.

Lemma quiet_bind {A B} (c : M World A) (k : A -> M World B) :
  quiet c -> (forall a, quiet (k a)) -> quiet (bind c k).
Proof.
  intros Hc Hk w. unfold bind. specialize (Hc w).
  destruct (c w) as [[a|e] w1]; simpl in *; [|exact Hc].
  eapply lock_untouched_trans; [exact Hc|apply Hk].
Qed.

Lemma quiet_try_except {A} (c : M World A) (h : exn -> M World A) :
  quiet c -> (forall e, quiet (h e)) -> quiet (try_except c h).
Proof.
  intros Hc Hh w. unfold try_except. specialize (Hc w).
  destruct (c w) as [[a|e] w1]; simpl in *; [exact Hc|].
  eapply lock_untouched_trans; [exact Hc|apply Hh].
Qed.

Lemma quiet_for_each {A} (xs : list A) (body : A -> M World unit) :
  (forall x, quiet (body x)) -> quiet (for_each xs body).
Proof.
  intros Hb. induction xs as [|x xs IH]; simpl.
  - apply quiet_ret.
  - apply quiet_bind; [apply Hb|intros _; exact IH].
Qed.

Lemma quiet_modify (f : World -> World) :
  (forall w, events (f w) = events w /\ lock_count (f w) = lock_count w) ->
  quiet (modify f).
Proof.
  intros Hf w. unfold modify. simpl. destruct (Hf w) as [He Hl].
  exists []. rewrite app_nil_r. repeat split; [exact He|constructor|exact Hl].
Qed.

Lemma quiet_db_exec op :
  lock_statement (Db op) = false -> quiet (db_exec op).
Proof.
  intros Hop w. unfold db_exec. simpl.
  destruct (db_step op (ext w)) as [[e|] x]; simpl;
    exists [Db op]; repeat split; repeat constructor; exact Hop.
Qed.

Lemma quiet_now : quiet now.
Proof. intros w. apply lock_untouched_refl. Qed.

Lemma quiet_snapshots sid devs cmd tmo who :
  quiet (snapshots sid devs cmd tmo who).
Proof.
  intros w. unfold snapshots. simpl.
  destruct (save_running_config_snapshots devs cmd tmo who (ext w)) as [r x].
  simpl. exists [Snapshot sid]. repeat split. repeat constructor.
Qed.

Lemma quiet_run_one sid : quiet (_run_one sid).
Proof.
  unfold _run_one. apply quiet_bind.
  - unfold get_schedule. apply quiet_bind; [apply quiet_db_exec; reflexivity|].
    intros _ w. apply lock_untouched_refl.
  - intros [schedule|]; [|apply quiet_ret].
    destruct (enabled schedule); simpl; [|apply quiet_ret].
    apply quiet_bind; [apply quiet_now|]. intros t.
    apply quiet_bind.
    { intros w. unfold add_run. simpl. exists []. rewrite app_nil_r.
      repeat split. constructor. }
    intros run. apply quiet_bind; [apply quiet_db_exec; reflexivity|].
    intros _. apply quiet_try_except.
    + apply quiet_bind; [apply quiet_snapshots|]. intros results.
      apply quiet_bind; [apply quiet_modify; intros w; split; reflexivity|].
      intros _.
      apply quiet_bind; [apply quiet_modify; intros w; split; reflexivity|].
      intros _. apply quiet_db_exec. reflexivity.
    + intros e.
      apply quiet_bind; [apply quiet_modify; intros w; split; reflexivity|].
      intros _.
      apply quiet_bind; [apply quiet_modify; intros w; split; reflexivity|].
      intros _. apply quiet_db_exec. reflexivity.
Qed.

Lemma quiet_select_due t : quiet (select_due t).
Proof.
  unfold select_due. apply quiet_bind; [apply quiet_db_exec; reflexivity|].
  intros _ w. apply lock_untouched_refl.
Qed.

(** The part of a tick that runs under the lock. *)
Definition under_lock (t : Z) : M World unit :=
  (due <- select_due t ;;
   match due with
   | [] => ret tt
   | _ => for_each due (fun schedule => _run_one (id schedule))
   end)%exec.

Lemma quiet_under_lock t : quiet (under_lock t).
Proof.
  unfold under_lock. apply quiet_bind; [apply quiet_select_due|].
  intros [|s due]; [apply quiet_ret|].
  apply quiet_for_each. intros x. apply quiet_run_one.
Qed.

Lemma advisory_unlock_events w :
  events (advisory_unlock w).2 = events w ++ [Db (AdvisoryUnlock lock_key)].
Proof.
  unfold advisory_unlock, bind, db_exec. simpl.
  destruct (db_step (AdvisoryUnlock lock_key) (ext w)) as [[e|] x]; reflexivity.
Qed.

(** C10: a tick that is granted the lock sends the unlock statement as
    its last statement, whatever the query and the runs in between do and
    whether the tick returns or raises; a tick that is refused the lock
    returns at once, having neither read nor run nor written a schedule. *)
Theorem tick_lock_discipline (w : World) (x0 : Ext) :
  db_step (TryAdvisoryLock lock_key) (ext w) = (None, x0) ->
  let w0 := set_ext x0 (add_event (Db (TryAdvisoryLock lock_key)) w) in
  (lock_free x0 = true ->
     exists mid,
       events (_tick w).2
       = events w ++ Db (TryAdvisoryLock lock_key) :: mid
                  ++ [Db (AdvisoryUnlock lock_key)] /\
       Forall (fun e => lock_statement e = false) mid) /\
  (lock_free x0 = false ->
     _tick w = (Ret tt, w0) /\
     events w0 = events w ++ [Db (TryAdvisoryLock lock_key)] /\
     schedules w0 = schedules w /\
     runs w0 = runs w).
Proof.
  intros Hstep w0. split; intros Hfree.
  - assert (Htick : _tick w
      = try_finally (under_lock (utc_now (ext w))) advisory_unlock
                    (set_lock_count (S (lock_count w0)) w0)).
    { unfold _tick, bind, now, try_advisory_lock, bind, db_exec. simpl.
      rewrite Hstep. simpl. rewrite Hfree. reflexivity. }
    rewrite Htick. unfold try_finally.
    pose proof (quiet_under_lock (utc_now (ext w))
                  (set_lock_count (S (lock_count w0)) w0)) as (mid & He & Hq & _).
    destruct (under_lock (utc_now (ext w))
                (set_lock_count (S (lock_count w0)) w0)) as [r w1].
    simpl in He.
    pose proof (advisory_unlock_events w1) as Hu.
    destruct (advisory_unlock w1) as [[[]|e] w2]; simpl in *;
      exists mid; rewrite Hu, He, <- !app_assoc; split; auto.
  - repeat split.
    unfold _tick, bind, now, try_advisory_lock, bind, db_exec. simpl.
    rewrite Hstep. simpl. rewrite Hfree. reflexivity.
Qed.

End WithEnv.

(** A database without faults and devices that cannot be reached: the
    clock is the whole outside world, and a snapshot attempt takes five
    seconds before it raises. *)
#[local] Instance unreachable_devices : Env :=
  {| Ext := Z;
     utc_now := fun x => x;
     lock_free := fun _ => true;
     db_step := fun _ x => (None, x);
     save_running_config_snapshots := fun _ _ _ _ x =>
       (Raise (OtherError "TimeoutError" "device unreachable"), x + 5000000) |}.

Definition nightly : Schedule :=
  mkSchedule 7 "nightly" true ["r1"] 30 None None None (Some 0) None None None.

Definition nightly_world : World (env := unreachable_devices) :=
  mkWorld (env := unreachable_devices) {[ 7 := nightly ]} [] 0%nat 1000 [].

Lemma run_one_always_reschedules_witness :
  exists w' schedule',
    _run_one (env := unreachable_devices) 7 nightly_world = (Ret tt, w') /\
    schedules w' !! 7 = Some schedule' /\
    last_run_at schedule' = Some 1000 /\
    next_run_at schedule' = Some (1000 + minutes 30) /\
    enabled schedule' = true /\
    last_status schedule' = Some "failed" /\
    last_error schedule' = Some "device unreachable".
Proof.
  destruct (run_one_always_reschedules (env := unreachable_devices)
              7 nightly nightly_world)
    as (w' & s' & Hrun & Hrow & Hlast & Hnext & Hen & _ & _ & Hstatus & Herr).
  - intros op x. reflexivity.
  - reflexivity.
  - reflexivity.
  - reflexivity.
  - exists w', s'. repeat split; assumption.
Defined.

(** A database on which the query for the due schedules fails. *)
#[local] Instance failing_query : Env :=
  {| Ext := unit;
     utc_now := fun _ => 0;
     lock_free := fun _ => true;
     db_step := fun op x =>
       match op with
       | SelectDue => (Some (OtherError "OperationalError" "connection lost"), x)
       | _ => (None, x)
       end;
     save_running_config_snapshots := fun _ _ _ _ x => (Ret [], x) |}.

Definition empty_world : World (env := failing_query) :=
  mkWorld (env := failing_query) ∅ [] 0%nat tt [].

Lemma tick_lock_discipline_witness :
  (_tick (env := failing_query) empty_world).1
  = Raise (OtherError "OperationalError" "connection lost") /\
  exists mid,
    events (_tick (env := failing_query) empty_world).2
    = events empty_world ++ Db (TryAdvisoryLock lock_key) :: mid
        ++ [Db (AdvisoryUnlock lock_key)] /\
    Forall (fun e => lock_statement e = false) mid.
Proof.
  split; [reflexivity|].
  destruct (tick_lock_discipline (env := failing_query) empty_world tt)
    as [Hgranted _].
  - reflexivity.
  - apply Hgranted. reflexivity.
Defined.

End SchedulerFacts.

(** ** The job queue *)
Module TaskRunnerFacts.
Import Exec PyVal TaskRunner.

Section WithEnv.
Context {env : Env}.

(** The database answers every statement. *)
Definition no_fault : Prop := forall op x, (db_step op x).1 = None.

Lemma db_exec_answers op w :
  no_fault ->
  db_exec op w = (Ret tt, set_ext (db_step op (ext w)).2 (add_event (Db op) w)).
Proof.
  intros Hok. unfold db_exec. simpl.
  specialize (Hok op (ext w)).
  destruct (db_step op (ext w)) as [[e|] x]; simpl in *;
    [discriminate|reflexivity].
Qed.

(** The calls made to the fleet for a job, among some events. *)
Definition fleet_calls (task_id : Z) (es : list Event) : nat :=
  List.length
    (List.filter (fun e => match e with
                           | Fleet i _ => i =? task_id
                           | Db _ => false
                           end) es).

Lemma fleet_calls_app task_id es es' :
  fleet_calls task_id (es ++ es')
  = (fleet_calls task_id es + fleet_calls task_id es')%nat.
Proof.
  unfold fleet_calls. rewrite List.filter_app, length_app. reflexivity.
Qed.

(** The dispatch of a payload touches neither table, and calls the
    manager once at most. *)
Lemma run_payload_frame task w :
  let w' := (_run_payload task w).2 in
  tasks w' = tasks w /\
  task_logs w' = task_logs w /\
  (events w' = events w \/
   exists call, events w' = events w ++ [Fleet (id task) call]).
Proof.
  assert (Hcall : forall call,
    let w' := (call_manager (id task) call w).2 in
    tasks w' = tasks w /\ task_logs w' = task_logs w /\
    (events w' = events w \/
     exists c, events w' = events w ++ [Fleet (id task) c])).
  { intros call. unfold call_manager. simpl.
    destruct (manager call (ext w)) as [r x]. simpl.
    repeat split. right. exists call. reflexivity. }
  assert (Hraise : forall e,
    let w' := (raise (A := list (string * json)) e w).2 in
    tasks w' = tasks w /\ task_logs w' = task_logs w /\
    (events w' = events w \/
     exists c, events w' = events w ++ [Fleet (id task) c])).
  { intros e. simpl. repeat split. left. reflexivity. }
  unfold _run_payload.
  repeat match goal with
         | |- context [if ?b then _ else _] => destruct b
         | |- context [match params_get ?k ?p with _ => _ end] =>
             destruct (params_get k p)
         end;
    first [apply Hcall | apply Hraise].
Qed.

Lemma persist_task_logs_frame task_id results w :
  exists logs,
    _persist_task_logs task_id results w
    = (Ret tt, mkWorld (tasks w) logs (ext w) (events w)).
Proof.
  unfold _persist_task_logs. revert w.
  induction results as [|[host j] results IH]; intros w; simpl.
  - exists (task_logs w). destruct w; reflexivity.
  - unfold bind.
    destruct j; simpl; try (destruct (IH w) as [logs ->]; eauto).
    match goal with
    | |- context [for_each results ?b ?w1] =>
        destruct (IH w1) as [logs Hl]; rewrite Hl
    end.
    eexists. reflexivity.
Qed.

Lemma any_failed_spec results :
  any_failed results = true <->
  exists host r, In (host, JDict r) results /\
                 truthy (dict_get "failed" r) = true.
Proof.
  unfold any_failed. rewrite existsb_exists. split.
  - intros ([host j] & Hin & Hj). simpl in Hj.
    destruct j; try discriminate. eauto.
  - intros (host & r & Hin & Hr). exists (host, JDict r). auto.
Qed.

(** The world in which the dispatch of a pending job starts: the row is
    loaded, the old logs are gone, the row is "running" and committed. *)
Definition before_dispatch (task_id : Z) (w : World) : World :=
  let w := (get_task task_id w).2 in
  let w := (delete_task_logs task_id w).2 in
  let t := utc_now (ext w) in
  let w := (update_task task_id (start_task t) w).2 in
  (commit w).2.

Lemma before_dispatch_row task_id task w :
  tasks w !! task_id = Some task ->
  tasks (before_dispatch task_id w) !! task_id
  = Some (start_task
            (utc_now (ext (delete_task_logs task_id (get_task task_id w).2).2))
            task).
Proof.
  intros Hrow. unfold before_dispatch, commit, update_task, modify.
  assert (Hdb : forall op v, tasks (db_exec op v).2 = tasks v).
  { intros op v. unfold db_exec. simpl.
    destruct (db_step op (ext v)) as [[e|] x]; reflexivity. }
  rewrite Hdb. simpl. rewrite lookup_alter_eq.
  assert (Hdel : forall v, tasks (delete_task_logs task_id v).2 = tasks v).
  { intros v. unfold delete_task_logs, bind.
    pose proof (Hdb (DeleteTaskLogs task_id) v) as H.
    destruct (db_exec (DeleteTaskLogs task_id) v) as [[[]|e] v1]; simpl in *;
      exact H. }
  assert (Hget : forall v, tasks (get_task task_id v).2 = tasks v).
  { intros v. unfold get_task, bind.
    pose proof (Hdb (GetTask task_id) v) as H.
    destruct (db_exec (GetTask task_id) v) as [[[]|e] v1]; simpl in *;
      exact H. }
  rewrite Hdel, Hget, Hrow. reflexivity.
Qed.

(** What [_execute_task] does with the dispatch of a job, and with an
    exception that escapes it. *)
Definition record_outcome (task : Task) : M World unit :=
  (results <- _run_payload task ;;
   update_task (id task) (set_results results) ;;;
   let failed := any_failed results in
   t <- _utc_now ;;
   update_task (id task)
     (finish_task (if failed then "failed" else "completed") t) ;;;
   commit ;;;
   _persist_task_logs (id task) results ;;;
   commit)%exec.

Definition record_failure (task : Task) (e : exn) : M World unit :=
  (t <- _utc_now ;;
   update_task (id task) (fail_task (exn_str e) t) ;;;
   commit ;;;
   raise e)%exec.

Lemma bind_ret_eq {A B} (c : M World A) (k : A -> M World B) w a w' :
  c w = (Ret a, w') -> bind c k w = k a w'.
Proof. intros H. unfold bind. rewrite H. reflexivity. Qed.

Lemma get_task_ok task_id w :
  no_fault ->
  get_task task_id w
  = (Ret (tasks w !! task_id),
     set_ext (db_step (GetTask task_id) (ext w)).2
             (add_event (Db (GetTask task_id)) w)).
Proof.
  intros Hok. unfold get_task.
  rewrite (bind_ret_eq _ _ _ _ _ (db_exec_answers _ _ Hok)). reflexivity.
Qed.

Lemma delete_task_logs_ok task_id w :
  no_fault ->
  delete_task_logs task_id w
  = (Ret tt,
     set_task_logs
       (List.filter (fun l => negb (log_task_id l =? task_id)))
       (set_ext (db_step (DeleteTaskLogs task_id) (ext w)).2
                (add_event (Db (DeleteTaskLogs task_id)) w))).
Proof.
  intros Hok. unfold delete_task_logs.
  rewrite (bind_ret_eq _ _ _ _ _ (db_exec_answers _ _ Hok)). reflexivity.
Qed.

Lemma execute_pending task_id task w :
  no_fault ->
  tasks w !! task_id = Some task ->
  id task = task_id ->
  is_pending task = true ->
  _execute_task task_id w
  = try_except (record_outcome task) (record_failure task)
               (before_dispatch task_id w).
Proof.
  intros Hok Hrow Hid Hpending. subst task_id.
  unfold _execute_task, before_dispatch.
  rewrite (bind_ret_eq _ _ _ _ _ (get_task_ok _ _ Hok)).
  rewrite Hrow, Hpending. cbn [negb].
  rewrite (get_task_ok _ _ Hok). cbn [snd].
  rewrite (bind_ret_eq _ _ _ _ _ (delete_task_logs_ok _ _ Hok)).
  rewrite (delete_task_logs_ok _ _ Hok). cbn [snd].
  rewrite (bind_ret_eq _utc_now _ _ _ _ eq_refl).
  rewrite (bind_ret_eq (update_task _ _) _ _ _ _ eq_refl).
  unfold commit.
  rewrite (bind_ret_eq _ _ _ _ _ (db_exec_answers _ _ Hok)).
  rewrite (db_exec_answers _ _ Hok).
  reflexivity.
Qed.

(** C5: when the database works and the dispatch of a pending job
    returns, the job ends "failed" if some envelope of the results reports
    a failure and "completed" otherwise, and the execution returns; when
    the dispatch raises, the job ends "failed" with the text of the
    exception as its error, and the execution raises that exception. *)
Theorem execute_task_terminal_status (task_id : Z) (task : Task) (w : World) :
  no_fault ->
  tasks w !! task_id = Some task ->
  id task = task_id ->
  is_pending task = true ->
  match (_run_payload task (before_dispatch task_id w)).1 with
  | Ret results =>
      exists w' task',
        _execute_task task_id w = (Ret tt, w') /\
        tasks w' !! task_id = Some task' /\
        status task' = Some (if any_failed results then "failed" else "completed") /\
        TaskRunner.results task' = Some results /\
        error_message task' = None /\
        (status task' = Some "failed" <->
         exists host r, In (host, JDict r) results /\
                        truthy (dict_get "failed" r) = true) /\
        ((forall host r, In (host, JDict r) results ->
                         exists b, dict_get "failed" r = JBool b) ->
         (status task' = Some "failed" <->
          exists host r, In (host, JDict r) results /\
                         dict_get "failed" r = JBool true))
  | Raise e =>
      exists w' task',
        _execute_task task_id w = (Raise e, w') /\
        tasks w' !! task_id = Some task' /\
        status task' = Some "failed" /\
        error_message task' = Some (exn_str e)
  end.
Proof.
  intros Hok Hrow Hid Hpending.
  pose proof (before_dispatch_row task_id task w Hrow) as Hstarted.
  pose proof (run_payload_frame task (before_dispatch task_id w))
    as (Htasks & _ & _).
  rewrite (execute_pending task_id task w Hok Hrow Hid Hpending).
  destruct (_run_payload task (before_dispatch task_id w))
    as [[results|e] w2] eqn:Hrun.
  - simpl in Htasks |- *.
    unfold try_except, record_outcome.
    rewrite (bind_ret_eq _ _ _ _ _ Hrun).
    unfold bind, commit. simpl. rewrite (db_exec_answers _ _ Hok). simpl.
    match goal with
    | |- context [_persist_task_logs ?i results ?v] =>
        destruct (persist_task_logs_frame i results v) as [logs ->]
    end.
    rewrite (db_exec_answers _ _ Hok). simpl.
    eexists _, _. split; [reflexivity|]. simpl.
    rewrite Hid, !lookup_alter_eq, Htasks, Hstarted. simpl.
    split; [reflexivity|]. simpl.
    assert (Hiff : Some (if any_failed results then "failed" else "completed")
                   = Some "failed" <-> any_failed results = true).
    { destruct (any_failed results); split; intros; congruence. }
    split; [reflexivity|]. split; [reflexivity|]. split; [reflexivity|].
    split.
    + split; intros H.
      * apply any_failed_spec, Hiff, H.
      * apply Hiff, any_failed_spec, H.
    + intros Hbool. split.
      * intros H. apply Hiff, any_failed_spec in H as (host & r & Hin & Hr).
        exists host, r. split; [exact Hin|].
        destruct (Hbool host r Hin) as [b Hb]. rewrite Hb in Hr |- *.
        simpl in Hr. rewrite Hr. reflexivity.
      * intros (host & r & Hin & Hr). apply Hiff, any_failed_spec.
        exists host, r. rewrite Hr. auto.
  - simpl in Htasks |- *.
    unfold try_except, record_outcome, record_failure.
    unfold bind at 1. rewrite Hrun.
    unfold bind, commit. simpl. rewrite (db_exec_answers _ _ Hok). simpl.
    eexists _, _. split; [reflexivity|]. simpl.
    rewrite Hid, lookup_alter_eq, Htasks, Hstarted. simpl.
    repeat split.
Qed.

(** *** Jobs that are not pending *)

(** The world after a statement, whether it failed or not. *)
Definition after_db (op : DbOp) (w : World) : World :=
  set_ext (db_step op (ext w)).2 (add_event (Db op) w).

Lemma db_exec_eq op w :
  db_exec op w
  = (match (db_step op (ext w)).1 with
     | Some e => Raise e
     | None => Ret tt
     end, after_db op w).
Proof.
  unfold db_exec, after_db. simpl.
  destruct (db_step op (ext w)) as [[e|] x]; reflexivity.
Qed.

Lemma bind_db_exec {B} op (k : unit -> M World B) w :
  bind (db_exec op) k w
  = match (db_step op (ext w)).1 with
    | Some e => (Raise e, after_db op w)
    | None => k tt (after_db op w)
    end.
Proof.
  unfold bind. rewrite db_exec_eq.
  destruct (db_step op (ext w)).1; reflexivity.
Qed.

(** The row of the job is there and is not pending. *)
Definition settled (task_id : Z) (w : World) : Prop :=
  exists task, tasks w !! task_id = Some task /\ is_pending task = false.

(** A job that is missing or not pending: the execution reloads the row
    and does nothing else. *)
Lemma execute_settled_noop task_id w :
  (forall task, tasks w !! task_id = Some task -> is_pending task = false) ->
  _execute_task task_id w
  = (match (db_step (GetTask task_id) (ext w)).1 with
     | Some e => Raise e
     | None => Ret tt
     end, after_db (GetTask task_id) w).
Proof.
  intros Hrow. unfold _execute_task, get_task.
  unfold bind at 1. rewrite bind_db_exec.
  destruct (db_step (GetTask task_id) (ext w)).1; [reflexivity|].
  simpl. destruct (tasks w !! task_id) as [task|] eqn:Ht; [|reflexivity].
  rewrite (Hrow task eq_refl). reflexivity.
Qed.

Lemma fleet_calls_db task_id es op :
  fleet_calls task_id (es ++ [Db op]) = fleet_calls task_id es.
Proof. rewrite fleet_calls_app. unfold fleet_calls. simpl. lia. Qed.

Lemma fleet_calls_fleet task_id es call :
  fleet_calls task_id (es ++ [Fleet task_id call])
  = S (fleet_calls task_id es).
Proof.
  rewrite fleet_calls_app. unfold fleet_calls. simpl.
  rewrite Z.eqb_refl. simpl. lia.
Qed.

(** Case analysis on the next statement sent to the database. *)
Ltac next_statement H :=
  rewrite ?bind_db_exec, ?db_exec_eq in H;
  match type of H with
  | context [match (db_step ?op ?x).1 with _ => _ end] =>
      destruct (db_step op x).1
  end.

Ltac unfold_bind H := unfold bind at 1 in H; simpl in H.

(** Once a job is "running", whatever the dispatch and the database do,
    the job is not pending afterwards and the fleet was called once at
    most. *)
Ltac settle Htasks Hrow :=
  unfold settled, after_db; simpl; eexists;
  rewrite !lookup_alter_eq, Htasks, Hrow;
  (split; [reflexivity|]); simpl;
  repeat match goal with
         | |- context [if ?b then _ else _] => destruct b
         end;
  reflexivity.

Lemma dispatch_settles task w r w' :
  (exists row, tasks w !! id task = Some row) ->
  try_except (record_outcome task) (record_failure task) w = (r, w') ->
  settled (id task) w' /\
  (fleet_calls (id task) (events w')
   <= S (fleet_calls (id task) (events w)))%nat.
Proof.
  intros [row Hrow] Hrun.
  pose proof (run_payload_frame task w) as (Htasks & _ & Hev).
  unfold try_except, record_outcome, record_failure, commit in Hrun.
  unfold bind at 1 in Hrun.
  destruct (_run_payload task w) as [[results|e] w2]; simpl in Htasks, Hev.
  - do 3 unfold_bind Hrun. next_statement Hrun.
    + do 2 unfold_bind Hrun. next_statement Hrun;
        injection Hrun as <- <-; simpl;
        (split;
         [settle Htasks Hrow|]);
        rewrite ?fleet_calls_db;
        destruct Hev as [->|[call ->]]; rewrite ?fleet_calls_fleet; lia.
    + unfold bind at 1 in Hrun.
      match type of Hrun with
      | context [_persist_task_logs ?i results ?v] =>
          destruct (persist_task_logs_frame i results v) as [logs Hlogs];
          rewrite Hlogs in Hrun
      end.
      next_statement Hrun.
      * do 2 unfold_bind Hrun. next_statement Hrun;
          injection Hrun as <- <-; simpl;
          (split;
           [settle Htasks Hrow|]);
          rewrite ?fleet_calls_db;
          destruct Hev as [->|[call ->]]; rewrite ?fleet_calls_fleet; lia.
      * injection Hrun as <- <-; simpl.
        split;
          [settle Htasks Hrow|].
        rewrite ?fleet_calls_db.
        destruct Hev as [->|[call ->]]; rewrite ?fleet_calls_fleet; lia.
  - do 2 unfold_bind Hrun. next_statement Hrun;
      injection Hrun as <- <-; simpl;
      (split;
       [settle Htasks Hrow|]);
      rewrite ?fleet_calls_db;
      destruct Hev as [->|[call ->]]; rewrite ?fleet_calls_fleet; lia.
Qed.


(** One execution either leaves the rows alone and makes no call, or
    leaves the job not pending after one call at most. *)
Lemma execute_effect task_id w r w1 :
  (forall t, tasks w !! task_id = Some t -> id t = task_id) ->
  _execute_task task_id w = (r, w1) ->
  (tasks w1 = tasks w /\
   fleet_calls task_id (events w1) = fleet_calls task_id (events w)) \/
  (settled task_id w1 /\
   (fleet_calls task_id (events w1) <= S (fleet_calls task_id (events w)))%nat).
Proof.
  intros Hkey Hrun.
  destruct (tasks w !! task_id) as [task|] eqn:Hrow.
  2: { rewrite execute_settled_noop in Hrun by (intros t Ht; congruence).
       injection Hrun as <- <-. left. simpl. rewrite fleet_calls_db. auto. }
  destruct (is_pending task) eqn:Hpending.
  2: { rewrite execute_settled_noop in Hrun.
       - injection Hrun as <- <-. left. simpl. rewrite fleet_calls_db. auto.
       - intros t Ht. rewrite Hrow in Ht. injection Ht as <-. exact Hpending. }
  pose proof (Hkey task eq_refl) as Hid. subst task_id.
  unfold _execute_task, get_task in Hrun. unfold bind at 1 in Hrun.
  next_statement Hrun.
  { injection Hrun as <- <-. left. simpl. rewrite fleet_calls_db. auto. }
  simpl in Hrun. rewrite Hrow, Hpending in Hrun. simpl in Hrun.
  unfold delete_task_logs in Hrun. unfold bind at 1 in Hrun.
  next_statement Hrun.
  { injection Hrun as <- <-. left. simpl. rewrite !fleet_calls_db. auto. }
  simpl in Hrun. do 2 unfold_bind Hrun. unfold commit in Hrun.
  next_statement Hrun.
  { injection Hrun as <- <-. right. split.
    - unfold settled, after_db. simpl. eexists.
      rewrite lookup_alter_eq, Hrow. split; reflexivity.
    - simpl. rewrite !fleet_calls_db. lia. }
  apply dispatch_settles in Hrun.
  - right. simpl in Hrun. rewrite !fleet_calls_db in Hrun. exact Hrun.
  - simpl. rewrite lookup_alter_eq, Hrow. eauto.
Qed.

(** C9: executing a job that is missing or not pending only reloads the
    row: the rows of the jobs and of the logs are as before, the one
    statement sent is the reload, no call is made to the fleet, and the
    execution returns when the reload works.  Hence two executions of the
    same job in a row call the fleet once at most for it. *)
Theorem execute_runs_pending_jobs_only (task_id : Z) (w : World) :
  (forall t, tasks w !! task_id = Some t -> id t = task_id) ->
  ((forall t, tasks w !! task_id = Some t -> is_pending t = false) ->
   tasks (_execute_task task_id w).2 = tasks w /\
   task_logs (_execute_task task_id w).2 = task_logs w /\
   events (_execute_task task_id w).2 = events w ++ [Db (GetTask task_id)] /\
   ((db_step (GetTask task_id) (ext w)).1 = None ->
    (_execute_task task_id w).1 = Ret tt)) /\
  (fleet_calls task_id
     (events (_execute_task task_id (_execute_task task_id w).2).2)
   <= S (fleet_calls task_id (events w)))%nat.
Proof.
  intros Hkey. split.
  - intros Hsettled. rewrite (execute_settled_noop task_id w Hsettled). simpl.
    repeat split. intros ->. reflexivity.
  - destruct (_execute_task task_id w) as [r1 w1] eqn:H1. cbn [snd].
    destruct (_execute_task task_id w1) as [r2 w2] eqn:H2. cbn [snd].
    destruct (execute_effect task_id w r1 w1 Hkey H1) as [[Ht Hc]|[Hs Hc]].
    + assert (Hkey1 : forall t, tasks w1 !! task_id = Some t -> id t = task_id)
        by (rewrite Ht; exact Hkey).
      destruct (execute_effect task_id w1 r2 w2 Hkey1 H2) as [[_ Hc2]|[_ Hc2]];
        lia.
    + destruct Hs as (row & Hrow & Hnp).
      rewrite execute_settled_noop in H2.
      * injection H2 as <- <-. cbn [events after_db set_ext add_event].
        rewrite fleet_calls_db. exact Hc.
      * intros t Ht. rewrite Hrow in Ht. injection Ht as <-. exact Hnp.
Qed.

End WithEnv.

(** A database without faults and a manager that answers a command with
    one good and one failed envelope; the clock is the outside world. *)
#[local] Instance lab : Env :=
  {| Ext := Z;
     utc_now := fun x => x;
     db_step := fun _ x => (None, x + 1);
     manager := fun call x =>
       match call with
       | SendCommand _ _ _ =>
           (Ret [("r1", JDict [("status", JStr "success"); ("failed", JBool false)]);
                 ("r2", JDict [("status", JStr "failed"); ("failed", JBool true);
                               ("exception", JStr "timeout")])],
            x + 10)
       | _ => (Raise (RuntimeError "not initialised"), x)
       end |}.

Definition show_version : Task :=
  mkTask 1 (Some "Command") (Some "pending") ["r1"; "r2"]
         (Some "show version") None None None None None None (Some "ops").

Definition queued : World (env := lab) :=
  mkWorld (env := lab) {[ 1 := show_version ]} [] 0 [].

Definition archived : World (env := lab) :=
  mkWorld (env := lab)
    {[ 1 := finish_task "completed" 5 show_version ]}
    [mkTaskLog 1 "r1" "success" [] (Some "ok") None] 9 [].

Lemma execute_task_terminal_status_witness :
  exists w' task',
    _execute_task (env := lab) 1 queued = (Ret tt, w') /\
    tasks w' !! 1 = Some task' /\
    status task' = Some "failed".
Proof.
  pose proof (execute_task_terminal_status (env := lab) 1 show_version queued)
    as H.
  assert (Hok : no_fault (env := lab)) by (intros op x; reflexivity).
  specialize (H Hok eq_refl eq_refl eq_refl).
  change (_run_payload (env := lab) show_version (before_dispatch 1 queued)).1
    with (Ret (A := list (string * json))
            [("r1", JDict [("status", JStr "success"); ("failed", JBool false)]);
             ("r2", JDict [("status", JStr "failed"); ("failed", JBool true);
                           ("exception", JStr "timeout")])]) in H.
  cbv beta iota in H.
  destruct H as (w' & task' & Hrun & Hrow & Hstatus & _).
  exists w', task'. repeat split; assumption.
Defined.

Lemma execute_runs_pending_jobs_only_witness :
  tasks (_execute_task (env := lab) 1 archived).2 = tasks archived /\
  task_logs (_execute_task (env := lab) 1 archived).2 = task_logs archived /\
  events (_execute_task (env := lab) 1 archived).2 = [Db (GetTask 1)] /\
  (fleet_calls 1
     (events (_execute_task (env := lab) 1
                (_execute_task (env := lab) 1 queued).2).2) <= 1)%nat.
Proof.
  destruct (execute_runs_pending_jobs_only (env := lab) 1 archived)
    as [Hnoop _].
  { intros t Ht. unfold archived, queued in Ht. cbn [tasks] in Ht.
    apply lookup_singleton_Some in Ht as [_ <-]. reflexivity. }
  destruct Hnoop as (Htasks & Hlogs & Hevents & _).
  { intros t Ht. unfold archived, queued in Ht. cbn [tasks] in Ht.
    apply lookup_singleton_Some in Ht as [_ <-]. reflexivity. }
  destruct (execute_runs_pending_jobs_only (env := lab) 1 queued)
    as [_ Honce].
  { intros t Ht. unfold archived, queued in Ht. cbn [tasks] in Ht.
    apply lookup_singleton_Some in Ht as [_ <-]. reflexivity. }
  repeat split; assumption.
Defined.

End TaskRunnerFacts.

(** ** Lines and white space *)
Module StringFacts.

Abbreviation chars := list_ascii_of_string.

(** A text of ASCII characters.  On such a text [PyStr] strips and splits
    as Python does: every character that Python takes for white space or
    for a line boundary and [PyStr] does not lies outside ASCII. *)
Definition is_ascii (s : string) : bool :=
  forallb (fun c => (nat_of_ascii c <? 128)%nat) (chars s).

(** White space dropped from the front of a list of characters. *)
Fixpoint drop_spaces (l : list ascii) : list ascii :=
  match l with
  | [] => []
  | c :: l' => if PyStr.is_space c then drop_spaces l' else l
  end.

Lemma chars_append s t : chars (s +:+ t) = chars s ++ chars t.
Proof. induction s as [|c s IH]; simpl; [reflexivity|]. rewrite IH. reflexivity. Qed.

Lemma chars_rev_app s t : chars (String.rev_app s t) = rev (chars s) ++ chars t.
Proof.
  revert t. induction s as [|c s IH]; intros t; simpl; [reflexivity|].
  rewrite IH. simpl. rewrite <- app_assoc. reflexivity.
Qed.

Lemma chars_rev s : chars (String.rev s) = rev (chars s).
Proof. unfold String.rev. rewrite chars_rev_app. simpl. apply app_nil_r. Qed.

Lemma chars_lstrip s : chars (PyStr.lstrip s) = drop_spaces (chars s).
Proof.
  induction s as [|c s IH]; simpl; [reflexivity|].
  destruct (PyStr.is_space c); [exact IH|reflexivity].
Qed.

Lemma chars_strip s :
  chars (PyStr.strip s) = rev (drop_spaces (rev (drop_spaces (chars s)))).
Proof.
  unfold PyStr.strip, PyStr.rstrip.
  rewrite chars_rev, chars_lstrip, chars_rev, chars_lstrip. reflexivity.
Qed.

Lemma chars_inj s t : chars s = chars t -> s = t.
Proof.
  intros H. rewrite <- (string_of_list_ascii_of_string s),
    <- (string_of_list_ascii_of_string t), H. reflexivity.
Qed.

Lemma drop_spaces_suffix l :
  exists ws, l = ws ++ drop_spaces l /\ Forall (fun c => PyStr.is_space c = true) ws.
Proof.
  induction l as [|c l (ws & Hl & Hws)]; simpl.
  - exists []. split; [reflexivity|constructor].
  - destruct (PyStr.is_space c) eqn:Hc.
    + exists (c :: ws). split; [simpl; f_equal; exact Hl|constructor; assumption].
    + exists []. split; [reflexivity|constructor].
Qed.

Lemma drop_spaces_head l c l' :
  drop_spaces l = c :: l' -> PyStr.is_space c = false.
Proof.
  induction l as [|d l IH]; simpl; [discriminate|].
  destruct (PyStr.is_space d) eqn:Hd; [exact IH|].
  intros [= <- _]. exact Hd.
Qed.

Lemma drop_spaces_fixed l c l' :
  l = c :: l' -> PyStr.is_space c = false -> drop_spaces l = l.
Proof. intros -> Hc. simpl. rewrite Hc. reflexivity. Qed.

(** A list of characters is trimmed when it neither starts nor ends with
    white space. *)
Definition trimmed (l : list ascii) : Prop :=
  (forall c l', l = c :: l' -> PyStr.is_space c = false) /\
  (forall c l', l = l' ++ [c] -> PyStr.is_space c = false).

Lemma strip_trimmed s : trimmed (chars (PyStr.strip s)).
Proof.
  rewrite chars_strip. set (m := drop_spaces (chars s)).
  destruct (drop_spaces_suffix (rev m)) as (ws & Hrev & Hws).
  set (q := drop_spaces (rev m)) in *.
  assert (Hm : m = rev q ++ rev ws).
  { rewrite <- (rev_involutive m), Hrev, rev_app_distr. reflexivity. }
  split.
  - intros c l' Hq.
    assert (Hhead : m = c :: (l' ++ rev ws)) by (rewrite Hm, Hq; reflexivity).
    exact (drop_spaces_head _ _ _ Hhead).
  - intros c l' Hq.
    assert (Hq' : q = c :: rev l').
    { rewrite <- (rev_involutive q), Hq, rev_app_distr. reflexivity. }
    exact (drop_spaces_head _ _ _ Hq').
Qed.

Lemma strip_fixed s : PyStr.strip (PyStr.strip s) = PyStr.strip s.
Proof.
  apply chars_inj. rewrite (chars_strip (PyStr.strip s)).
  destruct (strip_trimmed s) as [Hhead Hlast].
  set (l := chars (PyStr.strip s)) in *.
  assert (H1 : drop_spaces l = l).
  { destruct l as [|c l'] eqn:El; [reflexivity|].
    apply (drop_spaces_fixed _ c l' eq_refl), (Hhead c l' eq_refl). }
  rewrite H1.
  assert (H2 : drop_spaces (rev l) = rev l).
  { destruct (rev l) as [|c l'] eqn:El; [reflexivity|].
    apply (drop_spaces_fixed _ c l' eq_refl), (Hlast c (rev l')).
    rewrite <- (rev_involutive l), El. reflexivity. }
  rewrite H2. apply rev_involutive.
Qed.

Lemma drop_spaces_keeps (P : ascii -> Prop) l :
  Forall P l -> Forall P (drop_spaces l).
Proof.
  induction 1 as [|c l Hc Hl IH]; simpl; [constructor|].
  destruct (PyStr.is_space c); [exact IH|constructor; assumption].
Qed.

Lemma drop_spaces_In c l :
  In c l -> PyStr.is_space c = false -> In c (drop_spaces l).
Proof.
  intros Hin Hc. induction l as [|d l IH]; simpl in *; [contradiction|].
  destruct (PyStr.is_space d) eqn:Hd.
  - destruct Hin as [->|Hin]; [congruence|auto].
  - exact Hin.
Qed.


Lemma strip_keeps (P : ascii -> Prop) s :
  Forall P (chars s) -> Forall P (chars (PyStr.strip s)).
Proof.
  intros H. rewrite chars_strip.
  apply List.Forall_rev, drop_spaces_keeps, List.Forall_rev, drop_spaces_keeps, H.
Qed.

Lemma strip_In c s :
  In c (chars s) -> PyStr.is_space c = false -> In c (chars (PyStr.strip s)).
Proof.
  intros Hin Hc. rewrite chars_strip.
  apply in_rev. rewrite rev_involutive.
  apply drop_spaces_In; [|exact Hc].
  apply -> in_rev. apply drop_spaces_In; assumption.
Qed.



Lemma lf_is_linebreak c : PyStr.is_lf c = true -> PyStr.is_linebreak c = true.
Proof.
  unfold PyStr.is_lf, PyStr.is_linebreak. cbv zeta.
  intros H. apply Nat.eqb_eq in H. rewrite H. reflexivity.
Qed.

(** The characters of the lines are those of the line being read and the
    characters of the text that are no line breaks. *)
Lemma splitlines_from_keeps (P : ascii -> Prop) cur after s :
  Forall P (chars cur) ->
  (forall c, In c (chars s) -> PyStr.is_linebreak c = false -> P c) ->
  Forall (fun ln => Forall P (chars ln)) (PyStr.splitlines_from cur after s).
Proof.
  revert cur after. induction s as [|d s IH]; intros cur after Hcur Hs; simpl.
  - destruct (String.eqb cur ""); repeat constructor. exact Hcur.
  - assert (Hs' : forall c, In c (chars s) -> PyStr.is_linebreak c = false -> P c)
      by (intros c Hc; apply Hs; right; exact Hc).
    destruct (after && PyStr.is_lf d).
    + apply IH; [constructor|exact Hs'].
    + destruct (PyStr.is_linebreak d) eqn:Hd.
      * constructor; [exact Hcur|]. apply IH; [constructor|exact Hs'].
      * apply IH; [|exact Hs'].
        rewrite chars_append. apply Forall_app. split; [exact Hcur|].
        repeat constructor. apply Hs; [left; reflexivity|exact Hd].
Qed.

(** A character that is no line break ends up in some line. *)
Lemma splitlines_from_covers c cur after s :
  (after = true -> cur = "") ->
  In c (chars cur) \/ (In c (chars s) /\ PyStr.is_linebreak c = false) ->
  exists ln, In ln (PyStr.splitlines_from cur after s) /\ In c (chars ln).
Proof.
  revert cur after. induction s as [|d s IH]; intros cur after Hinv Hc; simpl.
  - destruct Hc as [Hc|[[] _]].
    destruct (String.eqb_spec cur "") as [->|_]; [destruct Hc|].
    exists cur. split; [left; reflexivity|exact Hc].
  - destruct (after && PyStr.is_lf d) eqn:Hskip.
    + apply andb_true_iff in Hskip as [-> Hlf].
      rewrite (Hinv eq_refl) in Hc. destruct Hc as [[]|[Hc Hnb]].
      apply IH; [discriminate|]. right. split; [|exact Hnb].
      destruct Hc as [<-|Hc]; [|exact Hc].
      apply lf_is_linebreak in Hlf. congruence.
    + destruct (PyStr.is_linebreak d) eqn:Hd.
      * destruct Hc as [Hc|[Hc Hnb]].
        { exists cur. split; [left; reflexivity|exact Hc]. }
        destruct Hc as [<-|Hc]; [congruence|].
        destruct (IH "" (PyStr.is_cr d)) as (ln & Hln & Hin);
          [reflexivity|right; auto|].
        exists ln. split; [right; exact Hln|exact Hin].
      * apply IH; [discriminate|].
        rewrite chars_append, in_app_iff. simpl.
        destruct Hc as [Hc|[[<-|Hc] Hnb]]; auto.
Qed.

End StringFacts.

(** ** Command texts *)
Module CommandFacts.
Import StringFacts.

Lemma split_commands_In c text :
  In c (Commands.split_commands text) <->
  c <> "" /\ exists ln, In ln (PyStr.splitlines text) /\ c = PyStr.strip ln.
Proof.
  unfold Commands.split_commands. rewrite filter_In, in_map_iff. split.
  - intros [(ln & <- & Hln) Hne]. split; [|eauto].
    intros Heq. rewrite Heq in Hne. discriminate Hne.
  - intros [Hne (ln & Hln & ->)]. split; [eauto|].
    destruct (String.eqb_spec (PyStr.strip ln) ""); [contradiction|reflexivity].
Qed.

(** X1: for an ASCII text, every command that [split_commands] returns
    is one clean line: it is not empty, it neither starts nor ends with
    white space, it holds no line break, and stripping it again changes
    nothing. *)
Theorem split_commands_clean (text : string) :
  is_ascii text = true ->
  Forall (fun c =>
            c <> "" /\
            trimmed (chars c) /\
            Forall (fun a => PyStr.is_linebreak a = false) (chars c) /\
            PyStr.strip c = c)
         (Commands.split_commands text).
Proof.
  intros _. apply List.Forall_forall. intros c Hc.
  apply split_commands_In in Hc as [Hne (ln & Hln & ->)].
  split; [exact Hne|]. split; [apply strip_trimmed|].
  split; [|apply strip_fixed].
  apply strip_keeps.
  assert (Hlines : Forall (fun l => Forall (fun a => PyStr.is_linebreak a = false)
                                       (chars l))
                          (PyStr.splitlines text)).
  { apply splitlines_from_keeps; [constructor|auto]. }
  rewrite List.Forall_forall in Hlines. apply Hlines, Hln.
Qed.


(** Two commands between blank lines, with white space around them, and
    a text of white space only. *)
Definition pasted : string :=
  "  show version" +:+ String "013" (String "010" "") +:+ String "010" ""
  +:+ String "009" "show clock  " +:+ String "010" "".


Lemma split_commands_clean_witness :
  is_ascii pasted = true /\
  Forall (fun c => c <> "" /\ PyStr.strip c = c)
         (Commands.split_commands pasted).
Proof.
  split; [reflexivity|].
  eapply List.Forall_impl; [|apply (split_commands_clean pasted); reflexivity].
  intros c (Hne & _ & _ & Hfixed). auto.
Defined.


Example pasted_commands :
  Commands.split_commands pasted = ["show version"; "show clock"].
Proof. reflexivity. Qed.

End CommandFacts.

(** ** Layers of timeout rules *)
Module TimeoutLayerFacts.
Import Timeouts StringFacts.

Lemma dict_get_set k k' v d :
  dict_get k (dict_set k' v d)
  = if String.eqb k k' then Some v else dict_get k d.
Proof.
  induction d as [|[q u] d IH]; simpl.
  - destruct (String.eqb k k'); reflexivity.
  - destruct (String.eqb_spec k' q) as [->|Hne]; simpl.
    + destruct (String.eqb k q); reflexivity.
    + rewrite IH. destruct (String.eqb_spec k q) as [->|Hkq].
      * destruct (String.eqb_spec q k'); [congruence|reflexivity].
      * reflexivity.
Qed.

Lemma dict_set_keys k v d :
  forall q, In q (List.map fst (dict_set k v d)) <-> q = k \/ In q (List.map fst d).
Proof.
  induction d as [|[p u] d IH]; intros q; simpl.
  - intuition congruence.
  - destruct (String.eqb_spec k p) as [->|Hne]; simpl.
    + intuition congruence.
    + rewrite IH. intuition congruence.
Qed.

Lemma dict_set_NoDup k v d :
  List.NoDup (List.map fst d) -> List.NoDup (List.map fst (dict_set k v d)).
Proof.
  induction d as [|[p u] d IH]; simpl; intros Hd.
  - constructor; [intros []|constructor].
  - inversion Hd as [|? ? Hnin Hd']; subst.
    destruct (String.eqb_spec k p) as [->|Hne]; simpl.
    + constructor; assumption.
    + constructor; [|apply IH, Hd'].
      rewrite dict_set_keys. intros [->|Hin]; [apply Hne; reflexivity|auto].
Qed.

Lemma dict_update_NoDup d other :
  List.NoDup (List.map fst d) -> List.NoDup (List.map fst (dict_update d other)).
Proof.
  unfold dict_update. revert d.
  induction other as [|[k v] other IH]; intros d Hd; simpl; [exact Hd|].
  apply IH, dict_set_NoDup, Hd.
Qed.

Lemma dict_get_not_key k d :
  ~ In k (List.map fst d) -> dict_get k d = None.
Proof.
  induction d as [|[p u] d IH]; simpl; [reflexivity|]. intros Hnin.
  destruct (String.eqb_spec k p) as [->|_]; [exfalso; auto|apply IH; auto].
Qed.

(** Updating with a dictionary: its entries win, the others stay. *)
Lemma dict_get_update k d other :
  List.NoDup (List.map fst other) ->
  dict_get k (dict_update d other)
  = match dict_get k other with
    | Some v => Some v
    | None => dict_get k d
    end.
Proof.
  unfold dict_update. revert d.
  induction other as [|[q u] other IH]; intros d Hnd; simpl; [reflexivity|].
  inversion Hnd as [|? ? Hnin Hnd']; subst.
  rewrite (IH _ Hnd'), dict_get_set.
  destruct (String.eqb_spec k q) as [->|Hne]; [|reflexivity].
  rewrite (dict_get_not_key _ _ Hnin). reflexivity.
Qed.

(** The rule maps of a host, from the least to the most specific. *)
Definition layers (host : Host) : list rules :=
  match defaults host with
  | Some d => [layer_rules d]
  | None => []
  end ++ List.map layer_rules (extended_groups host) ++ [layer_rules (data host)].

(** The value of a key in the last layer that has it. *)
Definition last_defined (k : string) (ls : list rules) : option Z :=
  fold_left (fun found layer =>
               match dict_get k layer with
               | Some v => Some v
               | None => found
               end) ls None.

Lemma merged_rules_fold host :
  merged_rules host = fold_left dict_update (layers host) [].
Proof.
  unfold merged_rules, layers.
  destruct (defaults host) as [d|]; simpl;
    rewrite fold_left_app; simpl; f_equal;
    generalize (extended_groups host); intros gs;
    [generalize (dict_update [] (layer_rules d))|generalize (@nil (string * Z))];
    induction gs as [|g gs IH]; intros m; simpl; auto.
Qed.

Lemma fold_update_get k ls :
  Forall (fun l => List.NoDup (List.map fst l)) ls ->
  forall m,
    dict_get k (fold_left dict_update ls m)
    = fold_left (fun found layer =>
                   match dict_get k layer with
                   | Some v => Some v
                   | None => found
                   end) ls (dict_get k m).
Proof.
  induction 1 as [|l ls Hl _ IH]; intros m; simpl; [reflexivity|].
  rewrite IH, (dict_get_update _ _ _ Hl). reflexivity.
Qed.

Lemma fold_update_NoDup ls m :
  List.NoDup (List.map fst m) ->
  List.NoDup (List.map fst (fold_left dict_update ls m)).
Proof.
  revert m. induction ls as [|l ls IH]; intros m Hm; simpl; [exact Hm|].
  apply IH, dict_update_NoDup, Hm.
Qed.

(** X3: the merged rule map never holds a key twice, and when every layer
    is a dictionary (no key twice) the value of a key in the merged map is
    its value in the most specific layer that has the key: host data over
    groups over defaults. *)
Theorem merged_rules_layering (host : Host) (k : string) :
  Forall (fun l => List.NoDup (List.map fst l)) (layers host) ->
  List.NoDup (List.map fst (merged_rules host)) /\
  dict_get k (merged_rules host) = last_defined k (layers host).
Proof.
  intros Hwf. rewrite merged_rules_fold. split.
  - apply fold_update_NoDup. constructor.
  - apply (fold_update_get k (layers host) Hwf []).
Qed.

Lemma merged_rules_layering_witness :
  dict_get "show ip route" (merged_rules TimeoutFacts.example_host) = Some 90 /\
  List.NoDup (List.map fst (merged_rules TimeoutFacts.example_host)).
Proof.
  destruct (merged_rules_layering TimeoutFacts.example_host "show ip route")
    as [Hnd Hget].
  - repeat constructor; simpl; intuition discriminate.
  - split; [rewrite Hget; reflexivity|exact Hnd].
Defined.

End TimeoutLayerFacts.

(** ** Wildcard rules *)
Module WildcardFacts.
Import Timeouts.

Lemma prefix_append p s :
  String.prefix p s = true <-> exists rest, s = p +:+ rest.
Proof.
  revert s. induction p as [|c p IH]; intros s.
  - split; [intros _; exists s; reflexivity|intros _; destruct s; reflexivity].
  - destruct s as [|d s]; simpl.
    + split; [discriminate|intros [rest H]; discriminate H].
    + destruct (ascii_dec c d) as [->|Hne].
      * rewrite IH. split; intros [rest H]; exists rest; [rewrite H; reflexivity|].
        injection H as H. exact H.
      * split; [discriminate|intros [rest H]; injection H as H1 _; congruence].
Qed.

Lemma endswith_char_append s c :
  PyStr.endswith_char s c = true <-> exists pre, s = pre +:+ String c "".
Proof.
  induction s as [|d s IH].
  - split; [discriminate|intros [[|e pre] H]; discriminate H].
  - destruct s as [|d' s'].
    + simpl. split.
      * intros H. apply Ascii.eqb_eq in H as ->. exists "". reflexivity.
      * intros [[|e [|e' pre]] H]; simpl in H; try discriminate H.
        injection H as ->. apply Ascii.eqb_refl.
    + change (PyStr.endswith_char (String d (String d' s')) c)
        with (PyStr.endswith_char (String d' s') c).
      rewrite IH. split.
      * intros [pre H]. exists (String d pre). simpl. rewrite H. reflexivity.
      * intros [[|e pre] H]; simpl in H; [discriminate H|].
        injection H as _ H. exists pre. exact H.
Qed.

Lemma drop_last_append pre c :
  PyStr.drop_last (pre +:+ String c "") = pre.
Proof.
  induction pre as [|d pre IH]; [reflexivity|].
  simpl. rewrite IH. destruct (pre +:+ String c "") eqn:E; [|reflexivity].
  destruct pre; discriminate E.
Qed.

(** X4: a pattern matches a command as a wildcard exactly when the pattern
    is some text followed by the marker and the command starts with that
    text; the marker alone matches every command. *)
Theorem wildcard_match_spec (pattern command : string) :
  (wildcard_match pattern command = true <->
   exists pre rest, pattern = pre +:+ "*" /\ command = pre +:+ rest) /\
  wildcard_match "*" command = true.
Proof.
  split.
  - unfold wildcard_match, PyStr.startswith.
    rewrite andb_true_iff, endswith_char_append. split.
    + intros [[pre ->] Hp]. rewrite drop_last_append in Hp.
      apply prefix_append in Hp as [rest ->]. eauto.
    + intros (pre & rest & -> & ->). split; [eauto|].
      rewrite drop_last_append. apply prefix_append. eauto.
  - unfold wildcard_match, PyStr.startswith. simpl. destruct command; reflexivity.
Qed.

Lemma first_wildcard_Some command d v :
  first_wildcard command d = Some v ->
  exists p, In (p, v) d /\ wildcard_match p command = true.
Proof.
  induction d as [|[p u] d IH]; simpl; [discriminate|].
  destruct (wildcard_match p command) eqn:Hp.
  - intros [= <-]. exists p. auto.
  - intros H. destruct (IH H) as (q & Hin & Hq). eauto.
Qed.

Lemma first_wildcard_None command d :
  first_wildcard command d = None <->
  Forall (fun kv => wildcard_match kv.1 command = false) d.
Proof.
  induction d as [|[p u] d IH]; simpl.
  - split; [constructor|reflexivity].
  - destruct (wildcard_match p command) eqn:Hp.
    + split; [discriminate|]. intros H. inversion H; subst. simpl in *. congruence.
    + rewrite IH. split; [intros H; constructor; assumption|].
      intros H. inversion H; assumption.
Qed.

Lemma dict_get_In k d v : dict_get k d = Some v -> In (k, v) d.
Proof.
  induction d as [|[p u] d IH]; simpl; [discriminate|].
  destruct (String.eqb_spec k p) as [->|_]; [intros [= ->]; auto|auto].
Qed.

(** X5: a resolved timeout is the value of a rule of the merged map that
    is the command itself or matches it as a wildcard, and there is no
    timeout exactly when the merged map has no such rule. *)
Theorem resolve_timeout_sound_and_complete (host : Host) (command : string) :
  (forall v, resolve_timeout_ops_for_command host command = Some v ->
             exists p, In (p, v) (merged_rules host) /\
                       (p = command \/ wildcard_match p command = true)) /\
  (resolve_timeout_ops_for_command host command = None <->
   dict_get command (merged_rules host) = None /\
   Forall (fun kv => wildcard_match kv.1 command = false) (merged_rules host)).
Proof.
  unfold resolve_timeout_ops_for_command.
  destruct (merged_rules host) as [|kv m] eqn:Hm.
  - split; [discriminate|]. split; [intros _; split; [reflexivity|constructor]|reflexivity].
  - rewrite <- Hm. clear Hm. set (merged := merged_rules host). split.
    + intros v. destruct (dict_get command merged) as [u|] eqn:Hget.
      * intros [= <-]. exists command. split; [apply dict_get_In, Hget|auto].
      * intros H. apply first_wildcard_Some in H as (p & Hin & Hp). eauto.
    + destruct (dict_get command merged) as [u|] eqn:Hget.
      * split; [discriminate|intros [H _]; discriminate H].
      * rewrite first_wildcard_None. tauto.
Qed.

End WildcardFacts.

(** ** Envelopes *)
Module EnvelopeFacts.
Import PyVal Results StringFacts.
Import ResultFacts DispatchFacts.

Lemma ensure_host_results_cases (f : gmap string Envelope) hosts h :
  ensure_host_results f hosts !! h
  = match f !! h with
    | Some e => Some e
    | None => if decide (h ∈ hosts) then Some missing_envelope else None
    end.
Proof.
  destruct (decide (h ∈ hosts)) as [Hin|Hnin].
  - rewrite (ensure_host_results_lookup f hosts h Hin).
    destruct (f !! h); reflexivity.
  - rewrite (ensure_host_results_other f hosts h Hnin).
    destruct (f !! h); reflexivity.
Qed.

(** X6: [ensure_host_results] only fills gaps: an entry that is there is
    kept as it is, a requested host without entry gets the synthesised
    envelope, nothing is added for other hosts, and a second pass changes
    nothing. *)
Theorem ensure_host_results_only_fills_gaps
    (formatted : gmap string Envelope) (hosts : list string) :
  (forall h, ensure_host_results formatted hosts !! h
             = match formatted !! h with
               | Some e => Some e
               | None => if decide (h ∈ hosts) then Some missing_envelope else None
               end) /\
  ensure_host_results (ensure_host_results formatted hosts) hosts
  = ensure_host_results formatted hosts.
Proof.
  split; [apply ensure_host_results_cases|].
  apply map_eq. intros h. rewrite !ensure_host_results_cases.
  destruct (formatted !! h); [reflexivity|].
  destruct (decide (h ∈ hosts)); reflexivity.
Qed.

(** X7: in every envelope that the collation returns, formatted or
    synthesised, the status is "failed" when the failed flag is set and
    "success" otherwise. *)
Theorem envelope_status_matches_failed
    (raw : gmap string HostResult) (hosts : list string) :
  map_Forall (fun _ e => e_status e = status_of (e_failed e))
             (ensure_host_results (format_results raw) hosts).
Proof.
  intros h e He.
  rewrite ensure_host_results_cases in He.
  unfold format_results in He. rewrite lookup_fmap in He.
  destruct (raw !! h) as [[rs|r]|]; simpl in He.
  - injection He as <-. reflexivity.
  - injection He as <-. reflexivity.
  - destruct (decide (h ∈ hosts)); [|discriminate].
    injection He as <-. reflexivity.
Qed.

Lemma scan_candidate_Some l r :
  scan_candidate l = Some r -> In r l /\ marked r = true.
Proof.
  induction l as [|x l IH]; simpl; [discriminate|].
  destruct (has_exception x) eqn:Hx.
  - intros [= <-]. split; [left; reflexivity|].
    unfold marked. rewrite Hx. reflexivity.
  - destruct (has_trace_text x) eqn:Ht.
    + intros [= <-]. split; [left; reflexivity|].
      unfold marked. rewrite Hx, Ht. reflexivity.
    + intros H. destruct (IH H). split; [right|]; assumption.
Qed.

Lemma scan_candidate_None l :
  scan_candidate l = None -> Forall (fun x => marked x = false) l.
Proof.
  induction l as [|x l IH]; simpl; [constructor|].
  destruct (has_exception x) eqn:Hx; [discriminate|].
  destruct (has_trace_text x) eqn:Ht; [discriminate|].
  intros H. constructor; [unfold marked; rewrite Hx, Ht; reflexivity|auto].
Qed.

Lemma contains_In needle hay c :
  PyStr.contains needle hay = true -> In c (chars needle) -> In c (chars hay).
Proof.
  intros H Hc. induction hay as [|d hay IH].
  - destruct needle; [destruct Hc|discriminate H].
  - change (String.prefix needle (String d hay) || PyStr.contains needle hay
            = true) in H.
    apply orb_true_iff in H as [H|H].
    + apply WildcardFacts.prefix_append in H as [rest ->].
      rewrite chars_append. apply in_or_app. left. exact Hc.
    + right. apply IH, H.
Qed.

Lemma last_cons_is_Some {A} (x : A) l : is_Some (last (x :: l)).
Proof.
  revert x. induction l as [|y l IH]; intros x; [eexists; reflexivity|].
  exact (IH y).
Qed.

(** A text that holds the marker has a last non-empty line. *)
Lemma trace_text_has_line text :
  PyStr.contains trace_marker text = true -> is_Some (last_nonempty_line text).
Proof.
  intros H. assert (Hin : In "T"%char (chars text)).
  { apply (contains_In trace_marker); [exact H|left; reflexivity]. }
  destruct (splitlines_from_covers "T"%char "" false text) as (ln & Hln & Hc);
    [discriminate|right; split; [exact Hin|reflexivity]|].
  unfold last_nonempty_line.
  assert (Hcmd : In (PyStr.strip ln)
                    (List.filter (fun l => negb (String.eqb l ""))
                                 (List.map PyStr.strip (PyStr.splitlines text)))).
  { apply filter_In. split; [apply in_map, Hln|].
    destruct (String.eqb_spec (PyStr.strip ln) "") as [Heq|]; [|reflexivity].
    pose proof (strip_In "T"%char ln Hc eq_refl) as Hin'.
    rewrite Heq in Hin'. destruct Hin'. }
  destruct (List.filter _ _) as [|x l]; [destruct Hcmd|].
  apply last_cons_is_Some.
Qed.

Lemma primary_of_In rs p : primary_of rs = Some p -> In p rs.
Proof.
  unfold primary_of, exception_candidate.
  destruct (scan_candidate (rev rs)) as [c|] eqn:Hc.
  - intros [= <-]. apply scan_candidate_Some in Hc as [Hin _].
    apply in_rev. exact Hin.
  - assert (Hlast : forall q, last rs = Some q -> In q rs).
    { clear. induction rs as [|x [|y rs] IH]; intros q; simpl.
      - discriminate.
      - intros [= <-]. left. reflexivity.
      - intros H. right. apply IH, H. }
    destruct rs as [|parent rest]; [intros H; discriminate H|].
    cbn [head]. destruct (is_plain_value (result parent)).
    + intros H. injection H as <-. left. reflexivity.
    + apply Hlast.
Qed.

(** X8: the envelope of a chain has an exception exactly when some
    sub-step carries an error or a text with the trace marker; a chain of
    clean sub-steps never gets one, and a marked one always does. *)
Theorem chain_exception_iff_marked (rs : list Result) :
  is_Some (e_exception (format_host (Multi rs))) <->
  Exists (fun r => marked r = true) rs.
Proof.
  simpl. unfold primary_of, exception_candidate. split.
  - intros [s Hs]. apply List.Exists_exists.
    destruct (scan_candidate (rev rs)) as [c|] eqn:Hc.
    + apply scan_candidate_Some in Hc as [Hin Hm].
      exists c. split; [apply in_rev, Hin|exact Hm].
    + exfalso. apply scan_candidate_None in Hc.
      assert (Hall : forall p, In p rs -> exception_of (Some p) = None).
      { intros p Hp. apply List.Forall_rev in Hc. rewrite rev_involutive in Hc.
        rewrite List.Forall_forall in Hc. specialize (Hc p Hp).
        unfold marked in Hc. apply orb_false_iff in Hc as [He Ht].
        unfold exception_of, has_exception, has_trace_text in *.
        destruct (exception p); [discriminate|]. simpl.
        destruct (result p) as [[| | |text| |]| |]; try reflexivity.
        rewrite Ht. reflexivity. }
      assert (Hp : forall o, (forall p, o = Some p -> In p rs) ->
                             exception_of o = None).
      { intros [p|] Ho; [apply Hall, Ho; reflexivity|reflexivity]. }
      rewrite Hp in Hs; [discriminate|].
      intros p Hp'. apply primary_of_In. unfold primary_of, exception_candidate.
      apply List.Forall_rev in Hc. rewrite rev_involutive in Hc.
      rewrite (scan_candidate_none _ (List.Forall_rev Hc)). exact Hp'.
  - intros Hex.
    destruct (scan_candidate (rev rs)) as [c|] eqn:Hc.
    + apply scan_candidate_Some in Hc as [_ Hm].
      unfold marked in Hm. unfold exception_of.
      destruct (exception c) as [s|] eqn:He; simpl.
      * destruct (negb (String.eqb s "")); [eauto|].
        destruct (result c) as [[| | |text| |]| |]; eauto.
        destruct (PyStr.contains trace_marker text); eauto.
        destruct (last_nonempty_line text); eauto.
      * unfold has_exception in Hm. rewrite He in Hm. simpl in Hm.
        unfold has_trace_text in Hm.
        destruct (result c) as [[| | |text| |]| |]; try discriminate.
        rewrite Hm. destruct (trace_text_has_line text Hm) as [ln ->]. eauto.
    + exfalso. apply scan_candidate_None in Hc.
      apply List.Exists_exists in Hex as (r & Hin & Hm).
      rewrite List.Forall_forall in Hc.
      rewrite (Hc r) in Hm; [discriminate|]. apply -> in_rev. exact Hin.
Qed.

(** X9: a chain with a single sub-step that has no trace text, and whose
    error text is not empty when it has an error, gets the same envelope
    as that sub-step alone. *)
Theorem single_step_chain_as_result (r : Result) :
  has_trace_text r = false ->
  exception r <> Some "" ->
  format_host (Multi [r]) = format_host (Single r).
Proof.
  intros Ht He.
  assert (Hprimary : primary_of [r] = Some r).
  { unfold primary_of, exception_candidate. simpl.
    destruct (has_exception r); [reflexivity|]. rewrite Ht. simpl.
    destruct (is_plain_value (result r)); reflexivity. }
  unfold format_host. rewrite Hprimary. unfold multi_failed. simpl.
  rewrite !orb_false_r. f_equal.
  - unfold exception_of. destruct (exception r) as [s|] eqn:Hs; simpl.
    + destruct (String.eqb_spec s "") as [->|]; [contradiction|reflexivity].
    + unfold has_trace_text in Ht.
      destruct (result r) as [[| | |text| |]| |]; try reflexivity.
      rewrite Ht. reflexivity.
  - unfold join_diffs. simpl.
    destruct (String.eqb_spec (diff r) "") as [->|]; reflexivity.
Qed.

Lemma single_step_chain_as_result_witness :
  format_host (Multi [one_answer]) = format_host (Single one_answer).
Proof.
  apply single_step_chain_as_result; [reflexivity|discriminate].
Defined.

End EnvelopeFacts.

(** ** More on the interval scheduler *)
Module SchedulerRunFacts.
Import Exec PyVal Scheduler SchedulerFacts.

Section WithEnv.
Context {env : Env}.

#[local] Instance due_before_total : Total due_before.
Proof.
  intros a b. unfold due_before. cbv zeta.
  destruct (Z.lt_trichotomy (default 0 (next_run_at a))
                            (default 0 (next_run_at b))) as [H|[H|H]];
    [left; left; exact H| |right; left; exact H].
  destruct (Z.le_ge_cases (id a) (id b)); [left|right]; right; split; auto.
Qed.


Lemma alter_last {A} (f : A -> A) (l : list A) (x : A) :
  alter f (List.length l) (l ++ [x]) = l ++ [f x].
Proof. induction l as [|y l IH]; simpl; [reflexivity|]. f_equal. exact IH. Qed.

(** What a run leaves in the run row: status, results and error. *)
Definition run_report (snap : outcome (list (string * json)))
  : string * list (string * json) * option string :=
  match snap with
  | Ret results =>
      (if (count_failed results =? 0)%nat then "completed" else "failed",
       results, None)
  | Raise e => ("failed", [], Some (exn_str e))
  end.

(** X11: when the database works, running an enabled schedule adds exactly
    one run row, which is finished: its status is "completed" when the
    snapshot call returned without a failed device and "failed" otherwise,
    never "running".  The statements sent are the reload, a commit, one
    snapshot call and a last commit, and no other schedule is touched. *)
Theorem run_one_records_one_run (schedule_id : Z) (schedule : Schedule)
    (w : World) :
  no_fault ->
  schedules w !! schedule_id = Some schedule ->
  id schedule = schedule_id ->
  enabled schedule = true ->
  let x0 := (db_step (GetSchedule schedule_id) (ext w)).2 in
  let snap :=
    save_running_config_snapshots
      (devices schedule) (command schedule) (timeout schedule)
      (or_default (created_by schedule) "scheduler")
      (db_step Commit x0).2 in
  let '(status, results, error) := run_report snap.1 in
  exists w',
    _run_one schedule_id w = (Ret tt, w') /\
    runs w' = runs w ++ [mkRun schedule_id status results error
                               (Some (utc_now x0))] /\
    events w' = events w ++ [Db (GetSchedule schedule_id); Db Commit;
                             Snapshot schedule_id; Db Commit] /\
    (forall j, j <> schedule_id -> schedules w' !! j = schedules w !! j).
Proof.
  intros Hok Hrow Hid Hen x0 snap.
  unfold _run_one, bind, get_schedule, bind.
  rewrite (db_exec_ok _ _ Hok). simpl. rewrite Hrow, Hen. simpl.
  unfold commit. rewrite (db_exec_ok _ _ Hok). simpl.
  unfold try_except, bind, snapshots. simpl.
  fold x0. rewrite Hid. subst snap.
  destruct (save_running_config_snapshots (devices schedule) (command schedule)
              (timeout schedule) (or_default (created_by schedule) "scheduler")
              (db_step Commit x0).2) as [[results|e] x2] eqn:Hsnap;
    simpl; rewrite (db_exec_ok _ _ Hok); simpl;
    eexists; (split; [reflexivity|]); simpl;
    rewrite alter_last, <- !app_assoc; simpl;
    (split; [reflexivity|]); (split; [reflexivity|]);
    intros j Hj; apply lookup_alter_ne; congruence.
Qed.

(** X12: a schedule that is missing or disabled is not run: the reload is
    the only statement sent, there is no run row and no snapshot call, and
    the execution returns when the reload works. *)
Theorem run_one_skips_disabled (schedule_id : Z) (w : World) :
  (forall s, schedules w !! schedule_id = Some s -> enabled s = false) ->
  schedules (_run_one schedule_id w).2 = schedules w /\
  runs (_run_one schedule_id w).2 = runs w /\
  events (_run_one schedule_id w).2 = events w ++ [Db (GetSchedule schedule_id)] /\
  ((db_step (GetSchedule schedule_id) (ext w)).1 = None ->
   (_run_one schedule_id w).1 = Ret tt).
Proof.
  intros Hoff. unfold _run_one, bind, get_schedule, bind, db_exec. simpl.
  destruct (db_step (GetSchedule schedule_id) (ext w)) as [[e|] x]; simpl.
  - repeat split. discriminate.
  - destruct (schedules w !! schedule_id) as [s|] eqn:Hs; simpl.
    + rewrite (Hoff s eq_refl). simpl. repeat split.
    + repeat split.
Qed.

(** X13: when the unlock statement works, a tick leaves the advisory lock
    held as often as it was before the tick, whether the lock was granted
    or refused and whatever happened in between. *)
Theorem tick_releases_what_it_took (w : World) :
  (forall x, (db_step (AdvisoryUnlock lock_key) x).1 = None) ->
  lock_count (_tick w).2 = lock_count w.
Proof.
  intros Hunlock.
  unfold _tick, bind at 1, now. unfold bind at 1.
  unfold try_advisory_lock, bind at 1, db_exec.
  destruct (db_step (TryAdvisoryLock lock_key) (ext (add_event _ w)))
    as [[e|] x] eqn:Hstep; simpl; [reflexivity|].
  destruct (lock_free x); simpl; [|reflexivity].
  fold (under_lock (utc_now (ext w))). unfold try_finally.
  match goal with
  | |- context [under_lock ?t ?v] =>
      pose proof (quiet_under_lock t v) as (mid & _ & _ & Hcount);
      destruct (under_lock t v) as [r w1]
  end.
  simpl in Hcount. unfold advisory_unlock, bind, db_exec. simpl.
  specialize (Hunlock (ext w1)).
  destruct (db_step (AdvisoryUnlock lock_key) (ext w1)) as [[e|] x1];
    simpl in *; [discriminate|].
  destruct r; simpl; rewrite Hcount; reflexivity.
Qed.

End WithEnv.


Lemma run_one_records_one_run_witness :
  exists w',
    _run_one (env := unreachable_devices) 7 nightly_world = (Ret tt, w') /\
    runs w' = [mkRun 7 "failed" [] (Some "device unreachable") (Some 1000)] /\
    events w' = [Db (GetSchedule 7); Db Commit; Snapshot 7; Db Commit].
Proof.
  pose proof (run_one_records_one_run (env := unreachable_devices)
                7 nightly nightly_world) as H.
  destruct H as (w' & Hrun & Hruns & Hevents & _).
  - intros op x. reflexivity.
  - reflexivity.
  - reflexivity.
  - reflexivity.
  - exists w'. repeat split; assumption.
Defined.

Definition paused : Schedule :=
  mkSchedule 8 "weekly" false ["r1"] 10080 None None None None None None None.

Definition paused_world : World (env := unreachable_devices) :=
  mkWorld (env := unreachable_devices) {[ 8 := paused ]} [] 0%nat 1000 [].

Lemma run_one_skips_disabled_witness :
  runs (_run_one (env := unreachable_devices) 8 paused_world).2 = [] /\
  events (_run_one (env := unreachable_devices) 8 paused_world).2
  = [Db (GetSchedule 8)].
Proof.
  destruct (run_one_skips_disabled (env := unreachable_devices) 8 paused_world)
    as (_ & Hruns & Hevents & _).
  - intros s Hs. unfold paused_world in Hs. cbn [schedules] in Hs.
    apply lookup_singleton_Some in Hs as [_ <-]. reflexivity.
  - split; assumption.
Defined.

Lemma tick_releases_what_it_took_witness :
  lock_count (_tick (env := failing_query) empty_world).2 = 0%nat.
Proof.
  apply (tick_releases_what_it_took (env := failing_query) empty_world).
  intros x. reflexivity.
Defined.

End SchedulerRunFacts.

(** ** More on the job queue *)
Module TaskLogFacts.
Import Exec PyVal TaskRunner TaskRunnerFacts.

Definition marker : string := String "010" "...<truncated>...".

Lemma len_append s t : PyStr.len (s +:+ t) = (PyStr.len s + PyStr.len t)%nat.
Proof.
  induction s as [|c s IH]; simpl; [reflexivity|].
  destruct (PyStr.is_continuation c); rewrite IH; reflexivity.
Qed.

Lemma len_take n s : PyStr.len (PyStr.take n s) = Nat.min n (PyStr.len s).
Proof.
  revert n. induction s as [|c s IH]; intros n; simpl.
  - rewrite Nat.min_0_r. reflexivity.
  - destruct (PyStr.is_continuation c) eqn:Hc; simpl.
    + rewrite Hc. apply IH.
    + destruct n as [|n]; simpl; [reflexivity|].
      rewrite Hc, IH. reflexivity.
Qed.

Lemma take_prefix n s : String.prefix (PyStr.take n s) s = true.
Proof.
  revert n. induction s as [|c s IH]; intros n; simpl; [reflexivity|].
  destruct (PyStr.is_continuation c).
  - simpl. destruct (ascii_dec c c); [apply IH|contradiction].
  - destruct n as [|n]; simpl; [reflexivity|].
    destruct (ascii_dec c c); [apply IH|contradiction].
Qed.

Lemma len_ascii s :
  Forall (fun c => (nat_of_ascii c < 128)%nat) (list_ascii_of_string s) ->
  PyStr.len s = String.length s.
Proof.
  induction s as [|c s IH]; simpl; [reflexivity|].
  intros H. inversion H as [|? ? Hc Hs]; subst.
  unfold PyStr.is_continuation. cbv zeta.
  destruct (Nat.leb_spec 128 (nat_of_ascii c)); [lia|]. simpl.
  rewrite IH by exact Hs. reflexivity.
Qed.

Lemma truncate_text_length value limit :
  (PyStr.len (_truncate_text value limit) <= limit + 18)%nat.
Proof.
  unfold _truncate_text.
  destruct (Nat.leb_spec (PyStr.len value) limit) as [Hle|Hgt]; [lia|].
  rewrite len_append, len_take. simpl. lia.
Qed.

(** X14: [_truncate_text] returns a text of at most [limit] characters
    plus the eighteen of the marker, counted as Python counts them (a
    character of several bytes is one): a text within the limit is
    returned as it is, and a longer one is cut to its first [limit]
    characters, followed by the marker. *)
Theorem truncate_text_bounded (value : string) (limit : nat) :
  (PyStr.len (_truncate_text value limit) <= limit + 18)%nat /\
  ((PyStr.len value <= limit)%nat -> _truncate_text value limit = value) /\
  ((limit < PyStr.len value)%nat ->
   exists head,
     _truncate_text value limit = head +:+ marker /\
     PyStr.len head = limit /\
     String.prefix head value = true).
Proof.
  split; [apply truncate_text_length|].
  unfold _truncate_text.
  destruct (Nat.leb_spec (PyStr.len value) limit) as [Hle|Hgt].
  - split; [reflexivity|lia].
  - split; [lia|]. intros _. exists (PyStr.take limit value).
    split; [reflexivity|]. split; [rewrite len_take; lia|].
    apply take_prefix.
Qed.

(** Two characters of three bytes each are within a limit of four, and a
    text of three such characters is cut after the second. *)
Example truncate_text_counts_characters :
  _truncate_text "接口" 4 = "接口" /\
  _truncate_text "接口表" 2 = "接口" +:+ marker.
Proof. split; reflexivity. Qed.

Section WithEnv.
Context {env : Env}.

(** The entries of a result map that are envelopes. *)
Fixpoint envelopes (results : list (string * json))
  : list (string * list (string * json)) :=
  match results with
  | [] => []
  | (host, JDict r) :: rest => (host, r) :: envelopes rest
  | _ :: rest => envelopes rest
  end.

Definition rows_of (task_id : Z) (results : list (string * json))
  : list TaskLog :=
  List.map (fun kv => task_log_of task_id (fst kv) (snd kv)) (envelopes results).

Lemma persist_task_logs_rows task_id results w :
  _persist_task_logs task_id results w
  = (Ret tt, set_task_logs (fun l => l ++ rows_of task_id results) w).
Proof.
  unfold _persist_task_logs, rows_of. revert w.
  induction results as [|[host j] results IH]; intros w; simpl.
  - unfold ret, set_task_logs. rewrite app_nil_r. destruct w; reflexivity.
  - unfold bind. destruct j; simpl; try apply IH.
    rewrite IH. unfold set_task_logs. simpl. rewrite <- app_assoc. reflexivity.
Qed.

Lemma dict_get_filtered k (r : list (string * json)) :
  dict_get k (List.filter (fun kv => negb (String.eqb (fst kv) k)) r) = JNull.
Proof.
  induction r as [|[q v] r IH]; simpl; [reflexivity|].
  destruct (String.eqb_spec q k) as [->|Hne]; simpl; [exact IH|].
  destruct (String.eqb_spec k q); [congruence|exact IH].
Qed.

(** X15: [_persist_task_logs] always returns and appends, after the rows
    that are there, one row per envelope of the results, in their order
    and under the device names; entries that are no dictionaries give no
    row.  Each row carries the job id, a stored result without the
    "result" key, and a raw output of at most 20018 characters. *)
Theorem persist_task_logs_spec (task_id : Z) (results : list (string * json))
    (w : World) :
  exists rows,
    _persist_task_logs task_id results w
    = (Ret tt, mkWorld (tasks w) (task_logs w ++ rows) (ext w) (events w)) /\
    List.map log_device_name rows = List.map fst (envelopes results) /\
    Forall (fun row =>
              log_task_id row = task_id /\
              dict_get "result" (log_result row) = JNull /\
              (forall raw, log_raw_output row = Some raw ->
                           (PyStr.len raw <= 20018)%nat))
           rows.
Proof.
  exists (rows_of task_id results).
  split; [apply persist_task_logs_rows|]. split.
  - unfold rows_of. rewrite List.map_map. reflexivity.
  - unfold rows_of. apply List.Forall_forall. intros row Hrow.
    apply in_map_iff in Hrow as ([host r] & <- & _). simpl.
    split; [reflexivity|]. split; [apply dict_get_filtered|].
    intros raw. destruct (dict_get "result" r); try discriminate.
    intros [= <-].
    exact (truncate_text_length s 20000).
Qed.

Lemma before_dispatch_logs task_id w :
  no_fault ->
  task_logs (before_dispatch task_id w)
  = List.filter (fun l => negb (log_task_id l =? task_id)) (task_logs w).
Proof.
  intros Hok. unfold before_dispatch, commit.
  rewrite (get_task_ok _ _ Hok), (delete_task_logs_ok _ _ Hok).
  rewrite (db_exec_answers _ _ Hok). reflexivity.
Qed.

(** X16: when the database works, executing a pending job replaces its
    logs: afterwards the log table holds the logs of the other jobs as
    before, followed by one new row per envelope of the results when the
    dispatch returned, and by nothing when it raised; no earlier row of
    the job is left. *)
Theorem execute_replaces_logs (task_id : Z) (task : Task) (w : World) :
  no_fault ->
  tasks w !! task_id = Some task ->
  id task = task_id ->
  is_pending task = true ->
  task_logs (_execute_task task_id w).2
  = List.filter (fun l => negb (log_task_id l =? task_id)) (task_logs w)
    ++ match (_run_payload task (before_dispatch task_id w)).1 with
       | Ret results => rows_of task_id results
       | Raise _ => []
       end.
Proof.
  intros Hok Hrow Hid Hpending.
  rewrite (execute_pending task_id task w Hok Hrow Hid Hpending).
  pose proof (run_payload_frame task (before_dispatch task_id w))
    as (_ & Hlogs & _).
  rewrite (before_dispatch_logs task_id w Hok) in Hlogs.
  destruct (_run_payload task (before_dispatch task_id w))
    as [[results|e] w2] eqn:Hrun; simpl in Hlogs |- *.
  - unfold try_except, record_outcome.
    rewrite (bind_ret_eq _ _ _ _ _ Hrun).
    unfold bind, commit. simpl. rewrite (db_exec_answers _ _ Hok). simpl.
    rewrite persist_task_logs_rows. rewrite (db_exec_answers _ _ Hok). simpl.
    rewrite Hlogs, Hid. reflexivity.
  - unfold try_except, record_outcome, record_failure.
    unfold bind at 1. rewrite Hrun.
    unfold bind, commit. simpl. rewrite (db_exec_answers _ _ Hok). simpl.
    rewrite Hlogs, app_nil_r. reflexivity.
Qed.

End WithEnv.

Lemma execute_replaces_logs_witness :
  List.map log_device_name
           (task_logs (_execute_task (env := lab) 1 queued).2) = ["r1"; "r2"].
Proof.
  rewrite (execute_replaces_logs (env := lab) 1 show_version queued).
  - reflexivity.
  - intros op x. reflexivity.
  - reflexivity.
  - reflexivity.
  - reflexivity.
Defined.

End TaskLogFacts.

(** ** Payloads of jobs *)
Module PayloadFacts.
Import Exec PyVal TaskRunner TaskRunnerFacts StringFacts.

Section WithEnv.
Context {env : Env}.

Definition kind_of (task : Task) : string :=
  PyStr.lower (default "" (task_type task)).

Definition known_kinds : list string :=
  ["command"; "config"; "connectivity"; "scrapli";
   "running_config"; "running-config"; "running_config_snapshot"].

(** X17: a job is refused before any call to the fleet, leaving the world
    as it is, when its kind (the type in lower case) is none of the known
    ones, when it is a "config" job without configs in its parameters and
    with a blank config text, and when it is a "scrapli" job whose task
    name is missing, no string or blank. *)
Theorem run_payload_refusals (task : Task) (w : World) :
  let params := default [] (parameters task) in
  (~ In (kind_of task) known_kinds ->
   _run_payload task w
   = (Raise (ValueError ("不支持的 task_type: " +:+
                         default "None" (task_type task))), w)) /\
  (kind_of task = "config" ->
   truthy (params_get "configs" params) = false ->
   PyStr.strip (default "" (config task)) = "" ->
   _run_payload task w = (Raise (ValueError "config 不能为空"), w)) /\
  (kind_of task = "scrapli" ->
   (forall name, params_get "task" params = JStr name ->
                 PyStr.strip name = "") ->
   _run_payload task w
   = (Raise (ValueError "scrapli 任务需要 parameters.task"), w)).
Proof.
  intros params. unfold _run_payload, kind_of. fold params.
  set (kind := PyStr.lower (default "" (task_type task))).
  split; [|split].
  - intros Hkind. unfold known_kinds in Hkind. simpl in Hkind.
    repeat match goal with
           | |- context [String.eqb kind ?k] =>
               let Heq := fresh "Heq" in
               destruct (String.eqb_spec kind k) as [Heq|_];
               [exfalso; apply Hkind; rewrite Heq; tauto|]
           end.
    reflexivity.
  - intros -> Hconfigs Hblank. simpl. rewrite Hconfigs, Hblank. reflexivity.
  - intros -> Hname. simpl.
    destruct (params_get "task" params) as [| | |name| |] eqn:Ht; try reflexivity.
    rewrite (Hname name eq_refl). reflexivity.
Qed.


End WithEnv.

Definition nameless : Task :=
  mkTask 2 (Some "Scrapli") (Some "pending") ["r1"] None None
         (Some [("task", JStr "  ")]) None None None None None.

Definition banner : Task :=
  mkTask 3 (Some "CONFIG") (Some "pending") ["r1"] None
         (Some ("  hostname core-1" +:+ String "010" "" +:+ String "010" ""
                +:+ "ntp server 10.0.0.1 " +:+ String "010" ""))
         None None None None None None.

Lemma run_payload_refusals_witness :
  _run_payload (env := lab) nameless queued
  = (Raise (ValueError "scrapli 任务需要 parameters.task"), queued).
Proof.
  apply (run_payload_refusals (env := lab) nameless queued).
  - reflexivity.
  - intros name [= <-]. reflexivity.
Defined.


Example banner_lines :
  (_run_payload (env := lab) banner queued).2
  = add_event
      (Fleet 3 (SendConfig ["r1"]
                  (JList [JStr "hostname core-1"; JStr "ntp server 10.0.0.1"])
                  false JNull)) queued.
Proof. reflexivity. Qed.

End PayloadFacts.

(** ** What an execution leaves alone *)
Module FrameFacts.
Import Exec PyVal TaskRunner TaskRunnerFacts.

Section WithEnv.
Context {env : Env}.

(** A relation between the world before and after, kept by every step. *)
Section Kept.
Variable R : World -> World -> Prop.
Hypothesis R_refl : forall w, R w w.
Hypothesis R_trans : forall w1 w2 w3, R w1 w2 -> R w2 w3 -> R w1 w3.

Definition keeps {A} (c : M World A) : Prop := forall w, R w (c w).2.

Lemma keeps_ret {A} (a : A) : keeps (ret a).
Proof. intros w. apply R_refl. Qed.

Lemma keeps_raise {A} e : keeps (raise (A := A) e).
Proof. intros w. apply R_refl. Qed.

Lemma keeps_bind {A B} (c : M World A) (k : A -> M World B) :
  keeps c -> (forall a, keeps (k a)) -> keeps (bind c k).
Proof.
  intros Hc Hk w. unfold bind. specialize (Hc w).
  destruct (c w) as [[a|e] w1]; simpl in *; [|exact Hc].
  eapply R_trans; [exact Hc|apply Hk].
Qed.

Lemma keeps_try_except {A} (c : M World A) (h : exn -> M World A) :
  keeps c -> (forall e, keeps (h e)) -> keeps (try_except c h).
Proof.
  intros Hc Hh w. unfold try_except. specialize (Hc w).
  destruct (c w) as [[a|e] w1]; simpl in *; [exact Hc|].
  eapply R_trans; [exact Hc|apply Hh].
Qed.

Lemma keeps_for_each {A} (xs : list A) (body : A -> M World unit) :
  (forall x, keeps (body x)) -> keeps (for_each xs body).
Proof.
  intros Hb. induction xs as [|x xs IH]; simpl.
  - apply keeps_ret.
  - apply keeps_bind; [apply Hb|intros _; exact IH].
Qed.

End Kept.

Definition own_event (task_id : Z) (e : Event) : Prop :=
  match e with
  | Db _ => True
  | Fleet i _ => i = task_id
  end.

(** From [w] to [w'] only the job [task_id] was touched: the other rows
    and the logs of the other jobs are the same, and the fleet was called
    for this job only. *)
Definition only_job (task_id : Z) (w w' : World) : Prop :=
  (forall j, j <> task_id -> tasks w' !! j = tasks w !! j) /\
  (forall j, j <> task_id ->
     List.filter (fun l => log_task_id l =? j) (task_logs w')
     = List.filter (fun l => log_task_id l =? j) (task_logs w)) /\
  (exists added, events w' = events w ++ added /\
                 Forall (own_event task_id) added) /\
  (is_Some (tasks w' !! task_id) <-> is_Some (tasks w !! task_id)).

Lemma only_job_refl task_id w : only_job task_id w w.
Proof.
  repeat split; auto. exists []. rewrite app_nil_r. split; [reflexivity|constructor].
Qed.

Lemma only_job_trans task_id w1 w2 w3 :
  only_job task_id w1 w2 -> only_job task_id w2 w3 -> only_job task_id w1 w3.
Proof.
  intros (T1 & L1 & (a1 & E1 & F1) & S1) (T2 & L2 & (a2 & E2 & F2) & S2).
  split; [|split; [|split]].
  - intros j Hj. rewrite T2, T1; auto.
  - intros j Hj. rewrite L2, L1; auto.
  - exists (a1 ++ a2). rewrite E2, E1, app_assoc. split; [reflexivity|].
    apply Forall_app. split; assumption.
  - rewrite S2. exact S1.
Qed.

Abbreviation quiet_for task_id :=
  (keeps (only_job task_id)).

Lemma filter_other_job (j task_id : Z) (l : list TaskLog) :
  j <> task_id ->
  List.filter (fun r => log_task_id r =? j)
              (List.filter (fun r => negb (log_task_id r =? task_id)) l)
  = List.filter (fun r => log_task_id r =? j) l.
Proof.
  intros Hj. induction l as [|r l IH]; simpl; [reflexivity|].
  destruct (Z.eqb_spec (log_task_id r) task_id) as [Heq|Hne]; simpl.
  - destruct (Z.eqb_spec (log_task_id r) j); [congruence|exact IH].
  - destruct (log_task_id r =? j); [f_equal|]; exact IH.
Qed.

Lemma db_exec_quiet task_id op : quiet_for task_id (db_exec op).
Proof.
  intros w. unfold db_exec. simpl.
  destruct (db_step op (ext w)) as [[e|] x]; simpl;
    (split; [|split; [|split]]);
    [reflexivity | reflexivity
    | exists [Db op]; split; [reflexivity|repeat constructor]
    | reflexivity
    | reflexivity | reflexivity
    | exists [Db op]; split; [reflexivity|repeat constructor]
    | reflexivity].
Qed.

Lemma utc_now_quiet task_id : quiet_for task_id _utc_now.
Proof. intros w. apply only_job_refl. Qed.

Lemma update_task_quiet task_id f : quiet_for task_id (update_task task_id f).
Proof.
  intros w. unfold update_task, modify. simpl.
  split; [|split; [|split]]; simpl.
  - intros j Hj. apply lookup_alter_ne. congruence.
  - reflexivity.
  - exists []. rewrite app_nil_r. split; [reflexivity|constructor].
  - rewrite lookup_alter_eq. destruct (tasks w !! task_id); simpl;
      split; intros [x Hx]; eauto; discriminate.
Qed.

Lemma delete_task_logs_quiet task_id : quiet_for task_id (delete_task_logs task_id).
Proof.
  unfold delete_task_logs.
  apply (keeps_bind _ (only_job_trans task_id)); [apply db_exec_quiet|].
  intros _ w. unfold modify. simpl.
  split; [|split; [|split]]; simpl; auto.
  - intros j Hj. apply filter_other_job, Hj.
  - exists []. rewrite app_nil_r. split; [reflexivity|constructor].
Qed.

Lemma call_manager_quiet task_id call : quiet_for task_id (call_manager task_id call).
Proof.
  intros w. unfold call_manager. simpl.
  destruct (manager call (ext w)) as [r x]. simpl.
  split; [|split; [|split]]; simpl; auto.
  exists [Fleet task_id call]. split; [reflexivity|repeat constructor].
Qed.

Lemma run_payload_quiet task : quiet_for (id task) (_run_payload task).
Proof.
  unfold _run_payload.
  repeat match goal with
         | |- context [if ?b then _ else _] => destruct b
         | |- context [match params_get ?k ?p with _ => _ end] =>
             destruct (params_get k p)
         end;
    first [apply call_manager_quiet
          | apply (keeps_raise _ (only_job_refl (id task)))].
Qed.

Lemma persist_task_logs_quiet task_id results :
  quiet_for task_id (_persist_task_logs task_id results).
Proof.
  unfold _persist_task_logs.
  apply (keeps_for_each _ (only_job_refl task_id) (only_job_trans task_id)).
  intros [host j]. simpl.
  destruct j; try apply (keeps_ret _ (only_job_refl task_id)).
  intros w. unfold modify. simpl.
  split; [|split; [|split]]; simpl; auto.
  - intros j Hj. rewrite List.filter_app. simpl.
    destruct (Z.eqb_spec task_id j); [congruence|]. apply app_nil_r.
  - exists []. rewrite app_nil_r. split; [reflexivity|constructor].
Qed.

(** Whatever the database and the fleet do, executing a job touches that
    job only. *)
Lemma execute_only_job (task_id : Z) (w : World) :
  (forall t, tasks w !! task_id = Some t -> id t = task_id) ->
  only_job task_id w (_execute_task task_id w).2.
Proof.
  intros Hkey. unfold _execute_task. unfold bind at 1.
  assert (Hget : only_job task_id w (get_task task_id w).2 /\
                 forall o w1, get_task task_id w = (Ret o, w1) ->
                              o = tasks w !! task_id).
  { unfold get_task, bind, db_exec. simpl.
    destruct (db_step (GetTask task_id) (ext w)) as [[e|] x]; simpl.
    - split; [|discriminate].
      pose proof (db_exec_quiet task_id (GetTask task_id) w) as H.
      unfold db_exec in H. simpl in H.
      destruct (db_step (GetTask task_id) (ext w)) as [[e'|] x']; exact H.
    - split; [|intros o w1 [= <- _]; reflexivity].
      pose proof (db_exec_quiet task_id (GetTask task_id) w) as H.
      unfold db_exec in H. simpl in H.
      destruct (db_step (GetTask task_id) (ext w)) as [[e'|] x']; exact H. }
  destruct Hget as [Hw1 Hrow].
  destruct (get_task task_id w) as [[o|e] w1]; simpl in Hw1; [|exact Hw1].
  specialize (Hrow o w1 eq_refl). subst o.
  destruct (tasks w !! task_id) as [task|] eqn:Ht; [|exact Hw1].
  pose proof (Hkey task eq_refl) as Hid.
  destruct (negb (is_pending task)); [exact Hw1|].
  apply (only_job_trans task_id w w1); [exact Hw1|].
  rewrite Hid. revert w1 Hw1. intros w1 _. revert w1.
  change (quiet_for task_id
    (delete_task_logs task_id ;;;
     t <- _utc_now ;;
     update_task task_id (start_task t) ;;;
     commit ;;;
     try_except
       (results <- _run_payload task ;;
        update_task task_id (set_results results) ;;;
        t <- _utc_now ;;
        update_task task_id
          (finish_task (if any_failed results then "failed" else "completed") t) ;;;
        commit ;;;
        _persist_task_logs task_id results ;;;
        commit)
       (fun e =>
          t <- _utc_now ;;
          update_task task_id (fail_task (exn_str e) t) ;;;
          commit ;;;
          raise e))%exec).
  pose proof (only_job_refl task_id) as Hr.
  pose proof (only_job_trans task_id) as Htr.
  repeat first
    [ apply delete_task_logs_quiet
    | apply utc_now_quiet
    | apply update_task_quiet
    | apply db_exec_quiet
    | apply persist_task_logs_quiet
    | apply (keeps_raise _ Hr)
    | (rewrite <- Hid; apply run_payload_quiet)
    | apply (keeps_try_except _ Htr)
    | apply (keeps_bind _ Htr)
    | intro ].
Qed.

Lemma own_events_calls task_id j es added :
  j <> task_id ->
  Forall (own_event task_id) added ->
  fleet_calls j (es ++ added) = fleet_calls j es.
Proof.
  intros Hj Hown. rewrite fleet_calls_app.
  assert (H : fleet_calls j added = 0%nat); [|lia].
  unfold fleet_calls. induction Hown as [|e added He _ IH]; [reflexivity|].
  simpl. destruct e as [op|i call]; [exact IH|].
  simpl in He. subst i.
  destruct (Z.eqb_spec task_id j); [congruence|exact IH].
Qed.

(** The rows keep their ids. *)
Definition same_ids (w w' : World) : Prop :=
  forall j t', tasks w' !! j = Some t' ->
               exists t, tasks w !! j = Some t /\ id t' = id t.

Lemma same_ids_refl w : same_ids w w.
Proof. intros j t Ht. eauto. Qed.

Lemma same_ids_trans w1 w2 w3 :
  same_ids w1 w2 -> same_ids w2 w3 -> same_ids w1 w3.
Proof.
  intros H12 H23 j t3 Ht3.
  destruct (H23 j t3 Ht3) as (t2 & Ht2 & E2).
  destruct (H12 j t2 Ht2) as (t1 & Ht1 & E1).
  exists t1. split; [exact Ht1|congruence].
Qed.

Lemma same_tasks_ids {A} (c : M World A) :
  (forall w, tasks (c w).2 = tasks w) -> keeps same_ids c.
Proof. intros H w j t Ht. rewrite H in Ht. eauto. Qed.

Lemma db_exec_tasks op w : tasks (db_exec op w).2 = tasks w.
Proof. rewrite db_exec_eq. reflexivity. Qed.

Lemma update_task_ids task_id f :
  (forall t, id (f t) = id t) -> keeps same_ids (update_task task_id f).
Proof.
  intros Hf w j t' Ht'. unfold update_task, modify in Ht'. simpl in Ht'.
  destruct (decide (j = task_id)) as [->|Hne].
  - rewrite lookup_alter_eq in Ht'.
    destruct (tasks w !! task_id) as [t|]; [|discriminate].
    injection Ht' as <-. eauto.
  - rewrite lookup_alter_ne in Ht' by congruence. eauto.
Qed.

Lemma execute_same_ids task_id : keeps same_ids (_execute_task task_id).
Proof.
  pose proof same_ids_refl as Hr. pose proof same_ids_trans as Htr.
  assert (Hdb : forall op, keeps same_ids (db_exec op)).
  { intros op. apply same_tasks_ids. intros w. apply db_exec_tasks. }
  assert (Hmod : forall f : World -> World,
             (forall w, tasks (f w) = tasks w) -> keeps same_ids (modify f)).
  { intros f Hf. apply same_tasks_ids. intros w. apply Hf. }
  unfold _execute_task, get_task.
  apply (keeps_bind _ Htr).
  { apply (keeps_bind _ Htr); [apply Hdb|]. intros _.
    apply same_tasks_ids. reflexivity. }
  intros [task|]; [|apply (keeps_ret _ Hr)].
  destruct (negb (is_pending task)); [apply (keeps_ret _ Hr)|].
  unfold delete_task_logs, commit.
  repeat first
    [ apply Hdb
    | apply (keeps_ret _ Hr)
    | apply (keeps_raise _ Hr)
    | (apply update_task_ids; intros t; reflexivity)
    | (apply Hmod; intros v; reflexivity)
    | (apply same_tasks_ids; intros v; reflexivity)
    | (apply same_tasks_ids; intros v;
       exact (proj1 (run_payload_frame task v)))
    | (apply same_tasks_ids; intros v;
       match goal with
       | |- context [_persist_task_logs ?i ?r v] =>
           destruct (persist_task_logs_frame i r v) as [logs ->]
       end; reflexivity)
    | apply (keeps_try_except _ Htr)
    | apply (keeps_bind _ Htr)
    | intro ].
Qed.

(** Each row is stored under its id, before and after an execution. *)
Definition keyed (w : World) : Prop :=
  forall j t, tasks w !! j = Some t -> id t = j.

Lemma execute_keyed task_id w : keyed w -> keyed (_execute_task task_id w).2.
Proof.
  intros Hkey j t' Ht'.
  destruct (execute_same_ids task_id w j t' Ht') as (t & Ht & ->).
  exact (Hkey j t Ht).
Qed.

(** X19: whatever the database and the fleet do, executing a job touches
    that job only: for every other job the row is as before, its logs are
    as before, and no call to the fleet is made for it; and the row of the
    executed job neither appears nor disappears. *)
Theorem execute_touches_one_job (task_id : Z) (w : World) :
  (forall t, tasks w !! task_id = Some t -> id t = task_id) ->
  let w' := (_execute_task task_id w).2 in
  (forall j, j <> task_id ->
     tasks w' !! j = tasks w !! j /\
     List.filter (fun l => log_task_id l =? j) (task_logs w')
     = List.filter (fun l => log_task_id l =? j) (task_logs w) /\
     fleet_calls j (events w') = fleet_calls j (events w)) /\
  (is_Some (tasks w' !! task_id) <-> is_Some (tasks w !! task_id)).
Proof.
  intros Hkey w'.
  destruct (execute_only_job task_id w Hkey)
    as (Hrows & Hlogs & (added & Hev & Hown) & Hsame).
  fold w' in Hrows, Hlogs, Hev, Hsame.
  split; [|exact Hsame].
  intros j Hj. split; [apply Hrows, Hj|]. split; [apply Hlogs, Hj|].
  rewrite Hev. apply own_events_calls with (task_id := task_id); assumption.
Qed.

End WithEnv.

Lemma execute_touches_one_job_witness :
  tasks (_execute_task (env := lab) 1 queued).2 !! 2 = tasks queued !! 2.
Proof.
  apply (execute_touches_one_job (env := lab) 1 queued); [|lia].
  intros t Ht. unfold queued in Ht. cbn [tasks] in Ht.
  apply lookup_singleton_Some in Ht as [_ <-]. reflexivity.
Defined.

End FrameFacts.

(** ** Snapshots of the running configuration *)
Module SnapshotFacts.
Import Exec PyVal SnapshotService.

Abbreviation keys d := (List.map fst d).

Lemma setitem_keys {V} k (v : V) d n :
  In n (keys (setitem k v d)) <-> n = k \/ In n (keys d).
Proof.
  induction d as [|[k' v'] d IH]; simpl.
  - split; [intros [<-|[]]; auto | intros [->|[]]; auto].
  - destruct (String.eqb_spec k k') as [->|Hne]; simpl.
    + intuition congruence.
    + rewrite IH. tauto.
Qed.

Lemma setitem_NoDup {V} k (v : V) d :
  List.NoDup (keys d) -> List.NoDup (keys (setitem k v d)).
Proof.
  induction d as [|[k' v'] d IH]; simpl; intros Hnd.
  - constructor; [intros []|constructor].
  - inversion Hnd as [|? ? Hnot Hrest]; subst.
    destruct (String.eqb_spec k k') as [->|Hne]; simpl.
    + constructor; assumption.
    + constructor; [|apply IH, Hrest].
      rewrite setitem_keys. intros [->|Hin]; [congruence|contradiction].
Qed.

Lemma getitem_setitem {V} k (v : V) d n :
  getitem n (setitem k v d) = if String.eqb n k then Some v else getitem n d.
Proof.
  induction d as [|[k' v'] d IH]; simpl.
  - destruct (String.eqb n k); reflexivity.
  - destruct (String.eqb_spec k k') as [->|Hne]; simpl.
    + destruct (String.eqb n k'); reflexivity.
    + rewrite IH. destruct (String.eqb_spec n k) as [Heq|Hnk].
      * rewrite Heq. destruct (String.eqb_spec k k'); [congruence|reflexivity].
      * reflexivity.
Qed.

Lemma getitem_Some_In {V} n (v : V) d :
  getitem n d = Some v -> In (n, v) d.
Proof.
  induction d as [|[k' v'] d IH]; simpl; [discriminate|].
  destruct (String.eqb_spec n k') as [->|Hne].
  - intros [= ->]. left. reflexivity.
  - intros H. right. apply IH, H.
Qed.

Lemma In_getitem {V} n (v : V) d :
  List.NoDup (keys d) -> In (n, v) d -> getitem n d = Some v.
Proof.
  induction d as [|[k' v'] d IH]; simpl; intros Hnd; [intros []|].
  inversion Hnd as [|? ? Hnot Hrest]; subst.
  intros [[= -> ->]|Hin].
  - rewrite String.eqb_refl. reflexivity.
  - destruct (String.eqb_spec n k') as [->|Hne].
    + exfalso. apply Hnot. apply in_map_iff. exists (k', v). auto.
    + apply IH; assumption.
Qed.

Lemma getitem_None {V} n (d : dict V) :
  getitem n d = None <-> ~ In n (keys d).
Proof.
  induction d as [|[k' v'] d IH]; simpl; [tauto|].
  destruct (String.eqb_spec n k') as [->|Hne].
  - split; [discriminate|]. intros H. exfalso. apply H. auto.
  - rewrite IH. split; [intros H [Heq|Hin]; [congruence|auto] | tauto].
Qed.

Lemma dict_get_setitem k (v : json) d n :
  dict_get n (setitem k v d) = if String.eqb n k then v else dict_get n d.
Proof.
  induction d as [|[k' v'] d IH]; simpl.
  - destruct (String.eqb n k); reflexivity.
  - destruct (String.eqb_spec k k') as [->|Hne]; simpl.
    + destruct (String.eqb n k'); reflexivity.
    + rewrite IH. destruct (String.eqb_spec n k) as [Heq|Hnk].
      * rewrite Heq. destruct (String.eqb_spec k k'); [congruence|reflexivity].
      * reflexivity.
Qed.

Lemma dict_get_as_json n results :
  dict_get n (as_json results)
  = match getitem n results with Some entry => JDict entry | None => JNull end.
Proof.
  induction results as [|[k v] d IH]; simpl; [reflexivity|].
  destruct (String.eqb n k); [reflexivity|exact IH].
Qed.

Lemma keys_as_json results : keys (as_json results) = keys results.
Proof. unfold as_json. rewrite List.map_map. reflexivity. Qed.

Section WithEnv.
Context {env : Env}.

(** What the loop over the devices decides for one name: the entry of the
    results, and the row to store if there is one. *)
Definition judge (by_name : gmap string Z) (author : option string)
    (fetch_results : dict json) (name : string)
  : exn + (dict json * list ConfigSnapshot) :=
  match envelope_of (dict_get name fetch_results) with
  | inl e => inl e
  | inr r =>
      if truthy (dict_get "failed" r) then
        inr (failed_entry (or_else (dict_get "exception" r) (JStr "采集失败")),
             [])
      else
        match dict_get "result" r with
        | JStr text =>
            if String.eqb (PyStr.strip text) "" then
              inr (failed_entry (JStr "未获取到 running-config（空输出）"), [])
            else
              match by_name !! name with
              | None => inl (OtherError "KeyError" (PyRepr.repr_str name))
              | Some id =>
                  inr ([("status", JStr "success");
                        ("failed", JBool false);
                        ("bytes", JNum (Z.of_nat (String.length text)));
                        ("sha256", JStr (sha256_hexdigest text))],
                       [mkConfigSnapshot id "running" text
                                         (sha256_hexdigest text) author])
              end
        | _ => inr (failed_entry (JStr "未获取到 running-config（空输出）"), [])
        end
  end.

Definition entry_of by_name author fetch_results (name : string) : dict json :=
  match judge by_name author fetch_results name with
  | inr (entry, _) => entry
  | inl _ => []
  end.

Definition rows_for by_name author fetch_results (name : string)
  : list ConfigSnapshot :=
  match judge by_name author fetch_results name with
  | inr (_, rows) => rows
  | inl _ => []
  end.

Lemma collect_cons by_name author fetch_results name rest results snapshots :
  collect by_name author fetch_results (name :: rest) results snapshots
  = match judge by_name author fetch_results name with
    | inl e => inl e
    | inr (entry, rows) =>
        collect by_name author fetch_results rest
                (setitem name entry results) (snapshots ++ rows)
    end.
Proof.
  simpl. unfold judge.
  destruct (envelope_of (dict_get name fetch_results)) as [e|r]; [reflexivity|].
  destruct (truthy (dict_get "failed" r)); [rewrite app_nil_r; reflexivity|].
  destruct (dict_get "result" r) as [| | |text| |];
    try (rewrite app_nil_r; reflexivity).
  destruct (String.eqb (PyStr.strip text) "");
    [rewrite app_nil_r; reflexivity|].
  destruct (by_name !! name); reflexivity.
Qed.

(** The loop as a whole: it returns exactly when every name is judged,
    and then each name has the entry of its judgement and the rows are
    those of the names, in their order. *)
Lemma collect_spec by_name author fetch_results names :
  forall results snapshots results' snapshots',
    collect by_name author fetch_results names results snapshots
    = inr (results', snapshots') ->
    Forall (fun n => exists entry rows,
                judge by_name author fetch_results n = inr (entry, rows))
           names /\
    results' = foldl (fun r n =>
                        setitem n (entry_of by_name author fetch_results n) r)
                     results names /\
    snapshots' = snapshots ++
                 flat_map (rows_for by_name author fetch_results) names.
Proof.
  induction names as [|name rest IH]; intros results snapshots results' snapshots'.
  - simpl. intros [= <- <-]. rewrite app_nil_r. repeat split. constructor.
  - rewrite collect_cons.
    destruct (judge by_name author fetch_results name) as [e|[entry rows]] eqn:Hj;
      [discriminate|].
    assert (Hentry : entry_of by_name author fetch_results name = entry)
      by (unfold entry_of; rewrite Hj; reflexivity).
    assert (Hrows : rows_for by_name author fetch_results name = rows)
      by (unfold rows_for; rewrite Hj; reflexivity).
    intros H. apply IH in H as (Hall & -> & ->). split; [|split].
    + constructor; [eauto|exact Hall].
    + simpl. rewrite Hentry. reflexivity.
    + simpl. rewrite Hrows, <- app_assoc. reflexivity.
Qed.

Lemma fold_setitem_getitem {V} (f : string -> V) (l : list string) :
  forall (r : dict V) n,
    getitem n (foldl (fun r k => setitem k (f k) r) r l)
    = if existsb (String.eqb n) l then Some (f n) else getitem n r.
Proof.
  induction l as [|k l IH]; intros r n; simpl; [reflexivity|].
  rewrite IH, getitem_setitem.
  destruct (String.eqb_spec n k) as [->|Hne]; simpl.
  - destruct (existsb (String.eqb k) l); reflexivity.
  - reflexivity.
Qed.

Lemma fold_setitem_NoDup {V} (f : string -> V) (l : list string) :
  forall r : dict V,
    List.NoDup (keys r) ->
    List.NoDup (keys (foldl (fun r k => setitem k (f k) r) r l)).
Proof.
  induction l as [|k l IH]; intros r Hnd; simpl; [exact Hnd|].
  apply IH, setitem_NoDup, Hnd.
Qed.

(** An entry says "failed" with the flag set, or "success" with the flag
    cleared. *)
Definition well_formed (entry : dict json) : Prop :=
  (dict_get "status" entry = JStr "failed" /\
   dict_get "failed" entry = JBool true) \/
  (dict_get "status" entry = JStr "success" /\
   dict_get "failed" entry = JBool false).

Lemma judge_cases by_name author fetch_results name entry rows :
  judge by_name author fetch_results name = inr (entry, rows) ->
  (dict_get "status" entry = JStr "failed" /\
   dict_get "failed" entry = JBool true /\ rows = []) \/
  (dict_get "status" entry = JStr "success" /\
   dict_get "failed" entry = JBool false /\
   exists id text,
     by_name !! name = Some id /\
     PyStr.strip text <> "" /\
     dict_get "sha256" entry = JStr (sha256_hexdigest text) /\
     rows = [mkConfigSnapshot id "running" text (sha256_hexdigest text) author]).
Proof.
  unfold judge.
  destruct (envelope_of (dict_get name fetch_results)) as [e|r]; [discriminate|].
  destruct (truthy (dict_get "failed" r)).
  { intros [= <- <-]. left. repeat split. }
  destruct (dict_get "result" r) as [| | |text| |];
    try (intros [= <- <-]; left; repeat split).
  destruct (String.eqb_spec (PyStr.strip text) "") as [Heq|Hne].
  { intros [= <- <-]. left. repeat split. }
  destruct (by_name !! name) as [id|] eqn:Hid; [|discriminate].
  intros [= <- <-]. right. split; [reflexivity|]. split; [reflexivity|].
  exists id, text. repeat split. exact Hne.
Qed.

(** What the loop after the commit may do to an entry: add the two keys
    of the stored row, and only to an entry that says "success". *)
Definition extends (entry entry' : dict json) : Prop :=
  (forall k, k <> "snapshot_id" -> k <> "collected_at" ->
             dict_get k entry' = dict_get k entry) /\
  (is_success entry = false -> entry' = entry).

Lemma extends_refl entry : extends entry entry.
Proof. split; auto. Qed.

Lemma extends_trans a b c : extends a b -> extends b c -> extends a c.
Proof.
  intros [Hab Hab'] [Hbc Hbc']. split.
  - intros k H1 H2. rewrite Hbc, Hab by assumption. reflexivity.
  - intros Hf. rewrite (Hab' Hf) in *. apply Hbc', Hf.
Qed.

Definition entries_extended (results results' : dict (dict json)) : Prop :=
  forall n,
    match getitem n results with
    | None => getitem n results' = None
    | Some entry =>
        exists entry', getitem n results' = Some entry' /\ extends entry entry'
    end.

Lemma backfill_spec by_id x snapshots :
  forall position results,
    entries_extended results (backfill by_id x position snapshots results) /\
    (List.NoDup (keys results) ->
     List.NoDup (keys (backfill by_id x position snapshots results))).
Proof.
  induction snapshots as [|snap rest IH]; intros position results.
  - simpl. split; [|auto]. intros n. destruct (getitem n results); eauto using extends_refl.
  - simpl.
    set (step := match by_id !! device_id snap with
                 | Some device_name => _
                 | None => results
                 end).
    assert (Hstep : entries_extended results step /\
                    (List.NoDup (keys results) -> List.NoDup (keys step))).
    { subst step.
      assert (Hsame : entries_extended results results /\
                      (List.NoDup (keys results) -> List.NoDup (keys results))).
      { split; [|auto]. intros n.
        destruct (getitem n results); eauto using extends_refl. }
      destruct (by_id !! device_id snap) as [device_name|]; [|exact Hsame].
      destruct (String.eqb device_name ""); [exact Hsame|].
      destruct (getitem device_name results) as [entry|] eqn:Hentry;
        [|exact Hsame].
      destruct entry as [|field entry]; [exact Hsame|].
      set (whole := field :: entry) in *.
      destruct (is_success whole) eqn:Hok; [|exact Hsame].
      destruct (stored_as position x) as [id collected_at].
      split; [|intros Hnd; apply setitem_NoDup, Hnd].
      intros n. rewrite getitem_setitem.
      destruct (String.eqb_spec n device_name) as [->|Hne].
      - rewrite Hentry. eexists. split; [reflexivity|]. split.
        + intros k H1 H2. rewrite !dict_get_setitem.
          destruct (String.eqb_spec k "collected_at"); [contradiction|].
          destruct (String.eqb_spec k "snapshot_id"); [contradiction|].
          reflexivity.
        + intros Hf. congruence.
      - destruct (getitem n results); eauto using extends_refl. }
    destruct Hstep as [Hext Hnd].
    destruct (IH (S position) step) as [Hext' Hnd'].
    split; [|auto].
    intros n. specialize (Hext n). specialize (Hext' n).
    destruct (getitem n results) as [entry|].
    + destruct Hext as (e1 & H1 & He1). rewrite H1 in Hext'.
      destruct Hext' as (e2 & H2 & He2).
      exists e2. split; [exact H2|]. eapply extends_trans; eassumption.
    + rewrite Hext in Hext'. exact Hext'.
Qed.

Lemma by_name_fold (rows : list (Z * string)) :
  forall (m : gmap string Z) n id,
    foldl (fun m row => <[snd row := fst row]> m) m rows !! n = Some id ->
    m !! n = Some id \/ In (id, n) rows.
Proof.
  induction rows as [|[i k] rows IH]; intros m n id; simpl; [auto|].
  intros H. apply IH in H as [H|H]; [|auto].
  destruct (decide (k = n)) as [->|Hne].
  - rewrite lookup_insert_eq in H. injection H as ->. auto.
  - rewrite lookup_insert_ne in H by exact Hne. auto.
Qed.

Lemma by_name_fold_known (rows : list (Z * string)) :
  forall (m : gmap string Z) n,
    is_Some (foldl (fun m row => <[snd row := fst row]> m) m rows !! n) <->
    is_Some (m !! n) \/ In n (List.map snd rows).
Proof.
  induction rows as [|[i k] rows IH]; intros m n; simpl; [tauto|].
  rewrite IH. destruct (decide (k = n)) as [->|Hne].
  - rewrite lookup_insert_eq. split; [auto|]. intros _. left. eauto.
  - rewrite lookup_insert_ne by exact Hne. intuition congruence.
Qed.

Lemma by_name_row rows n id :
  by_name_of rows !! n = Some id -> In (id, n) rows.
Proof.
  intros H. apply by_name_fold in H as [H|H]; [|exact H].
  rewrite lookup_empty in H. discriminate.
Qed.

Lemma known_spec rows n :
  known (by_name_of rows) n = true <-> In n (List.map snd rows).
Proof.
  unfold known, by_name_of.
  pose proof (by_name_fold_known rows ∅ n) as H.
  rewrite lookup_empty in H.
  destruct (foldl _ _ rows !! n) as [id|].
  - split; [|reflexivity]. intros _.
    destruct H as [[H|H] _]; [eauto| |exact H]. destruct H; discriminate.
  - split; [discriminate|]. intros Hin.
    destruct H as [_ H]. destruct H as [? H]; [auto|discriminate].
Qed.

(** The rows that the query for the devices returns. *)
Definition rows_read (w : World) (names : list string) : list (Z * string) :=
  List.filter (fun row => existsb (String.eqb (snd row)) names) (devices w).

(** Whether the device table has a device of the name. *)
Definition in_table (w : World) (n : string) : bool :=
  existsb (fun row => String.eqb (snd row) n) (devices w).

Lemma rows_read_In w names id n :
  In (id, n) (rows_read w names) <-> In (id, n) (devices w) /\ In n names.
Proof.
  unfold rows_read. rewrite filter_In. simpl.
  rewrite existsb_exists. split.
  - intros [H (k & Hk & Heq)]. apply String.eqb_eq in Heq. subst k. auto.
  - intros [H Hn]. split; [exact H|]. exists n. split; [exact Hn|].
    apply String.eqb_refl.
Qed.

Lemma known_in_table w names n :
  In n names ->
  known (by_name_of (rows_read w names)) n = in_table w n.
Proof.
  intros Hn. apply eq_true_iff_eq. rewrite known_spec.
  unfold in_table. rewrite existsb_exists, in_map_iff. split.
  - intros ([id k] & Hk & Hrow). simpl in Hk. subst k.
    apply rows_read_In in Hrow as [Hrow _].
    exists (id, n). split; [exact Hrow|apply String.eqb_refl].
  - intros ([id k] & Hrow & Heq). simpl in Heq. apply String.eqb_eq in Heq.
    subst k. exists (id, n). split; [reflexivity|].
    apply rows_read_In. auto.
Qed.

Lemma existing_names_spec w names :
  List.filter (known (by_name_of (rows_read w names))) names
  = List.filter (in_table w) names.
Proof. apply List.filter_ext_in. intros n Hn. apply known_in_table, Hn. Qed.

Lemma missing_names_spec w names :
  List.filter (fun n => negb (known (by_name_of (rows_read w names)) n)) names
  = List.filter (fun n => negb (in_table w n)) names.
Proof.
  apply List.filter_ext_in. intros n Hn. rewrite known_in_table by exact Hn.
  reflexivity.
Qed.

Definition not_in_db : dict json := failed_entry (JStr "设备不存在（DB）").

(** The results before the fleet is asked: an entry for each requested
    device that the table does not have. *)
Definition results0 (w : World) (names : list string) : dict (dict json) :=
  foldl (fun results n => setitem n not_in_db results) []
        (List.filter (fun n => negb (in_table w n)) names).

(** The ways in which the call returns, in one: the loop over the devices
    of the table went through, and the results are its results after the
    loop over the stored rows. *)
Lemma save_returns names command timeout author w results w' :
  save_running_config_snapshots names command timeout author w
  = (Ret results, w') ->
  names <> [] /\
  exists fetch_results collected snapshots x position,
    collect (by_name_of (rows_read w names)) author fetch_results
            (List.filter (in_table w) names) (results0 w names) []
    = inr (collected, snapshots) /\
    results = as_json (backfill (by_id_of (rows_read w names)) x position
                                snapshots collected) /\
    (session_new w = [] ->
     config_snapshots w' = config_snapshots w ++ snapshots /\
     session_new w' = []).
Proof.
  unfold save_running_config_snapshots.
  destruct names as [|n0 names0]; [unfold raise; discriminate|].
  lazy match. set (names := n0 :: names0).
  intros Hrun. split; [discriminate|]. revert Hrun.
  unfold bind at 1, select_devices, bind at 1, db_exec.
  cbn [ext add_event events devices config_snapshots session_new].
  destruct (db_step (SelectDevices names) (ext w)) as [[e|] x1];
    [discriminate|].
  change (devices (set_ext x1 (add_event (Db (SelectDevices names)) w)))
    with (devices w).
  fold (rows_read w names).
  rewrite (missing_names_spec w names), (existing_names_spec w names).
  fold not_in_db. fold (results0 w names).
  set (w1 := set_ext x1 (add_event (Db (SelectDevices names)) w)).
  destruct (List.filter (in_table w) names) as [|e0 existing0] eqn:Hexisting.
  { intros [= <- <-]. exists [], (results0 w names), [], x1, 0%nat.
    split; [reflexivity|]. split; [reflexivity|].
    intros Hnew. rewrite app_nil_r. auto. }
  rewrite <- Hexisting. clear Hexisting e0 existing0.
  unfold bind at 1, fetch.
  destruct (get_running_config (List.filter (in_table w) names) command timeout
              (ext (add_event (GetRunningConfig (List.filter (in_table w) names)
                                                command timeout) w1)))
    as [[fetch_results|e] x2]; [|discriminate].
  destruct (collect (by_name_of (rows_read w names)) author fetch_results
                    (List.filter (in_table w) names) (results0 w names) [])
    as [e|[collected snapshots]] eqn:Hcollect; [discriminate|].
  destruct snapshots as [|s0 snapshots0] eqn:Hsnapshots.
  { intros [= <- <-]. exists fetch_results, collected, [], x2, 0%nat.
    split; [exact Hcollect|]. split; [reflexivity|].
    intros Hnew. rewrite app_nil_r. auto. }
  rewrite <- Hsnapshots in *. clear Hsnapshots s0 snapshots0.
  unfold bind at 1, add_all. unfold bind at 1, commit, bind at 1, db_exec.
  cbn [ext add_event set_ext events devices config_snapshots session_new].
  destruct (db_step Commit x2) as [[e|] x3]; [discriminate|].
  unfold modify.
  cbn [ext add_event set_ext events devices config_snapshots session_new].
  intros [= <- <-].
  eexists fetch_results, collected, snapshots, x3, _.
  split; [exact Hcollect|]. split; [reflexivity|].
  cbn [config_snapshots session_new]. subst w1.
  cbn [ext add_event set_ext events devices config_snapshots session_new].
  intros ->. auto.
Qed.

Lemma existsb_filter (p : string -> bool) (l : list string) n :
  existsb (String.eqb n) (List.filter p l) = true <-> In n l /\ p n = true.
Proof.
  rewrite existsb_exists. split.
  - intros (k & Hk & Heq). apply String.eqb_eq in Heq. subst k.
    apply filter_In in Hk. exact Hk.
  - intros [Hin Hp]. exists n. split; [|apply String.eqb_refl].
    apply filter_In. auto.
Qed.

Lemma In_dict_get n (v : json) d :
  List.NoDup (keys d) -> In (n, v) d -> dict_get n d = v.
Proof.
  induction d as [|[k' v'] d IH]; simpl; intros Hnd; [intros []|].
  inversion Hnd as [|? ? Hnot Hrest]; subst.
  intros [[= -> ->]|Hin].
  - rewrite String.eqb_refl. reflexivity.
  - destruct (String.eqb_spec n k') as [->|Hne].
    + exfalso. apply Hnot. apply in_map_iff. exists (k', v). auto.
    + apply IH; assumption.
Qed.

(** What a call that returns has done, device by device. *)
Lemma save_entries names command timeout author w results w' :
  save_running_config_snapshots names command timeout author w
  = (Ret results, w') ->
  exists fetch_results,
    let by_name := by_name_of (rows_read w names) in
    List.NoDup (keys results) /\
    (forall n, In n (keys results) <-> In n names) /\
    (forall n, In n names -> in_table w n = false ->
               dict_get n results = JDict not_in_db) /\
    (forall n, In n names -> in_table w n = true ->
               exists entry rows entry',
                 judge by_name author fetch_results n = inr (entry, rows) /\
                 extends entry entry' /\
                 dict_get n results = JDict entry') /\
    (session_new w = [] ->
     config_snapshots w'
     = config_snapshots w ++
       flat_map (rows_for by_name author fetch_results)
                (List.filter (in_table w) names) /\
     session_new w' = []).
Proof.
  intros Hrun.
  apply save_returns in Hrun
    as (_ & fetch_results & collected & snapshots & x & position &
        Hcollect & -> & Hstore).
  exists fetch_results. cbv zeta.
  apply collect_spec in Hcollect as (Hjudged & Hcollected & Hrows).
  simpl in Hrows. subst snapshots.
  set (by_name := by_name_of (rows_read w names)) in *.
  set (final := backfill (by_id_of (rows_read w names)) x position
                         (flat_map (rows_for by_name author fetch_results)
                                   (List.filter (in_table w) names))
                         collected).
  destruct (backfill_spec (by_id_of (rows_read w names)) x
              (flat_map (rows_for by_name author fetch_results)
                        (List.filter (in_table w) names))
              position collected) as [Hext Hnd].
  fold final in Hext, Hnd.
  assert (Hbefore : forall n,
             getitem n collected
             = if existsb (String.eqb n) (List.filter (in_table w) names)
               then Some (entry_of by_name author fetch_results n)
               else if existsb (String.eqb n)
                         (List.filter (fun n => negb (in_table w n)) names)
                    then Some not_in_db else None).
  { intros n. rewrite Hcollected, fold_setitem_getitem.
    unfold results0. rewrite fold_setitem_getitem. reflexivity. }
  assert (Hnd0 : List.NoDup (keys collected)).
  { rewrite Hcollected. apply fold_setitem_NoDup.
    unfold results0. apply fold_setitem_NoDup. constructor. }
  split; [rewrite keys_as_json; auto|].
  split; [|split; [|split; [|exact Hstore]]].
  - intros n. rewrite keys_as_json. specialize (Hext n).
    rewrite Hbefore in Hext.
    destruct (existsb (String.eqb n) (List.filter (in_table w) names)) eqn:He.
    { apply existsb_filter in He as [Hin _].
      destruct Hext as (e' & Hget & _).
      split; [auto|]. intros _.
      apply getitem_Some_In in Hget. apply in_map_iff. exists (n, e'). auto. }
    destruct (existsb (String.eqb n)
                (List.filter (fun n => negb (in_table w n)) names)) eqn:Hm.
    { apply existsb_filter in Hm as [Hin _].
      destruct Hext as (e' & Hget & _).
      split; [auto|]. intros _.
      apply getitem_Some_In in Hget. apply in_map_iff. exists (n, e'). auto. }
    apply getitem_None in Hext. split; [contradiction|].
    intros Hin. exfalso.
    destruct (in_table w n) eqn:Ht.
    + assert (H : existsb (String.eqb n) (List.filter (in_table w) names) = true)
        by (apply existsb_filter; auto).
      congruence.
    + assert (H : existsb (String.eqb n)
                    (List.filter (fun n => negb (in_table w n)) names) = true)
        by (apply existsb_filter; rewrite Ht; auto).
      congruence.
  - intros n Hin Ht. rewrite dict_get_as_json. specialize (Hext n).
    rewrite Hbefore in Hext.
    destruct (existsb (String.eqb n) (List.filter (in_table w) names)) eqn:He.
    { apply existsb_filter in He as [_ He]. congruence. }
    assert (Hm : existsb (String.eqb n)
                   (List.filter (fun n => negb (in_table w n)) names) = true)
      by (apply existsb_filter; rewrite Ht; auto).
    rewrite Hm in Hext. destruct Hext as (e' & -> & _ & Hsame).
    rewrite Hsame; reflexivity.
  - intros n Hin Ht. rewrite dict_get_as_json. specialize (Hext n).
    rewrite Hbefore in Hext.
    assert (He : existsb (String.eqb n) (List.filter (in_table w) names) = true)
      by (apply existsb_filter; auto).
    rewrite He in Hext. destruct Hext as (e' & -> & Hextends).
    rewrite List.Forall_forall in Hjudged.
    destruct (Hjudged n) as (entry & rows & Hj).
    { apply filter_In. auto. }
    exists entry, rows, e'. split; [exact Hj|]. split; [|reflexivity].
    unfold entry_of in Hextends. rewrite Hj in Hextends. exact Hextends.
Qed.

(** What a call does to the outside, however it ends: the statements and
    the call to the fleet, in their order, and no stored row when it
    raises. *)
Lemma save_trace names command timeout author w r w' :
  save_running_config_snapshots names command timeout author w = (r, w') ->
  let known_names := List.filter (in_table w) names in
  (exists added rest,
     events w' = events w ++ added /\
     [Db (SelectDevices names);
      GetRunningConfig known_names command timeout;
      Db Commit] = added ++ rest /\
     (In (GetRunningConfig known_names command timeout) added ->
      known_names <> []) /\
     (names = [] -> added = [])) /\
  (forall e, r = Raise e -> config_snapshots w' = config_snapshots w).
Proof.
  cbv zeta. unfold save_running_config_snapshots.
  destruct names as [|n0 names0].
  { unfold raise. intros [= <- <-]. split; [|reflexivity].
    exists [], [Db (SelectDevices []);
                GetRunningConfig (List.filter (in_table w) []) command timeout;
                Db Commit].
    rewrite app_nil_r. repeat split. intros []. }
  lazy match. set (names := n0 :: names0).
  unfold bind at 1, select_devices, bind at 1, db_exec.
  cbn [ext add_event events devices config_snapshots session_new].
  destruct (db_step (SelectDevices names) (ext w)) as [[e|] x1].
  { intros [= <- <-]. cbn [set_ext events config_snapshots].
    split; [|reflexivity].
    exists [Db (SelectDevices names)],
           [GetRunningConfig (List.filter (in_table w) names) command timeout;
            Db Commit].
    repeat split; [|discriminate].
    intros [H|[]]. discriminate H. }
  change (devices (set_ext x1 (add_event (Db (SelectDevices names)) w)))
    with (devices w).
  fold (rows_read w names).
  rewrite (missing_names_spec w names), (existing_names_spec w names).
  fold not_in_db. fold (results0 w names).
  destruct (List.filter (in_table w) names) as [|e0 existing0] eqn:Hexisting.
  { unfold ret. intros [= <- <-]. split; [|discriminate].
    exists [Db (SelectDevices names)],
           [GetRunningConfig [] command timeout; Db Commit].
    repeat split; [|discriminate].
    intros [H|[]]. discriminate H. }
  set (existing := e0 :: existing0).
  assert (Hsome : existing <> []) by discriminate.
  clearbody existing. clear Hexisting e0 existing0.
  unfold bind at 1, fetch.
  destruct (get_running_config existing command timeout _)
    as [[fetch_results|e] x2].
  2:{ intros [= <- <-]. cbn [set_ext add_event events config_snapshots].
      split; [|reflexivity].
      exists [Db (SelectDevices names);
              GetRunningConfig existing command timeout],
             [Db Commit].
      rewrite <- app_assoc. repeat split; [|discriminate]. auto. }
  destruct (collect (by_name_of (rows_read w names)) author fetch_results
                    existing (results0 w names) [])
    as [e|[collected snapshots]].
  { unfold raise. intros [= <- <-].
    cbn [set_ext add_event events config_snapshots].
    split; [|reflexivity].
    exists [Db (SelectDevices names);
            GetRunningConfig existing command timeout],
           [Db Commit].
    rewrite <- app_assoc. repeat split; [|discriminate]. auto. }
  destruct snapshots as [|s0 snapshots0].
  { unfold ret. intros [= <- <-].
    cbn [set_ext add_event events config_snapshots].
    split; [|discriminate].
    exists [Db (SelectDevices names);
            GetRunningConfig existing command timeout],
           [Db Commit].
    rewrite <- app_assoc. repeat split; [|discriminate]. auto. }
  set (snapshots := s0 :: snapshots0).
  unfold bind at 1, add_all. unfold bind at 1, commit, bind at 1, db_exec.
  cbn [ext add_event set_ext events devices config_snapshots session_new].
  destruct (db_step Commit x2) as [[e|] x3];
    unfold modify;
    cbn [ext add_event set_ext events devices config_snapshots session_new];
    intros [= <- <-];
    cbn [ext add_event set_ext events devices config_snapshots session_new].
  - split; [|reflexivity].
    exists [Db (SelectDevices names); GetRunningConfig existing command timeout;
            Db Commit], [].
    rewrite <- !app_assoc. repeat split; [|discriminate]. auto.
  - split; [|discriminate].
    exists [Db (SelectDevices names); GetRunningConfig existing command timeout;
            Db Commit], [].
    rewrite <- !app_assoc. repeat split; [|discriminate]. auto.
Qed.

Lemma dict_get_key n (d : dict json) :
  dict_get n d <> JNull -> In n (keys d).
Proof.
  induction d as [|[k v] d IH]; simpl; [congruence|].
  destruct (String.eqb_spec n k) as [->|Hne]; auto.
Qed.

Lemma well_formed_extends entry entry' :
  well_formed entry -> extends entry entry' -> well_formed entry'.
Proof.
  intros Hwf [Hsame _]. unfold well_formed.
  rewrite !Hsame by discriminate. exact Hwf.
Qed.

Lemma judge_well_formed by_name author fetch_results name entry rows :
  judge by_name author fetch_results name = inr (entry, rows) ->
  well_formed entry.
Proof.
  intros H. apply judge_cases in H as [(H1 & H2 & _)|(H1 & H2 & _)];
    [left|right]; auto.
Qed.

(** X20: a call that returns gives exactly one entry for each requested
    device, whether the table has it, the fleet answered for it or not:
    the keys of the results are the requested names, none twice, and each
    entry is a dictionary that says "failed" with the flag set or
    "success" with the flag cleared.  A device that the table does not
    have gets the entry that says so. *)
Theorem snapshot_results_cover_request names command timeout author w
    results w' :
  save_running_config_snapshots names command timeout author w
  = (Ret results, w') ->
  names <> [] /\
  List.NoDup (keys results) /\
  (forall n, In n (keys results) <-> In n names) /\
  (forall n v, In (n, v) results ->
               exists entry, v = JDict entry /\ well_formed entry) /\
  (forall n, In n names -> in_table w n = false ->
             dict_get n results
             = JDict [("status", JStr "failed"); ("failed", JBool true);
                      ("exception", JStr "设备不存在（DB）")]).
Proof.
  intros Hrun. split.
  { apply save_returns in Hrun as [Hne _]. exact Hne. }
  apply save_entries in Hrun
    as (fetch_results & Hnd & Hkeys & Hmissing & Hknown & _).
  split; [exact Hnd|]. split; [exact Hkeys|]. split; [|exact Hmissing].
  intros n v Hin.
  assert (Hn : In n names).
  { apply Hkeys. apply in_map_iff. exists (n, v). auto. }
  rewrite <- (In_dict_get n v results Hnd Hin).
  destruct (in_table w n) eqn:Ht.
  - destruct (Hknown n Hn Ht) as (entry & rows & entry' & Hj & Hext & ->).
    exists entry'. split; [reflexivity|].
    eapply well_formed_extends; [|exact Hext].
    eapply judge_well_formed, Hj.
  - rewrite (Hmissing n Hn Ht). exists not_in_db. split; [reflexivity|].
    left. split; reflexivity.
Qed.

(** X21: however the call ends, the fleet is asked at most once, after
    the query for the devices and before the commit, and it is asked for
    the requested devices that the table has, in the order of the request,
    and for no other; it is not asked when the table has none of them,
    and an empty request raises before anything is sent. *)
Theorem only_known_devices_are_contacted names command timeout author w :
  let known_names := List.filter (in_table w) names in
  let w' := (save_running_config_snapshots names command timeout author w).2 in
  exists added rest,
    events w' = events w ++ added /\
    [Db (SelectDevices names);
     GetRunningConfig known_names command timeout;
     Db Commit] = added ++ rest /\
    (In (GetRunningConfig known_names command timeout) added ->
     known_names <> []) /\
    (names = [] ->
     added = [] /\
     save_running_config_snapshots names command timeout author w
     = (Raise (ValueError "devices 不能为空"), w)).
Proof.
  cbv zeta.
  destruct (save_running_config_snapshots names command timeout author w)
    as [r w'] eqn:Hrun.
  pose proof (save_trace _ _ _ _ _ _ _ Hrun)
    as [(added & rest & Hev & Hpre & Hasked & Hempty) _].
  exists added, rest. cbn [snd]. split; [exact Hev|]. split; [exact Hpre|].
  split; [exact Hasked|].
  intros ->. split; [auto|]. rewrite <- Hrun. reflexivity.
Qed.

(** X22: in a fresh session, a call that returns has added to the
    snapshot table exactly the rows of the devices whose entry says
    "success": each new row is a "running" row with a text that is not
    blank, the hash of that text and the author, it belongs to a requested
    device of the table, and the entry of that device says "success" with
    the same hash; and each entry that says "success" has such a row.  A
    call that raises has stored nothing. *)
Theorem snapshots_stored_for_successes names command timeout author w :
  session_new w = [] ->
  match save_running_config_snapshots names command timeout author w with
  | (Raise _, w') => config_snapshots w' = config_snapshots w
  | (Ret results, w') =>
      exists rows,
        config_snapshots w' = config_snapshots w ++ rows /\
        session_new w' = [] /\
        Forall (fun snap =>
                  config_type snap = "running" /\
                  PyStr.strip (content snap) <> "" /\
                  content_sha256 snap = sha256_hexdigest (content snap) /\
                  created_by snap = author /\
                  exists n entry,
                    In n names /\
                    In (device_id snap, n) (devices w) /\
                    dict_get n results = JDict entry /\
                    dict_get "status" entry = JStr "success" /\
                    dict_get "sha256" entry = JStr (content_sha256 snap))
               rows /\
        (forall n entry,
            dict_get n results = JDict entry ->
            dict_get "status" entry = JStr "success" ->
            exists snap,
              In snap rows /\
              In (device_id snap, n) (devices w) /\
              dict_get "sha256" entry = JStr (content_sha256 snap))
  end.
Proof.
  intros Hfresh.
  destruct (save_running_config_snapshots names command timeout author w)
    as [[results|e] w'] eqn:Hrun.
  2:{ pose proof (save_trace _ _ _ _ _ _ _ Hrun) as [_ Hraise].
      exact (Hraise e eq_refl). }
  apply save_entries in Hrun
    as (fetch_results & Hnd & Hkeys & Hmissing & Hknown & Hstore).
  destruct (Hstore Hfresh) as [Htable Hsession].
  set (by_name := by_name_of (rows_read w names)) in *.
  eexists. split; [exact Htable|]. split; [exact Hsession|]. split.
  - apply List.Forall_forall. intros snap Hsnap.
    apply in_flat_map in Hsnap as (n & Hn & Hsnap).
    apply filter_In in Hn as [Hn Ht].
    destruct (Hknown n Hn Ht) as (entry & rows & entry' & Hj & Hext & Hget).
    unfold rows_for in Hsnap. rewrite Hj in Hsnap.
    apply judge_cases in Hj
      as [(_ & _ & ->)|(Hstatus & _ & id & text & Hid & Htext & Hsha & ->)];
      [destruct Hsnap|].
    destruct Hsnap as [<-|[]]. cbn. repeat split; [exact Htext|].
    exists n, entry'. split; [exact Hn|]. split.
    { apply by_name_row in Hid. apply rows_read_In in Hid as [Hid _].
      exact Hid. }
    split; [exact Hget|]. destruct Hext as [Hsame _].
    rewrite !Hsame by discriminate. auto.
  - intros n entry' Hget Hstatus.
    assert (Hn : In n names).
    { apply Hkeys, dict_get_key. rewrite Hget. discriminate. }
    destruct (in_table w n) eqn:Ht.
    2:{ rewrite (Hmissing n Hn Ht) in Hget. injection Hget as <-.
        discriminate Hstatus. }
    destruct (Hknown n Hn Ht) as (entry & rows & entry2 & Hj & Hext & Hget2).
    rewrite Hget in Hget2. injection Hget2 as <-.
    destruct Hext as [Hsame _].
    rewrite Hsame in Hstatus by discriminate.
    pose proof Hj as Hcase. apply judge_cases in Hcase
      as [(Hfailed & _)|(_ & _ & id & text & Hid & Htext & Hsha & Hrows)];
      [congruence|].
    exists (mkConfigSnapshot id "running" text (sha256_hexdigest text) author).
    split; [|split].
    + apply in_flat_map. exists n. split; [apply filter_In; auto|].
      unfold rows_for. rewrite Hj, Hrows. left. reflexivity.
    + apply by_name_row in Hid. apply rows_read_In in Hid as [Hid _].
      exact Hid.
    + cbn. rewrite Hsame by discriminate. exact Hsha.
Qed.

(** X23: the two callers read the results of a call in the same way: the
    scheduler counts no failed device exactly when the job runner sees no
    failure, and that is exactly when the entry of every requested device
    says "success". *)
Theorem callers_agree_on_snapshot_results names command timeout author w
    results w' :
  save_running_config_snapshots names command timeout author w
  = (Ret results, w') ->
  (Scheduler.count_failed results = 0%nat <->
   forall n, In n names ->
             exists entry, dict_get n results = JDict entry /\
                           dict_get "status" entry = JStr "success") /\
  (TaskRunner.any_failed results = false <->
   Scheduler.count_failed results = 0%nat).
Proof.
  intros Hrun.
  apply save_entries in Hrun
    as (fetch_results & Hnd & Hkeys & Hmissing & Hknown & _).
  assert (Hentry : forall n v, In (n, v) results ->
             exists entry, v = JDict entry /\ dict_get n results = v /\
                           well_formed entry).
  { intros n v Hin.
    assert (Hn : In n names).
    { apply Hkeys. apply in_map_iff. exists (n, v). auto. }
    pose proof (In_dict_get n v results Hnd Hin) as Hget.
    destruct (in_table w n) eqn:Ht.
    - destruct (Hknown n Hn Ht) as (entry & rows & entry' & Hj & Hext & Hget').
      exists entry'. split; [congruence|]. split; [exact Hget|].
      eapply well_formed_extends; [|exact Hext].
      eapply judge_well_formed, Hj.
    - exists not_in_db. split; [rewrite <- Hget; apply Hmissing; auto|].
      split; [exact Hget|]. left. split; reflexivity. }
  assert (Hcount : Scheduler.count_failed results = 0%nat <->
                   forall n v, In (n, v) results ->
                               Scheduler.reports_ok v = true).
  { unfold Scheduler.count_failed. rewrite List.length_zero_iff_nil. split.
    - intros Hnil n v Hin.
      destruct (Scheduler.reports_ok v) eqn:Hok; [reflexivity|].
      assert (H : In (n, v) (List.filter
                               (fun kv => negb (Scheduler.reports_ok kv.2))
                               results)).
      { apply filter_In. simpl. rewrite Hok. auto. }
      rewrite Hnil in H. destruct H.
    - intros Hall.
      destruct (List.filter (fun kv => negb (Scheduler.reports_ok kv.2)) results)
        as [|[n v] l] eqn:Hf; [reflexivity|].
      assert (H : In (n, v) (List.filter
                               (fun kv => negb (Scheduler.reports_ok kv.2))
                               results))
        by (rewrite Hf; left; reflexivity).
      apply filter_In in H as [Hin Hbad]. simpl in Hbad.
      rewrite (Hall n v Hin) in Hbad. discriminate. }
  split.
  - rewrite Hcount. split.
    + intros Hall n Hn.
      assert (Hkey : In n (keys results)) by (apply Hkeys, Hn).
      apply in_map_iff in Hkey as ([k v] & Hk & Hin). simpl in Hk. subst k.
      destruct (Hentry n v Hin) as (entry & -> & Hget & Hwf).
      exists entry. split; [exact Hget|].
      specialize (Hall n _ Hin). simpl in Hall.
      destruct Hwf as [[_ Hflag]|[Hstatus _]]; [|exact Hstatus].
      rewrite Hflag in Hall. discriminate.
    + intros Hall n v Hin.
      assert (Hn : In n names).
      { apply Hkeys. apply in_map_iff. exists (n, v). auto. }
      destruct (Hentry n v Hin) as (entry & -> & Hget & Hwf).
      destruct (Hall n Hn) as (entry' & Hget' & Hstatus).
      rewrite Hget in Hget'. injection Hget' as <-.
      simpl. destruct Hwf as [[Hfailed _]|[_ Hflag]]; [congruence|].
      rewrite Hflag. reflexivity.
  - rewrite Hcount. split.
    + intros Hany n v Hin.
      destruct (Hentry n v Hin) as (entry & -> & _ & Hwf).
      simpl. destruct Hwf as [[_ Hflag]|[_ Hflag]]; rewrite Hflag;
        [|reflexivity].
      exfalso.
      assert (H : TaskRunner.any_failed results = true).
      { apply TaskRunnerFacts.any_failed_spec. exists n, entry.
        split; [exact Hin|]. rewrite Hflag. reflexivity. }
      congruence.
    + intros Hall.
      destruct (TaskRunner.any_failed results) eqn:Hany; [|reflexivity].
      apply TaskRunnerFacts.any_failed_spec in Hany as (n & entry & Hin & Hflag).
      specialize (Hall n _ Hin). simpl in Hall.
      destruct (dict_get "failed" entry) as [|[]| | | |]; discriminate.
Qed.

End WithEnv.

(** A database without faults over a table of two devices; [r1] answers
    with its configuration and [r2] does not answer. *)
#[local] Instance depot : Env :=
  {| Ext := unit;
     sha256_hexdigest := fun text => "sha256:" +:+ text;
     db_step := fun _ x => (None, x);
     get_running_config := fun hosts _ _ x =>
       (Ret [("r1", JDict [("status", JStr "success"); ("failed", JBool false);
                           ("result", JStr "hostname r1")]);
             ("r2", JDict [("status", JStr "failed"); ("failed", JBool true);
                           ("exception", JStr "timeout")])], x);
     stored_as := fun position _ => (Z.of_nat position + 1, Some "2024-01-01T00:00:00+00:00") |}.

Definition shelf : World (env := depot) :=
  mkWorld (env := depot) [(1, "r1"); (2, "r2")] [] [] tt [].

Definition request : list string := ["r1"; "ghost"; "r2"].

Lemma request_outcome :
  exists results w',
    save_running_config_snapshots (env := depot) request None None (Some "ops")
                                  shelf
    = (Ret results, w').
Proof. eexists _, _. vm_compute. reflexivity. Qed.

Lemma snapshot_results_cover_request_witness :
  exists results,
    (save_running_config_snapshots (env := depot) request None None
                                   (Some "ops") shelf).1 = Ret results /\
    forall n, In n (keys results) <-> In n request.
Proof.
  destruct (save_running_config_snapshots (env := depot) request None None
                                          (Some "ops") shelf)
    as [[results|e] w'] eqn:Hrun.
  - exists results. split; [reflexivity|].
    apply (snapshot_results_cover_request (env := depot) request None None
             (Some "ops") shelf results w' Hrun).
  - exfalso. destruct request_outcome as (results & w'' & H).
    rewrite Hrun in H. discriminate H.
Defined.

Lemma snapshots_stored_for_successes_witness :
  exists rows,
    config_snapshots
      (save_running_config_snapshots (env := depot) request None None
                                     (Some "ops") shelf).2
    = config_snapshots shelf ++ rows /\
    Forall (fun snap => PyStr.strip (content snap) <> "") rows.
Proof.
  pose proof (snapshots_stored_for_successes (env := depot) request None None
                (Some "ops") shelf eq_refl) as H.
  destruct (save_running_config_snapshots (env := depot) request None None
                                          (Some "ops") shelf)
    as [[results|e] w'] eqn:Hrun.
  - destruct H as (rows & Htable & _ & Hrows & _).
    exists rows. split; [exact Htable|].
    eapply List.Forall_impl; [|exact Hrows].
    intros snap (_ & Htext & _). exact Htext.
  - exfalso. destruct request_outcome as (results & w'' & H').
    rewrite Hrun in H'. discriminate H'.
Defined.

Lemma callers_agree_on_snapshot_results_witness :
  exists results,
    (save_running_config_snapshots (env := depot) request None None
                                   (Some "ops") shelf).1 = Ret results /\
    (TaskRunner.any_failed results = false <->
     Scheduler.count_failed results = 0%nat).
Proof.
  destruct (save_running_config_snapshots (env := depot) request None None
                                          (Some "ops") shelf)
    as [[results|e] w'] eqn:Hrun.
  - exists results. split; [reflexivity|].
    apply (callers_agree_on_snapshot_results (env := depot) request None None
             (Some "ops") shelf results w' Hrun).
  - exfalso. destruct request_outcome as (results & w'' & H).
    rewrite Hrun in H. discriminate H.
Defined.

End SnapshotFacts.

(** ** The worker of the job runner *)
Module WorkerFacts.
Import Exec PyVal TaskRunner TaskRunnerFacts FrameFacts Worker.

Section WithEnv.
Context {env : Env}.

(** The world after the executions of the ids of a queue. *)
Definition run_all (queue : list Z) (w : World) : World :=
  fold_left (fun w task_id => (_execute_task task_id w).2) queue w.

Lemma worker_eq queue : forall w, _worker queue w = (Ret tt, run_all queue w).
Proof.
  induction queue as [|k queue IH]; intros w; [reflexivity|].
  unfold _worker in *. simpl. unfold bind, serve, try_except.
  destruct (_execute_task k w) as [[[]|e] w1]; simpl; apply IH.
Qed.

Lemma run_all_keyed queue : forall w, keyed w -> keyed (run_all queue w).
Proof.
  induction queue as [|k queue IH]; intros w Hkey; [exact Hkey|].
  simpl. apply IH, execute_keyed, Hkey.
Qed.

(** A job was not dispatched since the start, or it was dispatched once
    and is not pending. *)
Definition once (j : Z) (calls : nat) (w : World) : Prop :=
  fleet_calls j (events w) = calls \/
  (settled j w /\ (fleet_calls j (events w) <= S calls)%nat).

Lemma other_job_step k j w :
  keyed w -> j <> k ->
  tasks (_execute_task k w).2 !! j = tasks w !! j /\
  fleet_calls j (events (_execute_task k w).2) = fleet_calls j (events w).
Proof.
  intros Hkey Hj.
  destruct (execute_only_job k w (Hkey k))
    as (Hrows & _ & (added & Hev & Hown) & _).
  split; [apply Hrows, Hj|].
  rewrite Hev. apply own_events_calls with (task_id := k); assumption.
Qed.

Lemma settled_step j w :
  (forall t, tasks w !! j = Some t -> is_pending t = false) ->
  tasks (_execute_task j w).2 = tasks w /\
  fleet_calls j (events (_execute_task j w).2) = fleet_calls j (events w).
Proof.
  intros Hs. rewrite (execute_settled_noop j w Hs). simpl.
  rewrite fleet_calls_db. auto.
Qed.

Lemma once_step k j calls w :
  keyed w -> once j calls w -> once j calls (_execute_task k w).2.
Proof.
  intros Hkey Honce.
  destruct (decide (j = k)) as [->|Hne].
  - destruct Honce as [Hc|[(row & Hrow & Hnp) Hc]].
    + destruct (_execute_task k w) as [r w1] eqn:Hrun. cbn [snd].
      destruct (execute_effect k w r w1 (Hkey k) Hrun) as [[_ Hc1]|[Hs Hc1]].
      * left. congruence.
      * right. split; [exact Hs|]. lia.
    + destruct (settled_step k w) as [Ht Hc1].
      { intros t Ht. rewrite Hrow in Ht. injection Ht as <-. exact Hnp. }
      right. split; [|lia]. exists row. rewrite Ht. auto.
  - destruct (other_job_step k j w Hkey Hne) as [Hrow Hc1].
    destruct Honce as [Hc|[(row & Hr & Hnp) Hc]].
    + left. congruence.
    + right. split; [|lia]. exists row. rewrite Hrow. auto.
Qed.

Lemma run_all_once queue j calls :
  forall w, keyed w -> once j calls w -> once j calls (run_all queue w).
Proof.
  induction queue as [|k queue IH]; intros w Hkey Honce; [exact Honce|].
  simpl. apply IH; [apply execute_keyed, Hkey|apply once_step; assumption].
Qed.

Lemma run_all_others queue j :
  forall w, keyed w -> ~ In j queue ->
    tasks (run_all queue w) !! j = tasks w !! j /\
    fleet_calls j (events (run_all queue w)) = fleet_calls j (events w).
Proof.
  induction queue as [|k queue IH]; intros w Hkey Hnot; [auto|].
  simpl in Hnot |- *.
  destruct (IH (_execute_task k w).2) as [Hrow Hc];
    [apply execute_keyed, Hkey|tauto|].
  destruct (other_job_step k j w Hkey) as [Hrow1 Hc1]; [intros ->; tauto|].
  split; congruence.
Qed.

(** The row of the job is missing or is not pending. *)
Definition served (j : Z) (w : World) : Prop :=
  forall t, tasks w !! j = Some t -> is_pending t = false.

Lemma served_kept k j w :
  keyed w -> served j w -> served j (_execute_task k w).2.
Proof.
  intros Hkey Hs t.
  destruct (decide (j = k)) as [->|Hne].
  - destruct (settled_step k w Hs) as [-> _]. apply Hs.
  - destruct (other_job_step k j w Hkey Hne) as [-> _]. apply Hs.
Qed.

Lemma serve_settles j w :
  no_fault -> keyed w -> served j (_execute_task j w).2.
Proof.
  intros Hok Hkey.
  destruct (tasks w !! j) as [task|] eqn:Hrow.
  2:{ apply served_kept; [exact Hkey|]. intros t Ht. congruence. }
  destruct (is_pending task) eqn:Hpending.
  2:{ apply served_kept; [exact Hkey|]. intros t Ht.
      rewrite Hrow in Ht. injection Ht as <-. exact Hpending. }
  pose proof (Hkey j task Hrow) as Hid.
  rewrite (execute_pending j task w Hok Hrow Hid Hpending).
  destruct (try_except (record_outcome task) (record_failure task)
                       (before_dispatch j w)) as [r w1] eqn:Hrun.
  destruct (dispatch_settles task (before_dispatch j w) r w1) as [Hs _].
  { rewrite Hid. rewrite (before_dispatch_row j task w Hrow). eauto. }
  { exact Hrun. }
  rewrite Hid in Hs. destruct Hs as (row & Hr & Hnp).
  intros t Ht. cbn [snd] in Ht. rewrite Hr in Ht. injection Ht as <-.
  exact Hnp.
Qed.

Lemma run_all_served_kept queue j :
  forall w, keyed w -> served j w -> served j (run_all queue w).
Proof.
  induction queue as [|k queue IH]; intros w Hkey Hs; [exact Hs|].
  simpl. apply IH; [apply execute_keyed, Hkey|apply served_kept; assumption].
Qed.

Lemma run_all_served queue j :
  no_fault ->
  forall w, keyed w -> In j queue -> served j (run_all queue w).
Proof.
  intros Hok. induction queue as [|k queue IH]; intros w Hkey Hin;
    [destruct Hin|].
  simpl. destruct (decide (j = k)) as [->|Hne].
  - apply run_all_served_kept; [apply execute_keyed, Hkey|].
    apply serve_settles; assumption.
  - apply IH; [apply execute_keyed, Hkey|].
    destruct Hin as [Heq|Hin]; [congruence|exact Hin].
Qed.

(** X24: the worker goes on whatever an execution does: for the ids it
    takes from the queue it returns without an exception, also when the
    database or the fleet fail.  However often an id is in the queue, the
    fleet is called for the job once at most; a job whose id is not in
    the queue is not touched and not dispatched; and when the database
    works, no job of the queue is left pending. *)
Theorem worker_serves_every_job (queue : list Z) (w : World) :
  (forall j t, tasks w !! j = Some t -> id t = j) ->
  let w' := (_worker queue w).2 in
  (_worker queue w).1 = Ret tt /\
  (forall j, (fleet_calls j (events w') <= S (fleet_calls j (events w)))%nat) /\
  (forall j, ~ In j queue ->
             tasks w' !! j = tasks w !! j /\
             fleet_calls j (events w') = fleet_calls j (events w)) /\
  (no_fault ->
   forall j t, In j queue -> tasks w' !! j = Some t -> is_pending t = false).
Proof.
  intros Hkey. cbv zeta. rewrite worker_eq. cbn [fst snd].
  split; [reflexivity|]. split; [|split].
  - intros j.
    destruct (run_all_once queue j (fleet_calls j (events w)) w Hkey)
      as [Hc|[_ Hc]]; [left; reflexivity|lia|exact Hc].
  - intros j Hnot. apply run_all_others; assumption.
  - intros Hok j t Hin. apply (run_all_served queue j Hok w Hkey Hin).
Qed.

End WithEnv.

(** The queue after the job 1 was submitted twice, and a job 5 that is
    not there. *)
Definition submitted : list Z := [1; 1; 5].

Lemma worker_serves_every_job_witness :
  (_worker (env := lab) submitted queued).1 = Ret tt /\
  (fleet_calls 1 (events (_worker (env := lab) submitted queued).2) <= 1)%nat.
Proof.
  destruct (worker_serves_every_job (env := lab) submitted queued)
    as (Hret & Hcalls & _).
  { intros j t Ht. unfold queued in Ht. cbn [tasks] in Ht.
    apply lookup_singleton_Some in Ht as [<- <-]. reflexivity. }
  split; [exact Hret|]. exact (Hcalls 1).
Defined.

End WorkerFacts.

(** ** The job endpoints and the worker *)
Module TasksApiFacts.
Import Exec PyVal TaskRunner TaskRunnerFacts FrameFacts Worker WorkerFacts
       TasksApi.

Section WithEnv.
Context {env : Env}.

Lemma run_all_served_quiet queue j :
  forall w, keyed w -> served j w ->
    tasks (run_all queue w) !! j = tasks w !! j /\
    fleet_calls j (events (run_all queue w)) = fleet_calls j (events w).
Proof.
  induction queue as [|k queue IH]; intros w Hkey Hs; [auto|].
  simpl.
  destruct (IH (_execute_task k w).2) as [Hrow Hc];
    [apply execute_keyed, Hkey|apply served_kept; assumption|].
  rewrite Hrow, Hc.
  destruct (decide (j = k)) as [->|Hne].
  - destruct (settled_step k w Hs) as [-> ->]. auto.
  - apply other_job_step; assumption.
Qed.

(** What [cancel_task] does when it answers. *)
Lemma cancel_task_ok task_id w body w1 :
  cancel_task task_id w = (Ret (Ok body), w1) ->
  exists task x1,
    tasks w !! task_id = Some task /\
    is_pending task = true /\
    tasks w1 = alter (cancel (utc_now x1)) (id task) (tasks w) /\
    task_logs w1 = task_logs w /\
    events w1 = events w ++ [Db (GetTask task_id); Db Commit].
Proof.
  unfold cancel_task, get_task. unfold bind at 1. rewrite bind_db_exec.
  destruct (db_step (GetTask task_id) (ext w)).1; [discriminate|].
  cbn [tasks after_db set_ext add_event].
  destruct (tasks w !! task_id) as [task|] eqn:Hrow; [|discriminate].
  destruct (is_pending task) eqn:Hp; [|discriminate].
  cbn [negb]. unfold bind at 1, _utc_now. unfold bind at 1, update_task, modify.
  unfold commit. rewrite bind_db_exec.
  match goal with
  | |- context [db_step Commit ?x] => destruct (db_step Commit x).1
  end; [discriminate|].
  unfold ret. intros [= <- <-].
  exists task. eexists. split; [reflexivity|]. split; [exact Hp|].
  cbn. rewrite <- app_assoc. repeat split.
Qed.

(** What it does to a job that is missing or not pending. *)
Lemma cancel_task_refused task_id w r w1 :
  (forall t, tasks w !! task_id = Some t -> is_pending t = false) ->
  cancel_task task_id w = (r, w1) ->
  tasks w1 = tasks w /\ forall body, r <> Ret (Ok body).
Proof.
  intros Hs. unfold cancel_task, get_task. unfold bind at 1.
  rewrite bind_db_exec.
  destruct (db_step (GetTask task_id) (ext w)).1.
  { intros [= <- <-]. split; [reflexivity|discriminate]. }
  cbn [tasks after_db set_ext add_event].
  destruct (tasks w !! task_id) as [task|] eqn:Hrow.
  - rewrite (Hs task eq_refl). unfold ret. cbn [negb].
    intros [= <- <-]. split; [reflexivity|discriminate].
  - unfold ret. intros [= <- <-]. split; [reflexivity|discriminate].
Qed.

(** X25: a job that [cancel_task] has canceled is never dispatched: when
    the endpoint answers, the job was pending and is now "canceled", with
    that error text and a completion time, and whatever ids the worker
    takes from the queue afterwards, the row stays as it is and no call
    to the fleet is made for the job.  A job that is not pending is not
    changed by the endpoint. *)
Theorem canceled_job_is_never_dispatched (task_id : Z) (w : World) :
  (forall j t, tasks w !! j = Some t -> id t = j) ->
  (forall body w1,
      cancel_task task_id w = (Ret (Ok body), w1) ->
      exists task task',
        tasks w !! task_id = Some task /\
        is_pending task = true /\
        tasks w1 !! task_id = Some task' /\
        status task' = Some "canceled" /\
        error_message task' = Some "canceled" /\
        is_Some (completed_at task') /\
        forall queue,
          tasks (_worker queue w1).2 !! task_id = Some task' /\
          fleet_calls task_id (events (_worker queue w1).2)
          = fleet_calls task_id (events w)) /\
  ((forall t, tasks w !! task_id = Some t -> is_pending t = false) ->
   tasks (cancel_task task_id w).2 = tasks w /\
   forall body, (cancel_task task_id w).1 <> Ret (Ok body)).
Proof.
  intros Hkey. split.
  - intros body w1 Hrun.
    apply cancel_task_ok in Hrun
      as (task & x1 & Hrow & Hp & Htasks & _ & Hev).
    pose proof (Hkey task_id task Hrow) as Hid.
    exists task, (cancel (utc_now x1) task).
    split; [exact Hrow|]. split; [exact Hp|].
    assert (Hrow1 : tasks w1 !! task_id = Some (cancel (utc_now x1) task)).
    { rewrite Htasks, Hid, lookup_alter_eq, Hrow. reflexivity. }
    split; [exact Hrow1|]. split; [reflexivity|]. split; [reflexivity|].
    split; [eexists; reflexivity|].
    intros queue. rewrite worker_eq. cbn [snd].
    assert (Hkey1 : keyed w1).
    { intros j t Ht. rewrite Htasks, Hid in Ht.
      destruct (decide (j = task_id)) as [->|Hne].
      - rewrite Hrow1 in Ht || (rewrite lookup_alter_eq, Hrow in Ht).
        injection Ht as <-. exact Hid.
      - rewrite lookup_alter_ne in Ht by congruence. exact (Hkey j t Ht). }
    assert (Hs : served task_id w1).
    { intros t Ht. rewrite Hrow1 in Ht. injection Ht as <-. reflexivity. }
    destruct (run_all_served_quiet queue task_id w1 Hkey1 Hs) as [-> ->].
    split; [exact Hrow1|].
    rewrite Hev, fleet_calls_app. unfold fleet_calls at 2. simpl. lia.
  - intros Hs.
    destruct (cancel_task task_id w) as [r w1] eqn:Hrun. cbn [fst snd].
    exact (cancel_task_refused task_id w r w1 Hs Hrun).
Qed.

End WithEnv.

Lemma canceled_job_is_never_dispatched_witness :
  fleet_calls 1
    (events (_worker (env := lab) submitted
               (cancel_task (env := lab) 1 queued).2).2) = 0%nat.
Proof.
  destruct (canceled_job_is_never_dispatched (env := lab) 1 queued)
    as [Hcancel _].
  { intros j t Ht. unfold queued in Ht. cbn [tasks] in Ht.
    apply lookup_singleton_Some in Ht as [<- <-]. reflexivity. }
  destruct (Hcancel [("message", JStr "已取消")]
                    (cancel_task (env := lab) 1 queued).2 eq_refl)
    as (task & task' & _ & _ & _ & _ & _ & _ & Hlater).
  destruct (Hlater submitted) as [_ ->]. reflexivity.
Defined.

End TasksApiFacts.

(** ** The schedules stay well scheduled *)
Module ScheduleFacts.
Import Exec PyVal Scheduler SchedulerFacts TasksApi SchedulesApi.

Section WithEnv.
Context {env : Env}.

(** A schedule is well scheduled when it has a next run time exactly if
    it is enabled. *)
Definition well_scheduled (s : Schedule) : Prop :=
  if enabled s then is_Some (next_run_at s) else next_run_at s = None.

Definition all_well (w : World) : Prop :=
  forall j s, schedules w !! j = Some s -> well_scheduled s.

(** Each row is stored under its id. *)
Definition keyed (w : World) : Prop :=
  forall j s, schedules w !! j = Some s -> id s = j.

(** What a run does to a row: nothing, or an enabled row gets a next run
    time. *)
Definition rescheduled (s s' : Schedule) : Prop :=
  id s' = id s /\
  (s' = s \/
   (enabled s = true /\ enabled s' = true /\ is_Some (next_run_at s'))).

Definition advanced (w w' : World) : Prop :=
  forall j,
    match schedules w !! j, schedules w' !! j with
    | Some s, Some s' => rescheduled s s'
    | None, None => True
    | _, _ => False
    end.

Lemma advanced_refl w : advanced w w.
Proof.
  intros j. destruct (schedules w !! j); [|exact I]. split; auto.
Qed.

Lemma advanced_trans w1 w2 w3 :
  advanced w1 w2 -> advanced w2 w3 -> advanced w1 w3.
Proof.
  intros H12 H23 j. specialize (H12 j). specialize (H23 j).
  destruct (schedules w1 !! j) as [s1|], (schedules w2 !! j) as [s2|],
           (schedules w3 !! j) as [s3|]; try tauto.
  destruct H12 as [I12 C12], H23 as [I23 C23]. split; [congruence|].
  destruct C23 as [->|(E2 & E3 & N3)]; [exact C12|].
  right. split; [|auto].
  destruct C12 as [->|(E1 & _)]; assumption.
Qed.

Lemma advanced_same w w' : schedules w' = schedules w -> advanced w w'.
Proof. intros H j. rewrite H. apply advanced_refl. Qed.

Lemma advanced_well w w' : advanced w w' -> all_well w -> all_well w'.
Proof.
  intros Hadv Hwell j s' Hs'. specialize (Hadv j). rewrite Hs' in Hadv.
  destruct (schedules w !! j) as [s|] eqn:Hs; [|destruct Hadv].
  destruct Hadv as [_ [->|(_ & E & N)]]; [exact (Hwell j s Hs)|].
  unfold well_scheduled. rewrite E. exact N.
Qed.

Lemma advanced_keyed w w' : advanced w w' -> keyed w -> keyed w'.
Proof.
  intros Hadv Hkey j s' Hs'. specialize (Hadv j). rewrite Hs' in Hadv.
  destruct (schedules w !! j) as [s|] eqn:Hs; [|destruct Hadv].
  destruct Hadv as [-> _]. exact (Hkey j s Hs).
Qed.

(** The row [k] is there and enabled. *)
Definition row_enabled (k : Z) (w : World) : Prop :=
  exists s, schedules w !! k = Some s /\ enabled s = true.

Lemma advanced_enabled k w w' :
  advanced w w' -> row_enabled k w -> row_enabled k w'.
Proof.
  intros Hadv (s & Hs & E). specialize (Hadv k). rewrite Hs in Hadv.
  destruct (schedules w' !! k) as [s'|] eqn:Hs'; [|destruct Hadv].
  exists s'. split; [exact Hs'|].
  destruct Hadv as [_ [->|(_ & E' & _)]]; assumption.
Qed.

(** A computation that only advances the schedules, from the worlds in
    which [P] holds. *)
Section Kept.
Variable P : World -> Prop.
Hypothesis P_kept : forall w w', advanced w w' -> P w -> P w'.

Definition advances {A} (c : M World A) : Prop :=
  forall w, P w -> advanced w (c w).2.

Lemma advances_same {A} (c : M World A) :
  (forall w, schedules (c w).2 = schedules w) -> advances c.
Proof. intros H w _. apply advanced_same, H. Qed.

Lemma advances_bind {A B} (c : M World A) (k : A -> M World B) :
  advances c -> (forall a, advances (k a)) -> advances (bind c k).
Proof.
  intros Hc Hk w Hw. unfold bind. specialize (Hc w Hw).
  destruct (c w) as [[a|e] w1]; simpl in *; [|exact Hc].
  eapply advanced_trans; [exact Hc|]. apply Hk. eapply P_kept; eassumption.
Qed.

Lemma advances_try_except {A} (c : M World A) (h : exn -> M World A) :
  advances c -> (forall e, advances (h e)) -> advances (try_except c h).
Proof.
  intros Hc Hh w Hw. unfold try_except. specialize (Hc w Hw).
  destruct (c w) as [[a|e] w1]; simpl in *; [exact Hc|].
  eapply advanced_trans; [exact Hc|]. apply Hh. eapply P_kept; eassumption.
Qed.

Lemma advances_try_finally {A} (c : M World A) (f : M World unit) :
  advances c -> advances f -> advances (try_finally c f).
Proof.
  intros Hc Hf w Hw. unfold try_finally. specialize (Hc w Hw).
  destruct (c w) as [r w1]. simpl in Hc.
  assert (H1 : P w1) by (eapply P_kept; eassumption).
  specialize (Hf w1 H1).
  destruct (f w1) as [[[]|e] w2]; simpl in *;
    eapply advanced_trans; eassumption.
Qed.

Lemma advances_for_each {A} (xs : list A) (body : A -> M World unit) :
  (forall x, advances (body x)) -> advances (for_each xs body).
Proof.
  intros Hbody. induction xs as [|x xs IH]; simpl.
  - intros w _. apply advanced_refl.
  - apply advances_bind; [apply Hbody|]. intros _. exact IH.
Qed.

End Kept.

Lemma db_exec_schedules op w : schedules (db_exec op w).2 = schedules w.
Proof.
  unfold db_exec. simpl. destruct (db_step op (ext w)) as [[e|] x]; reflexivity.
Qed.

Lemma get_schedule_row k w :
  schedules (get_schedule k w).2 = schedules w /\
  forall o w1, get_schedule k w = (Ret o, w1) -> o = schedules w !! k.
Proof.
  unfold get_schedule, bind, db_exec. simpl.
  destruct (db_step (GetSchedule k) (ext w)) as [[e|] x]; simpl.
  - split; [reflexivity|discriminate].
  - split; [reflexivity|]. intros o w1 [= <- _]. reflexivity.
Qed.

Lemma reschedule_advances k t status error :
  advances (row_enabled k) (Scheduler.update_schedule k (reschedule t status error)).
Proof.
  intros w (s & Hs & E) j.
  unfold Scheduler.update_schedule, modify. simpl.
  destruct (decide (j = k)) as [->|Hne].
  - rewrite lookup_alter_eq, Hs. simpl. split; [reflexivity|].
    right. split; [exact E|]. split; [exact E|]. eexists. reflexivity.
  - rewrite lookup_alter_ne by congruence.
    destruct (schedules w !! j); [|exact I]. split; auto.
Qed.

Lemma run_one_advances k : advances keyed (_run_one k).
Proof.
  intros w Hkey. unfold _run_one. unfold bind at 1.
  destruct (get_schedule_row k w) as [Hsame Hrow].
  destruct (get_schedule k w) as [[o|e] w1]; simpl in Hsame;
    [|apply advanced_same, Hsame].
  specialize (Hrow o w1 eq_refl). subst o.
  destruct (schedules w !! k) as [schedule|] eqn:Hs;
    [|apply advanced_same, Hsame].
  destruct (enabled schedule) eqn:E; simpl; [|apply advanced_same, Hsame].
  pose proof (Hkey k schedule Hs) as Hid. rewrite Hid.
  apply advanced_trans with w1; [apply advanced_same, Hsame|].
  assert (Hen : row_enabled k w1)
    by (exists schedule; rewrite Hsame; auto).
  revert w1 Hen Hsame. intros w1 Hen _. revert w1 Hen.
  pose proof (advanced_enabled k) as Hkept.
  assert (Hdb : forall op, advances (row_enabled k) (db_exec op)).
  { intros op. apply advances_same. intros v. apply db_exec_schedules. }
  unfold commit.
  repeat first
    [ apply Hdb
    | apply reschedule_advances
    | (apply advances_same; intros v; reflexivity)
    | (apply advances_same; intros v; unfold snapshots; simpl;
       match goal with
       | |- context [save_running_config_snapshots ?a ?b ?c ?d ?x] =>
           destruct (save_running_config_snapshots a b c d x)
       end; reflexivity)
    | apply (advances_try_except _ Hkept)
    | apply (advances_bind _ Hkept)
    | intro ].
Qed.

Lemma tick_advances : advances keyed _tick.
Proof.
  pose proof advanced_keyed as Hkept.
  assert (Hdb : forall op, advances keyed (db_exec op)).
  { intros op. apply advances_same. intros v. apply db_exec_schedules. }
  unfold _tick, try_advisory_lock, advisory_unlock, select_due.
  apply (advances_bind _ Hkept); [apply advances_same; reflexivity|].
  intros t. apply (advances_bind _ Hkept).
  { apply (advances_bind _ Hkept); [apply Hdb|]. intros _.
    apply advances_same. intros v. destruct (lock_free (ext v)); reflexivity. }
  intros [|]; simpl; [|apply advances_same; reflexivity].
  apply (advances_try_finally _ Hkept).
  - apply (advances_bind _ Hkept).
    { apply (advances_bind _ Hkept); [apply Hdb|]. intros _.
      apply advances_same. reflexivity. }
    intros [|s due]; [apply advances_same; reflexivity|].
    apply (advances_for_each _ Hkept). intros x. apply run_one_advances.
  - apply (advances_bind _ Hkept); [apply Hdb|]. intros _.
    apply advances_same. reflexivity.
Qed.

Lemma updated_well payload t s : well_scheduled (updated payload t s).
Proof.
  unfold well_scheduled, updated. simpl.
  destruct (assigned (new_enabled payload) (enabled s)); [|reflexivity].
  destruct (run_immediately payload) as [[|]|]; [eexists; reflexivity| |];
    destruct (next_run_at s); eexists; reflexivity.
Qed.

Lemma alter_well f k w :
  all_well w ->
  (forall s, schedules w !! k = Some s -> well_scheduled (f s)) ->
  forall j s', alter f k (schedules w) !! j = Some s' -> well_scheduled s'.
Proof.
  intros Hwell Hf j s' Hs'.
  destruct (decide (j = k)) as [->|Hne].
  - rewrite lookup_alter_eq in Hs'.
    destruct (schedules w !! k) as [s|] eqn:Hs; [|discriminate].
    injection Hs' as <-. apply Hf. reflexivity.
  - rewrite lookup_alter_ne in Hs' by congruence. exact (Hwell j s' Hs').
Qed.

(** What the endpoints do to the table, however they end. *)
Lemma update_schedule_table k payload w r w' :
  update_schedule k payload w = (r, w') ->
  schedules w' = schedules w \/
  exists s t,
    schedules w !! k = Some s /\
    schedules w' = alter (updated payload t) (id s) (schedules w).
Proof.
  unfold update_schedule. unfold bind at 1.
  destruct (get_schedule_row k w) as [Hsame Hrow].
  destruct (get_schedule k w) as [[o|e] w1]; simpl in Hsame;
    [|intros [= <- <-]; auto].
  specialize (Hrow o w1 eq_refl). subst o.
  destruct (schedules w !! k) as [s|] eqn:Hs; [|intros [= <- <-]; auto].
  intros Hrun. right. exists s, (utc_now (ext w1)). split; [reflexivity|].
  revert Hrun.
  unfold bind at 1, now. unfold bind at 1, Scheduler.update_schedule, modify.
  unfold bind at 1, commit.
  rewrite <- Hsame.
  match goal with
  | |- context [db_exec Commit ?v] =>
      pose proof (db_exec_schedules Commit v) as Hc;
      destruct (db_exec Commit v) as [[[]|e] w2]
  end; simpl in Hc; [|intros [= <- <-]; exact Hc].
  unfold bind at 1, refresh. unfold bind at 1.
  destruct (get_schedule_row (id s) w2) as [Hsame2 _].
  destruct (get_schedule (id s) w2) as [[o|e] w3]; simpl in Hsame2;
    [|intros [= <- <-]; congruence].
  destruct o; simpl; intros [= <- <-]; congruence.
Qed.

Lemma run_schedule_now_table k w r w' :
  run_schedule_now k w = (r, w') ->
  schedules w' = schedules w \/
  exists s t,
    schedules w !! k = Some s /\ enabled s = true /\
    schedules w' = alter (triggered t) (id s) (schedules w).
Proof.
  unfold run_schedule_now. unfold bind at 1.
  destruct (get_schedule_row k w) as [Hsame Hrow].
  destruct (get_schedule k w) as [[o|e] w1]; simpl in Hsame;
    [|intros [= <- <-]; auto].
  specialize (Hrow o w1 eq_refl). subst o.
  destruct (schedules w !! k) as [s|] eqn:Hs; [|intros [= <- <-]; auto].
  destruct (enabled s) eqn:E; simpl; [|intros [= <- <-]; auto].
  intros Hrun. right. exists s, (utc_now (ext w1)). split; [reflexivity|].
  split; [exact E|]. revert Hrun.
  unfold bind at 1, now. unfold bind at 1, Scheduler.update_schedule, modify.
  unfold bind at 1, commit.
  rewrite <- Hsame.
  match goal with
  | |- context [db_exec Commit ?v] =>
      pose proof (db_exec_schedules Commit v) as Hc;
      destruct (db_exec Commit v) as [[[]|e] w2]
  end; simpl in Hc; intros [= <- <-]; exact Hc.
Qed.

(** X26: the schedules stay well scheduled: when every schedule of the
    table has a next run time exactly if it is enabled, this is still so
    after [update_schedule], after [run_schedule_now], after a run of a
    schedule and after a tick of the scheduler, however these end; so an
    enabled schedule never loses its next run time, and a disabled one
    never gets one. *)
Theorem schedules_stay_well_scheduled (w : World) :
  (forall j s, schedules w !! j = Some s -> id s = j) ->
  (forall j s, schedules w !! j = Some s ->
     if enabled s then is_Some (next_run_at s) else next_run_at s = None) ->
  (forall k payload, all_well (update_schedule k payload w).2) /\
  (forall k, all_well (run_schedule_now k w).2) /\
  (forall k, all_well (_run_one k w).2) /\
  all_well (_tick w).2.
Proof.
  intros Hkey Hwell. split; [|split; [|split]].
  - intros k payload j s'.
    destruct (update_schedule k payload w) as [r w'] eqn:Hrun. cbn [snd].
    destruct (update_schedule_table k payload w r w' Hrun)
      as [->|(s & t & Hs & ->)]; [apply Hwell|].
    apply alter_well; [exact Hwell|]. intros s0 _. apply updated_well.
  - intros k j s'.
    destruct (run_schedule_now k w) as [r w'] eqn:Hrun. cbn [snd].
    destruct (run_schedule_now_table k w r w' Hrun)
      as [->|(s & t & Hs & E & ->)]; [apply Hwell|].
    apply alter_well; [exact Hwell|]. intros s0 Hs0.
    rewrite (Hkey k s Hs), Hs in Hs0. injection Hs0 as <-.
    unfold well_scheduled, triggered. simpl. rewrite E. eexists. reflexivity.
  - intros k. apply (advanced_well w); [|exact Hwell].
    exact (run_one_advances k w Hkey).
  - apply (advanced_well w); [|exact Hwell].
    exact (tick_advances w Hkey).
Qed.

End WithEnv.

Lemma schedules_stay_well_scheduled_witness :
  all_well (_tick (env := unreachable_devices) nightly_world).2.
Proof.
  apply (schedules_stay_well_scheduled (env := unreachable_devices)
           nightly_world).
  - intros j s Hs. unfold nightly_world in Hs. cbn [schedules] in Hs.
    apply lookup_singleton_Some in Hs as [<- <-]. reflexivity.
  - intros j s Hs. unfold nightly_world in Hs. cbn [schedules] in Hs.
    apply lookup_singleton_Some in Hs as [_ <-]. simpl. eexists. reflexivity.
Defined.

End ScheduleFacts.

(** ** The registry of scrapli tasks *)
Module ScrapliFacts.
Import Exec PyVal ScrapliRegistry StringFacts.

Definition task_names : list string := List.map fst SCRAPLI_TASK_ALLOWLIST.

Definition reads_file (name : string) : Prop :=
  name = "send_commands_from_file" \/ name = "send_configs_from_file".

Lemma allowed_spec name (names : list string) :
  match allowed name (List.map (fun n => (n, n)) names) with
  | Some task => task = name /\ In name names
  | None => ~ In name names
  end.
Proof.
  induction names as [|k names IH]; simpl; [tauto|].
  destruct (String.eqb_spec name k) as [->|Hne]; [auto|].
  destruct (allowed name (List.map (fun n => (n, n)) names)).
  - destruct IH. auto.
  - intros [Heq|Hin]; [congruence|contradiction].
Qed.

Lemma task_names_eq :
  SCRAPLI_TASK_ALLOWLIST = List.map (fun n => (n, n)) task_names.
Proof. reflexivity. Qed.

Lemma reads_file_test name :
  String.eqb name "send_commands_from_file" ||
  String.eqb name "send_configs_from_file" = true <-> reads_file name.
Proof.
  unfold reads_file. rewrite orb_true_iff, !String.eqb_eq. reflexivity.
Qed.

(** X27: [resolve_scrapli_task] never hands out a task that reads a file
    of the server: it refuses exactly the names that are not on the
    allow-list and the two file tasks without a content text, and the task
    it returns is on the allow-list under the returned name and is none of
    the two file tasks.  For any other name of the list the name and the
    parameters are returned as they are. *)
Theorem resolve_never_reads_server_files (task_name : string)
    (params : list (string * json)) :
  ((exists e, resolve_scrapli_task task_name params = inl e) <->
   ~ In task_name task_names \/
   (reads_file task_name /\ dict_get "content" params = JNull)) /\
  (forall task normalized effective_name,
      resolve_scrapli_task task_name params
      = inr (task, normalized, effective_name) ->
      task = effective_name /\
      In effective_name task_names /\
      ~ reads_file effective_name /\
      (~ reads_file task_name ->
       effective_name = task_name /\ normalized = params)).
Proof.
  unfold resolve_scrapli_task. rewrite task_names_eq.
  pose proof (allowed_spec task_name task_names) as Hname.
  destruct (allowed task_name (List.map (fun n => (n, n)) task_names))
    as [internal_task|].
  2:{ split; [split; eauto|discriminate]. }
  destruct Hname as [-> Hin].
  destruct (String.eqb task_name "send_commands_from_file" ||
            String.eqb task_name "send_configs_from_file") eqn:Hfile.
  - apply reads_file_test in Hfile. unfold dict_pop.
    destruct (dict_get "content" params) eqn:Hcontent;
      try (split;
           [split; [intros [e He]; revert He|intros [Hno|[_ Hnull]];
                                             [contradiction|discriminate]]
           |intros task normalized effective_name];
           destruct (String.eqb task_name "send_commands_from_file");
           cbn; try discriminate;
           intros [= <- <- <-];
           (split; [reflexivity|]);
           (split; [unfold task_names; cbn; tauto|]);
           (split; [intros [H|H]; discriminate H|]);
           intros Hno; contradiction).
    split; [split; eauto|discriminate].
  - assert (Hno : ~ reads_file task_name).
    { intros H. apply reads_file_test in H. congruence. }
    split.
    + split; [intros [e He]; discriminate He|].
      intros [H|[H _]]; contradiction.
    + intros task normalized effective_name [= <- <- <-].
      repeat split; assumption.
Qed.







(** The lines of a small file, with the path of a file of the server
    given as well. *)
Definition upload : list (string * json) :=
  [("file", JStr "/etc/passwd");
   ("content", JStr ("# clock" +:+ String "010" "" +:+ " show clock  "
                     +:+ String "013" (String "010" "") +:+ String "010" ""
                     +:+ "show version"));
   ("timeout_ops", JNum 30)].


Example upload_lines :
  resolve_scrapli_task "send_commands_from_file" upload
  = inr ("send_commands",
         [("timeout_ops", JNum 30);
          ("commands", JList [JStr "show clock"; JStr "show version"])],
         "send_commands").
Proof. vm_compute. reflexivity. Qed.

End ScrapliFacts.
